(** * Meme-coin aggregator: merge, change detection, retry, cache, query

    A shallow embedding of the back end's pipeline
    (services/Aggregator.ts, services/CacheService.ts,
    providers/DexScreenerProvider.ts, config/index.ts) together with the
    properties that its specification states about it; then the rest of
    the pipeline (the Jupiter and CoinGecko providers, [getTokens], the
    route, the scheduled update, the WebSocket service and the client's
    hook) with properties read off the code. *)

From Stdlib Require Import QArith Qabs Lqa ZArith Lia.
From Stdlib Require SpecFloat.
From stdpp Require Import base option list gmap strings.
From stdpp Require sorting.

Local Open Scope string_scope.
Local Open Scope list_scope.

(** ** JavaScript numbers

    A JavaScript [number] is modelled by an exact rational or one of the three
    special values.  The model follows IEEE 754 on the special values
    (division by zero, [Infinity - Infinity], comparisons with [NaN]); it
    does not round, does not overflow, and has a single zero.  Where an
    outcome hangs on rounding or on the sign of zero, the numbers are the
    doubles of [Binary64], below. *)

Module JsNum.

Inductive num : Type :=
  | Fin (q : Q)
  | PInf
  | NInf
  | NaN.

Definition of_Z (z : Z) : num := Fin (inject_Z z).

Definition Qltb (a b : Q) : bool :=
  match (a ?= b)%Q with Lt => true | _ => false end.

Definition Qis_zero (a : Q) : bool :=
  match (a ?= 0)%Q with Eq => true | _ => false end.

(** [a - b] *)
Definition sub (a b : num) : num :=
  match a, b with
  | NaN, _ | _, NaN => NaN
  | Fin x, Fin y => Fin (x - y)
  | Fin _, PInf => NInf
  | Fin _, NInf => PInf
  | PInf, PInf => NaN
  | PInf, _ => PInf
  | NInf, NInf => NaN
  | NInf, _ => NInf
  end.

(** [a / b]: a finite non-zero number over zero is an infinity, zero over
    zero is [NaN]; nothing is raised. *)
Definition div (a b : num) : num :=
  match a, b with
  | NaN, _ | _, NaN => NaN
  | Fin x, Fin y =>
      if Qis_zero y then
        match (x ?= 0)%Q with Gt => PInf | Lt => NInf | Eq => NaN end
      else Fin (x / y)
  | Fin _, _ => Fin 0
  | PInf, Fin y => if Qltb y 0 then NInf else PInf
  | NInf, Fin y => if Qltb y 0 then PInf else NInf
  | _, _ => NaN
  end.

(** [a * b] *)
Definition mul (a b : num) : num :=
  match a, b with
  | NaN, _ | _, NaN => NaN
  | Fin x, Fin y => Fin (x * y)
  | PInf, Fin y | Fin y, PInf =>
      match (y ?= 0)%Q with Gt => PInf | Lt => NInf | Eq => NaN end
  | NInf, Fin y | Fin y, NInf =>
      match (y ?= 0)%Q with Gt => NInf | Lt => PInf | Eq => NaN end
  | PInf, PInf | NInf, NInf => PInf
  | PInf, NInf | NInf, PInf => NInf
  end.

(** [Math.abs] *)
Definition abs (a : num) : num :=
  match a with
  | Fin x => Fin (Qabs x)
  | PInf | NInf => PInf
  | NaN => NaN
  end.

(** [a > b]; false as soon as one side is [NaN]. *)
Definition gt (a b : num) : bool :=
  match a, b with
  | NaN, _ | _, NaN => false
  | Fin x, Fin y => Qltb y x
  | PInf, PInf => false
  | PInf, _ => true
  | _, PInf => false
  | NInf, _ => false
  | Fin _, NInf => true
  end.

(** [Math.max(a, b)]: [NaN] as soon as one argument is. *)
Definition Math_max (a b : num) : num :=
  match a, b with
  | NaN, _ | _, NaN => NaN
  | _, _ => if gt b a then b else a
  end.

(** [Math.min(a, b)] *)
Definition Math_min (a b : num) : num :=
  match a, b with
  | NaN, _ | _, NaN => NaN
  | _, _ => if gt a b then b else a
  end.

(** Truthiness of a number: [0] and [NaN] are falsy. *)
Definition truthy (a : num) : bool :=
  match a with
  | Fin x => negb (Qis_zero x)
  | NaN => false
  | _ => true
  end.

(** [a < 0] *)
Definition is_negative (a : num) : bool := gt (Fin 0) a.

(** [a <= b]; false as soon as one side is [NaN]. *)
Definition le (a b : num) : bool :=
  match a, b with
  | NaN, _ | _, NaN => false
  | _, _ => negb (gt a b)
  end.

(** [a === 0] *)
Definition is_zero (a : num) : bool :=
  match a with
  | Fin x => Qis_zero x
  | _ => false
  end.

End JsNum.

Import JsNum.

(** ** Strings *)

(** [String.prototype.toLowerCase] on ASCII text (token addresses are
    base-58 ASCII). *)
Definition lower_ascii (c : Ascii.ascii) : Ascii.ascii :=
  let n := Ascii.nat_of_ascii c in
  if (65 <=? n)%nat && (n <=? 90)%nat then Ascii.ascii_of_nat (n + 32) else c.

Fixpoint toLowerCase (s : string) : string :=
  match s with
  | EmptyString => EmptyString
  | String c s' => String (lower_ascii c) (toLowerCase s')
  end.

(** ** types/index.ts: [Token] *)

Record Token : Type := mkToken {
  token_address : option string;  (* [None]: missing at run time *)
  token_name : string;
  token_ticker : string;
  price_sol : num;
  market_cap_sol : num;
  volume_sol : num;
  liquidity_sol : num;
  transaction_count : num;
  price_1hr_change : num;
  price_24hr_change : option num;
  price_7d_change : option num;
  protocol : string;
  sources : option (list string);
  last_updated : option num
}.

(** ** config/index.ts *)

Module config.

Module rateLimit.
Definition maxRetries : nat := 3.
Definition baseDelay : Z := 1000.
Definition maxDelay : Z := 10000.
End rateLimit.

Module pagination.
Definition defaultLimit : num := of_Z 25.
Definition maxLimit : num := of_Z 50.
End pagination.

End config.

(** ** Aggregator.mergeTokens *)

(** The local [tokenMap]: a JavaScript [Map] keeps its keys in insertion
    order, and [set] on a key already present replaces the value where it
    stands. *)
Definition TokenMap : Type := list (string * Token).

Fixpoint map_get (k : string) (m : TokenMap) : option Token :=
  match m with
  | [] => None
  | (k', v) :: m' => if decide (k = k') then Some v else map_get k m'
  end.

Fixpoint map_set (k : string) (v : Token) (m : TokenMap) : TokenMap :=
  match m with
  | [] => [(k, v)]
  | (k', v') :: m' =>
      if decide (k = k') then (k, v) :: m' else (k', v') :: map_set k v m'
  end.

Definition map_values (m : TokenMap) : list Token := m.*2.

(** The guard [token && token.token_address]: the address of a record
    that is there and whose address is a non-empty string. *)
Definition valid_address (token : option Token) : option string :=
  match token with
  | Some t =>
      match token_address t with
      | Some a => if decide (a = "") then None else Some a
      | None => None
      end
  | None => None
  end.

(** The identity key under which [mergeTokens] files a record. *)
Definition merge_key (token : option Token) : option string :=
  toLowerCase <$> valid_address token.

(** [existing.sources || []] *)
Definition sources_or_empty (t : Token) : list string :=
  match sources t with Some l => l | None => [] end.

(** [{...existing, sources: [...(existing.sources || []), 'Jupiter'],
      volume_sol: Math.max(existing.volume_sol, jupToken.volume_sol)}] *)
Definition merge_existing (existing jupToken : Token) : Token :=
  {| token_address := token_address existing;
     token_name := token_name existing;
     token_ticker := token_ticker existing;
     price_sol := price_sol existing;
     market_cap_sol := market_cap_sol existing;
     volume_sol := Math_max (volume_sol existing) (volume_sol jupToken);
     liquidity_sol := liquidity_sol existing;
     transaction_count := transaction_count existing;
     price_1hr_change := price_1hr_change existing;
     price_24hr_change := price_24hr_change existing;
     price_7d_change := price_7d_change existing;
     protocol := protocol existing;
     sources := Some (sources_or_empty existing ++ ["Jupiter"]);
     last_updated := last_updated existing |}.

(** Body of [dexTokens.forEach]. *)
Definition dex_step (tokenMap : TokenMap) (token : option Token) : TokenMap :=
  match token, merge_key token with
  | Some t, Some address => map_set address t tokenMap
  | _, _ => tokenMap
  end.

(** Body of [jupiterTokens.forEach]. *)
Definition jupiter_step (tokenMap : TokenMap) (jupToken : option Token) : TokenMap :=
  match jupToken, merge_key jupToken with
  | Some j, Some address =>
      match map_get address tokenMap with
      | Some existing => map_set address (merge_existing existing j) tokenMap
      | None => map_set address j tokenMap
      end
  | _, _ => tokenMap
  end.

Definition merge_map (dexTokens jupiterTokens : list (option Token)) : TokenMap :=
  fold_left jupiter_step jupiterTokens (fold_left dex_step dexTokens []).

Definition mergeTokens (dexTokens jupiterTokens : list (option Token)) : list Token :=
  map_values (merge_map dexTokens jupiterTokens).

(** ** types/index.ts: [FilterOptions] *)

Record FilterOptions : Type := mkFilterOptions {
  period : option string;
  sortBy : option string;
  limit : option num;
  cursor : option string;
  skipCache : option bool
}.

(** Truthiness of an optional string: [undefined] and [""] are falsy. *)
Definition truthy_string (s : option string) : option string :=
  match s with
  | Some v => if decide (v = "") then None else Some v
  | None => None
  end.

(** ** Aggregator.sortTokens *)

(** [Array.prototype.sort] with a comparator: a stable sort in which [a]
    moves behind [b] exactly when [compare(a, b) > 0].  (Where a comparator
    answers [NaN] the engines are free in the order they produce; the model
    takes [NaN] as "keep the order", as the language standard does for one
    comparison.) *)
Section Sort.
Context {A : Type} (compare : A → A → num).

Fixpoint sort_insert (a : A) (l : list A) : list A :=
  match l with
  | [] => [a]
  | b :: l' => if gt (compare a b) (Fin 0) then b :: sort_insert a l' else a :: l
  end.

Definition array_sort (l : list A) : list A := foldr sort_insert [] l.
End Sort.

(** The branch of the [switch (sortBy)] that runs. *)
Inductive SortBranch : Type :=
  | CaseVolume
  | CasePriceChange
  | CaseMarketCap
  | CaseDefault.

Definition sort_branch (sortBy : string) : SortBranch :=
  if decide (sortBy = "volume") then CaseVolume
  else if decide (sortBy = "price_change") then CasePriceChange
  else if decide (sortBy = "market_cap") then CaseMarketCap
  else CaseDefault.

Definition sortTokens (tokens : list Token) (sortBy : string) : list Token :=
  match sort_branch sortBy with
  | CaseVolume => array_sort (λ a b, sub (volume_sol b) (volume_sol a)) tokens
  | CasePriceChange =>
      array_sort (λ a b, sub (price_1hr_change b) (price_1hr_change a)) tokens
  | CaseMarketCap =>
      array_sort (λ a b, sub (market_cap_sol b) (market_cap_sol a)) tokens
  | CaseDefault => array_sort (λ a b, sub (volume_sol b) (volume_sol a)) tokens
  end.

(** ** Aggregator.applyFiltersAndSort *)

(** [options.limit || config.pagination.defaultLimit] *)
Definition limit_or_default (options : FilterOptions) : num :=
  match limit options with
  | Some n => if truthy n then n else config.pagination.defaultLimit
  | None => config.pagination.defaultLimit
  end.

(** [const limit = Math.min(options.limit || defaultLimit, maxLimit)] *)
Definition effective_limit (options : FilterOptions) : num :=
  Math_min (limit_or_default options) config.pagination.maxLimit.

(** The number truncated towards zero, as [slice] reads its bounds. *)
Definition Qtrunc (q : Q) : Z := Z.quot (Qnum q) (Z.pos (Qden q)).

(** Where [slice(0, end)] stops in an array of [len] elements: a negative
    [end] counts from the back of the array. *)
Definition slice_end (len : nat) (e : num) : nat :=
  match e with
  | NaN | NInf => 0%nat
  | PInf => len
  | Fin q =>
      let z := Qtrunc q in
      if (z <? 0)%Z then Z.to_nat (Z.max (Z.of_nat len + z) 0)
      else Z.to_nat (Z.min z (Z.of_nat len))
  end.

(** [array.slice(0, end)] *)
Definition slice0 {A : Type} (l : list A) (e : num) : list A :=
  take (slice_end (length l) e) l.

(** The branch of [sortTokens] a query runs, if it sorts at all. *)
Definition sort_branch_taken (options : FilterOptions) : option SortBranch :=
  sort_branch <$> truthy_string (sortBy options).

(** The branch [if (options.period)] has an empty body and is left out. *)
Definition applyFiltersAndSort (tokens : list Token) (options : FilterOptions)
  : list Token :=
  let filtered :=
    match truthy_string (sortBy options) with
    | Some s => sortTokens tokens s
    | None => tokens
    end in
  slice0 filtered (effective_limit options).

(** ** Aggregator.detectChanges *)

Record Changes : Type := mkChanges {
  priceChanges : list Token;
  volumeSpikes : list Token
}.

(** [Math.abs(((token.price_sol - previous.price_sol) / previous.price_sol) * 100)] *)
Definition priceChangePercent (token previous : Token) : num :=
  abs (mul (div (sub (price_sol token) (price_sol previous)) (price_sol previous))
           (of_Z 100)).

(** [((token.volume_sol - previous.volume_sol) / previous.volume_sol) * 100] *)
Definition volumeIncrease (token previous : Token) : num :=
  mul (div (sub (volume_sol token) (volume_sol previous)) (volume_sol previous))
      (of_Z 100).

(** Body of [currentTokens.forEach]; [previousTokens] is the field of the
    aggregator, threaded through. *)
Definition detect_step (st : gmap (option string) Token * Changes) (token : Token)
  : gmap (option string) Token * Changes :=
  let '(previousTokens, out) := st in
  let out' :=
    match previousTokens !! token_address token with
    | Some previous =>
        {| priceChanges :=
             if gt (priceChangePercent token previous) (of_Z 5)
             then priceChanges out ++ [token] else priceChanges out;
           volumeSpikes :=
             if gt (volumeIncrease token previous) (of_Z 50)
             then volumeSpikes out ++ [token] else volumeSpikes out |}
    | None => out
    end in
  (<[token_address token := token]> previousTokens, out').

Definition detectChanges (previousTokens : gmap (option string) Token)
    (currentTokens : list Token) : gmap (option string) Token * Changes :=
  fold_left detect_step currentTokens (previousTokens, mkChanges [] []).

(** ** JavaScript numbers as the engine has them

    Where an outcome hangs on rounding or on the sign of zero (the
    thresholds of [detectChanges]), the numbers are taken as the IEEE 754
    binary64 values they are: every operation rounds to the nearest
    double, ties to even, and there are two zeros.  The arithmetic is the
    Standard Library's [SpecFloat] at 53 bits of precision. *)

Module Binary64.

Definition double : Type := SpecFloat.spec_float.

Definition prec : Z := 53.
Definition emax : Z := 1024.

(** The double nearest to the integer [z]: [z] itself up to [2^53]. *)
Definition of_Z (z : Z) : double := SpecFloat.binary_normalize prec emax z 0 false.

(** [a - b], [a / b], [a * b], [Math.abs(a)] and [a > b] *)
Definition sub : double → double → double := SpecFloat.SFsub prec emax.
Definition div : double → double → double := SpecFloat.SFdiv prec emax.
Definition mul : double → double → double := SpecFloat.SFmul prec emax.
Definition abs : double → double := SpecFloat.SFabs.
Definition gt (a b : double) : bool := SpecFloat.SFltb b a.

(** The double nearest to [n / d], for integers that are doubles
    themselves: what the decimal literal [105.01] denotes is
    [ratio 10501 100]. *)
Definition ratio (n d : Z) : double := div (of_Z n) (of_Z d).

(** [Token], with its numbers as doubles. *)
Record Token : Type := mkToken {
  token_address : option string;
  token_name : string;
  token_ticker : string;
  price_sol : double;
  market_cap_sol : double;
  volume_sol : double;
  liquidity_sol : double;
  transaction_count : double;
  price_1hr_change : double;
  price_24hr_change : option double;
  price_7d_change : option double;
  protocol : string;
  sources : option (list string);
  last_updated : option double
}.

Record Changes : Type := mkChanges {
  priceChanges : list Token;
  volumeSpikes : list Token
}.

(** [Math.abs(((token.price_sol - previous.price_sol) / previous.price_sol) * 100)] *)
Definition priceChangePercent (token previous : Token) : double :=
  abs (mul (div (sub (price_sol token) (price_sol previous)) (price_sol previous))
           (of_Z 100)).

(** [((token.volume_sol - previous.volume_sol) / previous.volume_sol) * 100] *)
Definition volumeIncrease (token previous : Token) : double :=
  mul (div (sub (volume_sol token) (volume_sol previous)) (volume_sol previous))
      (of_Z 100).

(** Body of [currentTokens.forEach], on the field [previousTokens]. *)
Definition detect_step (st : gmap (option string) Token * Changes) (token : Token)
  : gmap (option string) Token * Changes :=
  let '(previousTokens, out) := st in
  let out' :=
    match previousTokens !! token_address token with
    | Some previous =>
        {| priceChanges :=
             if gt (priceChangePercent token previous) (of_Z 5)
             then priceChanges out ++ [token] else priceChanges out;
           volumeSpikes :=
             if gt (volumeIncrease token previous) (of_Z 50)
             then volumeSpikes out ++ [token] else volumeSpikes out |}
    | None => out
    end in
  (<[token_address token := token]> previousTokens, out').

Definition detectChanges (previousTokens : gmap (option string) Token)
    (currentTokens : list Token) : gmap (option string) Token * Changes :=
  fold_left detect_step currentTokens (previousTokens, mkChanges [] []).

End Binary64.

(** ** DexScreenerProvider: retry with backoff *)

(** What the provider reads of a rejected request. *)
Record RequestError : Type := mkRequestError {
  code : option string;
  response_status : option Z   (* [error.response.status], if there is a response *)
}.

Definition isRetryableError (error : RequestError) : bool :=
  bool_decide (code error = Some "ECONNABORTED")
  || bool_decide (code error = Some "ETIMEDOUT")
  || match response_status error with Some s => (500 <=? s)%Z | None => false end
  || match response_status error with Some s => (s =? 429)%Z | None => false end.

Inductive Settled (R : Type) : Type :=
  | Resolved (r : R)
  | Rejected (e : RequestError).
Arguments Resolved {R} r.
Arguments Rejected {R} e.

(** The provider's mutable field and the delays it has slept, in order. *)
Record Provider : Type := mkProvider {
  retryCount : nat;
  slept : list Z
}.

Definition backoff_delay (n : nat) : Z :=
  Z.min (config.rateLimit.baseDelay * 2 ^ Z.of_nat n) config.rateLimit.maxDelay.

(** [retryWithBackoff(fn, retries)] as it runs when nothing else runs on
    the provider in between; [fn k] is how the request settles the [k]-th
    time it is issued, [issued] counts the requests already made.  The
    calls that run together on one provider are in [Pool], below. *)
Fixpoint retryWithBackoff {R : Type} (fn : nat → Settled R) (issued : nat)
    (retries : nat) (this : Provider) : Settled R * Provider :=
  match fn issued with
  | Resolved response => (Resolved response, mkProvider 0 (slept this))
  | Rejected error =>
      match retries with
      | O => (Rejected error, this)
      | S retries' =>
          if isRetryableError error then
            let delay := backoff_delay (retryCount this) in
            retryWithBackoff fn (S issued) retries'
              (mkProvider (S (retryCount this)) (slept this ++ [delay]))
          else (Rejected error, this)
      end
  end.

(** One search of [fetchTokens]:
    [retryWithBackoff(...).then(onResponse).catch(error => [])]. *)
Definition search {R : Type} (onResponse : R → list Token) (fn : nat → Settled R)
    (this : Provider) : list Token * Provider :=
  match retryWithBackoff fn 0 config.rateLimit.maxRetries this with
  | (Resolved response, this') => (onResponse response, this')
  | (Rejected _, this') => ([], this')
  end.

(** *** The calls of one provider, run together

    [fetchTokens] starts its six calls of [retryWithBackoff] at once, on
    the one provider.  A call runs until its next [await] and is resumed
    when what it awaits has settled; the calls that are resumed in between
    read and write the same field [retryCount]. *)

Module Pool.

(** Where a call stands: at [await fn()], at [await this.sleep(delay)]
    (each with the [retries] of the invocation it is in), or settled. *)
Inductive Stage (R : Type) : Type :=
  | AwaitsRequest (retries : nat)
  | AwaitsSleep (retries : nat)
  | Settles (outcome : Settled R).
Arguments AwaitsRequest {R} retries.
Arguments AwaitsSleep {R} retries.
Arguments Settles {R} outcome.

Record Call (R : Type) : Type := mkCall {
  fn : nat → Settled R;   (* how the request settles the [k]-th time it is issued *)
  issued : nat;           (* the requests that have settled before the pending one *)
  stage : Stage R;
  sleeps : list Z         (* the delays the call has asked [sleep] for, in order *)
}.
Arguments mkCall {R} fn issued stage sleeps.
Arguments fn {R} c _.
Arguments issued {R} c.
Arguments stage {R} c.
Arguments sleeps {R} c.

(** [this.retryWithBackoff(fn)], up to its first [await]. *)
Definition started {R : Type} (fn : nat → Settled R) : Call R :=
  mkCall fn 0 (AwaitsRequest config.rateLimit.maxRetries) [].

(** The call is resumed and runs to its next [await], or to its end;
    [retryCount] is the field as it stands when the call is resumed, and
    the second component is the field as the call leaves it.  After
    [await fn()]: the [try] ends in [this.retryCount = 0; return response],
    the [catch] rethrows or computes the delay from [this.retryCount] and
    goes to sleep.  After [await this.sleep(delay)]: [this.retryCount++],
    and [retryWithBackoff(fn, retries - 1)] issues the request again. *)
Definition resume {R : Type} (call : Call R) (retryCount : nat) : Call R * nat :=
  match stage call with
  | AwaitsRequest retries =>
      match fn call (issued call) with
      | Resolved response =>
          (mkCall (fn call) (issued call) (Settles (Resolved response)) (sleeps call),
           0%nat)
      | Rejected error =>
          if bool_decide (retries = 0%nat) || negb (isRetryableError error) then
            (mkCall (fn call) (issued call) (Settles (Rejected error)) (sleeps call),
             retryCount)
          else
            (mkCall (fn call) (issued call) (AwaitsSleep retries)
               (sleeps call ++ [backoff_delay retryCount]),
             retryCount)
      end
  | AwaitsSleep retries =>
      (mkCall (fn call) (S (issued call)) (AwaitsRequest (retries - 1)) (sleeps call),
       S retryCount)
  | Settles _ => (call, retryCount)
  end.

(** The provider with the calls that are under way on it. *)
Record Provider (R : Type) : Type := mkProvider {
  retryCount : nat;
  calls : list (Call R)
}.
Arguments mkProvider {R} retryCount calls.
Arguments retryCount {R} p.
Arguments calls {R} p.

(** What the [i]-th call awaits settles, and the call is resumed. *)
Definition step {R : Type} (i : nat) (this : Provider R) : Provider R :=
  match calls this !! i with
  | Some call =>
      let '(call', retryCount') := resume call (retryCount this) in
      mkProvider retryCount' (<[i := call']> (calls this))
  | None => this
  end.

(** The calls resumed in the order of [schedule], which is the order in
    which requests and timers happen to settle. *)
Definition run {R : Type} (schedule : list nat) (this : Provider R) : Provider R :=
  fold_left (λ this i, step i this) schedule this.

(** [.then(onResponse).catch(error => [])] on the settled call. *)
Definition then_catch {R : Type} (onResponse : R → list Token)
    (outcome : Settled R) : list Token :=
  match outcome with
  | Resolved response => onResponse response
  | Rejected _ => []
  end.

End Pool.

(** ** CacheService *)

Module Cache.

(** How a call ends: with a value, or with an exception in flight. *)
Inductive Completion (A : Type) : Type :=
  | Returns (a : A)
  | Throws (error : string).
Arguments Returns {A} a.
Arguments Throws {A} error.

(** [config.cache.ttl], seconds, when the environment does not set it. *)
Definition default_ttl : num := of_Z 30.

Section Service.
(** The Redis server as the [ioredis] client shows it: each command ends
    in a reply or an exception and leaves the server in some state. *)
Context {Redis : Type}.
Variable client_get : string → Redis → Completion (option string) * Redis.
Variable client_setex : string → num → string → Redis → Completion unit * Redis.
Variable client_del : string → Redis → Completion unit * Redis.
Variable JSON_parse : string → Completion (option (list Token)).
Variable JSON_stringify : list Token → string.

Record Service : Type := mkService {
  isConnected : bool;
  client : Redis
}.

(** Methods run in a state-and-exception monad over the service. *)
Definition M (A : Type) : Type := Service → Completion A * Service.

Definition ret {A} (a : A) : M A := λ this, (Returns a, this).

Definition bind {A B} (m : M A) (k : A → M B) : M B :=
  λ this,
    match m this with
    | (Returns a, this') => k a this'
    | (Throws e, this') => (Throws e, this')
    end.

Definition try_catch {A} (body : M A) (handler : string → M A) : M A :=
  λ this,
    match body this with
    | (Returns a, this') => (Returns a, this')
    | (Throws e, this') => handler e this'
    end.

Definition read_isConnected : M bool := λ this, (Returns (isConnected this), this).

Definition command {A} (c : Redis → Completion A * Redis) : M A :=
  λ this,
    let '(r, redis') := c (client this) in
    (r, mkService (isConnected this) redis').

Definition pure_call {A} (c : Completion A) : M A := λ this, (c, this).

Notation "'let!' x ':=' m 'in' k" := (bind m (λ x, k))
  (at level 10, x name, m at level 100, k at level 200).

Definition get (key : string) : M (option (list Token)) :=
  try_catch
    (let! connected := read_isConnected in
     if negb connected then ret None
     else
       let! data := command (client_get key) in
       match truthy_string data with
       | None => ret None
       | Some text => pure_call (JSON_parse text)
       end)
    (λ error, ret None).

Definition set (key : string) (value : list Token) (ttl : option num) : M unit :=
  try_catch
    (let! connected := read_isConnected in
     if negb connected then ret tt
     else command (client_setex key (default default_ttl ttl) (JSON_stringify value)))
    (λ error, ret tt).

Definition delete (key : string) : M unit :=
  try_catch
    (let! connected := read_isConnected in
     if negb connected then ret tt
     else command (client_del key))
    (λ error, ret tt).

End Service.

End Cache.

(** ** Vocabulary of the statements about [mergeTokens] *)

(** The record is filed under identity key [K]. *)
Definition has_key (K : string) (t : Token) : Prop := merge_key (Some t) = Some K.

Global Instance has_key_dec K t : Decision (has_key K t).
Proof. unfold has_key. apply _. Defined.

(** The records of one source that are filed under [K], in order. *)
Definition records_with_key (K : string) (l : list (option Token)) : list Token :=
  filter (has_key K) (omap id l).

(** The identity keys of the records of a source, in order, records
    without one left out. *)
Definition input_keys (l : list (option Token)) : list string := omap merge_key l.

Definition output_keys (l : list Token) : list string :=
  omap (λ t, merge_key (Some t)) l.

(** How often a source name stands in a [sources] list. *)
Definition occurrences (name : string) (l : list string) : nat :=
  length (filter (λ x, x = name) l).

(** One more contribution of the secondary source to [sources], as
    [mergeTokens] records it. *)
Definition add_Jupiter (t : Token) : Token :=
  {| token_address := token_address t;
     token_name := token_name t;
     token_ticker := token_ticker t;
     price_sol := price_sol t;
     market_cap_sol := market_cap_sol t;
     volume_sol := volume_sol t;
     liquidity_sol := liquidity_sol t;
     transaction_count := transaction_count t;
     price_1hr_change := price_1hr_change t;
     price_24hr_change := price_24hr_change t;
     price_7d_change := price_7d_change t;
     protocol := protocol t;
     sources := Some (sources_or_empty t ++ ["Jupiter"]);
     last_updated := last_updated t |}.

(** What a second merge with the same secondary records does to a record
    of the first merge: one ['Jupiter'] for each secondary record filed
    under the record's key. *)
Definition remerged (jupiterTokens : list (option Token)) (t : Token) : Token :=
  match merge_key (Some t) with
  | Some K => Nat.iter (length (records_with_key K jupiterTokens)) add_Jupiter t
  | None => t
  end.

(** What the secondary record [j] makes of the entry under its key. *)
Definition jupiter_combine (entry : option Token) (j : Token) : option Token :=
  Some (match entry with Some existing => merge_existing existing j | None => j end).

(** Every value of the map is filed under its own identity key. *)
Definition keyed (m : TokenMap) : Prop := ∀ k v, (k, v) ∈ m → has_key k v.

(** [f] applied to the value under [k], where it stands. *)
Definition map_alter (f : Token → Token) (k : string) (m : TokenMap) : TokenMap :=
  (λ kv, if decide (kv.1 = k) then (kv.1, f kv.2) else kv) <$> m.

(** [a] is at least [b] in the order of [Math.max]. *)
Definition dominates (a b : num) : Prop := Math_max a b = a.

(** The two records agree on every field but [sources]. *)
Definition same_but_sources (a b : Token) : Prop :=
  token_address a = token_address b ∧
  token_name a = token_name b ∧
  token_ticker a = token_ticker b ∧
  price_sol a = price_sol b ∧
  market_cap_sol a = market_cap_sol b ∧
  volume_sol a = volume_sol b ∧
  liquidity_sol a = liquidity_sol b ∧
  transaction_count a = transaction_count b ∧
  price_1hr_change a = price_1hr_change b ∧
  price_24hr_change a = price_24hr_change b ∧
  price_7d_change a = price_7d_change b ∧
  protocol a = protocol b ∧
  last_updated a = last_updated b.

(** ** Vocabulary of the statements about [detectChanges] *)

(** The record has a baseline in [previousTokens] and its price moved by
    more than 5 % of it. *)
Definition price_flagged (previousTokens : gmap (option string) Token)
    (token : Token) : bool :=
  match previousTokens !! token_address token with
  | Some previous => gt (priceChangePercent token previous) (of_Z 5)
  | None => false
  end.

(** The record has a baseline in [previousTokens] and its volume rose by
    more than 50 % of it. *)
Definition volume_flagged (previousTokens : gmap (option string) Token)
    (token : Token) : bool :=
  match previousTokens !! token_address token with
  | Some previous => gt (volumeIncrease token previous) (of_Z 50)
  | None => false
  end.

(** The records of a list that carry address [k], in order. *)
Definition records_at (k : option string) (l : list Token) : list Token :=
  filter (λ t, token_address t = k) l.

(** The two records agree on every field but [sources] and [volume_sol]. *)
Definition same_but_sources_and_volume (a b : Token) : Prop :=
  token_address a = token_address b ∧
  token_name a = token_name b ∧
  token_ticker a = token_ticker b ∧
  price_sol a = price_sol b ∧
  market_cap_sol a = market_cap_sol b ∧
  liquidity_sol a = liquidity_sol b ∧
  transaction_count a = transaction_count b ∧
  price_1hr_change a = price_1hr_change b ∧
  price_24hr_change a = price_24hr_change b ∧
  price_7d_change a = price_7d_change b ∧
  protocol a = protocol b ∧
  last_updated a = last_updated b.

(** ** Vocabulary of the statements about the thresholds *)

(** The percentages in the words of the specification, every operation
    rounded as the engine rounds it: [|current - previous| / previous * 100]
    and [(current - previous) / previous * 100]. *)
Definition rounded_price_percent (current previous : Binary64.double)
  : Binary64.double :=
  Binary64.mul
    (Binary64.div (Binary64.abs (Binary64.sub current previous)) previous)
    (Binary64.of_Z 100).

Definition rounded_volume_percent (current previous : Binary64.double)
  : Binary64.double :=
  Binary64.mul (Binary64.div (Binary64.sub current previous) previous)
    (Binary64.of_Z 100).

(** The number a finite double stands for. *)
Definition exact_value (x : Binary64.double) : Q :=
  match x with
  | SpecFloat.S754_finite s m e =>
      inject_Z (if s then Z.neg m else Z.pos m) * Qpower 2 e
  | _ => 0
  end.

(** The sign bit; [NaN] has none. *)
Definition sign_bit (x : Binary64.double) : bool :=
  match x with
  | SpecFloat.S754_zero s | SpecFloat.S754_infinity s
  | SpecFloat.S754_finite s _ _ => s
  | SpecFloat.S754_nan => false
  end.

(** The value is a double: its mantissa and exponent are the ones of
    binary64. *)
Definition valid_double (x : Binary64.double) : Prop :=
  SpecFloat.valid_binary Binary64.prec Binary64.emax x = true.

(** Zero, below zero, or [NaN]. *)
Definition not_above_zero (x : Binary64.double) : Prop :=
  match x with
  | SpecFloat.S754_zero _ | SpecFloat.S754_nan => True
  | SpecFloat.S754_infinity s | SpecFloat.S754_finite s _ _ => s = true
  end.

(** [x === 0]: either zero. *)
Definition is_zero64 (x : Binary64.double) : bool :=
  match x with SpecFloat.S754_zero _ => true | _ => false end.

(** Truthiness of a double: the zeros and [NaN] are falsy. *)
Definition truthy64 (x : Binary64.double) : bool :=
  match x with
  | SpecFloat.S754_zero _ | SpecFloat.S754_nan => false
  | _ => true
  end.

(** The record has a baseline in [previousTokens] and passes the test of
    the code. *)
Definition price_flagged64 (previousTokens : gmap (option string) Binary64.Token)
    (token : Binary64.Token) : bool :=
  match previousTokens !! Binary64.token_address token with
  | Some previous =>
      Binary64.gt (Binary64.priceChangePercent token previous) (Binary64.of_Z 5)
  | None => false
  end.

Definition volume_flagged64 (previousTokens : gmap (option string) Binary64.Token)
    (token : Binary64.Token) : bool :=
  match previousTokens !! Binary64.token_address token with
  | Some previous =>
      Binary64.gt (Binary64.volumeIncrease token previous) (Binary64.of_Z 50)
  | None => false
  end.

(** A token at a price and a volume. *)
Definition sample_token64 (address : string) (price volume : Binary64.double)
  : Binary64.Token :=
  {| Binary64.token_address := Some address;
     Binary64.token_name := "Bonk";
     Binary64.token_ticker := "BONK";
     Binary64.price_sol := price;
     Binary64.market_cap_sol := Binary64.of_Z 10;
     Binary64.volume_sol := volume;
     Binary64.liquidity_sol := Binary64.of_Z 20;
     Binary64.transaction_count := Binary64.of_Z 30;
     Binary64.price_1hr_change := Binary64.of_Z 1;
     Binary64.price_24hr_change := None;
     Binary64.price_7d_change := None;
     Binary64.protocol := "DexScreener";
     Binary64.sources := Some ["DexScreener"];
     Binary64.last_updated := None |}.

(** The state after an update that saw the token at price [price] and
    volume [volume]. *)
Definition sample_previous64 (price volume : Binary64.double)
  : gmap (option string) Binary64.Token :=
  {[ Some "DezX" := sample_token64 "DezX" price volume ]}.

(** The doubles [0.9999999999999986] and [1.0499999999999985]. *)
Definition sample_below_one : Binary64.double :=
  Binary64.ratio 9999999999999986 10000000000000000.

Definition sample_five_percent_up : Binary64.double :=
  Binary64.ratio 10499999999999985 10000000000000000.

(** ** Sample records *)

Definition sample_token (address : option string) (price volume : Z)
    (source : string) : Token :=
  {| token_address := address;
     token_name := "Bonk";
     token_ticker := "BONK";
     price_sol := of_Z price;
     market_cap_sol := of_Z 10;
     volume_sol := of_Z volume;
     liquidity_sol := of_Z 20;
     transaction_count := of_Z 30;
     price_1hr_change := of_Z 1;
     price_24hr_change := None;
     price_7d_change := None;
     protocol := source;
     sources := Some [source];
     last_updated := None |}.

Definition sample_dex : list (option Token) :=
  [Some (sample_token (Some "DezX") 100 500 "DexScreener");
   Some (sample_token (Some "") 1 1 "DexScreener");
   Some (sample_token (Some "So11") 7 70 "DexScreener")].

Definition sample_jupiter : list (option Token) :=
  [None;
   Some (sample_token (Some "dEZx") 101 900 "Jupiter");
   Some (sample_token None 2 2 "Jupiter");
   Some (sample_token (Some "mSoL") 3 30 "Jupiter")].

(** A secondary source that holds the first key twice. *)
Definition sample_jupiter_twice : list (option Token) :=
  [Some (sample_token (Some "dEZx") 101 900 "Jupiter");
   Some (sample_token (Some "DEZX") 102 800 "Jupiter")].

(** The detector's state after a cycle that saw one record. *)
Definition sample_previous : gmap (option string) Token :=
  {[ Some "DezX" := sample_token (Some "DezX") 100 100 "DexScreener" ]}.

(** The state after a cycle that saw one record with nothing traded yet. *)
Definition sample_zero_previous : gmap (option string) Token :=
  {[ Some "DezX" := sample_token (Some "DezX") 0 0 "DexScreener" ]}.

(** A request that times out every time it is issued. *)
Definition always_timeout : nat → Settled (list Token) :=
  λ _, Rejected {| code := Some "ETIMEDOUT"; response_status := None |}.

(** ** Vocabulary of the statements about calls run together *)

(** What [retryWithBackoff] makes of the rest of the call when nothing
    else runs on the provider: how it settles, and how many more times it
    sleeps. *)
Definition outcome_ahead {R : Type} (call : Pool.Call R) : Settled R :=
  match Pool.stage call with
  | Pool.AwaitsRequest retries =>
      (retryWithBackoff (Pool.fn call) (Pool.issued call) retries (mkProvider 0 [])).1
  | Pool.AwaitsSleep retries =>
      (retryWithBackoff (Pool.fn call) (S (Pool.issued call)) (retries - 1)
         (mkProvider 0 [])).1
  | Pool.Settles outcome => outcome
  end.

Definition sleeps_ahead {R : Type} (call : Pool.Call R) : nat :=
  match Pool.stage call with
  | Pool.AwaitsRequest retries =>
      length (slept (retryWithBackoff (Pool.fn call) (Pool.issued call) retries
                       (mkProvider 0 [])).2)
  | Pool.AwaitsSleep retries =>
      length (slept (retryWithBackoff (Pool.fn call) (S (Pool.issued call))
                       (retries - 1) (mkProvider 0 [])).2)
  | Pool.Settles _ => 0%nat
  end.

(** The call is in an invocation that came by a retry only with retries
    left. *)
Definition well_staged {R : Type} (call : Pool.Call R) : Prop :=
  match Pool.stage call with
  | Pool.AwaitsSleep retries => (0 < retries)%nat
  | _ => True
  end.

(** How many more times the call has to be resumed before it has
    settled. *)
Definition resumes_ahead {R : Type} (call : Pool.Call R) : nat :=
  match Pool.stage call with
  | Pool.AwaitsRequest _ => (2 * sleeps_ahead call + 1)%nat
  | Pool.AwaitsSleep _ => (2 * sleeps_ahead call + 2)%nat
  | Pool.Settles _ => 0%nat
  end.

(** How often the schedule resumes the [i]-th call. *)
Definition resumed (i : nat) (schedule : list nat) : nat :=
  length (filter (λ j, j = i) schedule).

(** Every delay is one the backoff formula gives. *)
Definition backoff_delays (l : list Z) : Prop :=
  Forall (λ d, ∃ n, d = backoff_delay n) l.

(** The six searches of [fetchTokens], every request of which times out. *)
Definition sample_six_searches : Pool.Provider (list Token) :=
  Pool.mkProvider 0 (replicate 6 (Pool.started always_timeout)).

(** The six searches resumed in turn, seven times each: their requests
    fail one after the other, then their timers fire one after the other. *)
Definition sample_in_step : list nat :=
  concat (replicate 7 (seq 0 6)).


Definition sample_snapshot : list Token :=
  [sample_token (Some "DezX") 100 500 "DexScreener";
   sample_token (Some "So11") 7 900 "DexScreener";
   sample_token (Some "mSoL") 3 30 "Jupiter"].

(** A query for the page [limit=-1], nothing else set. *)
Definition sample_negative_limit : FilterOptions :=
  {| period := None; sortBy := None; limit := Some (of_Z (-1));
     cursor := None; skipCache := None |}.

(** A query with nothing set. *)
Definition sample_unset : FilterOptions :=
  {| period := None; sortBy := None; limit := None;
     cursor := None; skipCache := None |}.

(** A Redis connection every command of which fails. *)
Definition failing_get (key : string) (redis : gmap string string)
  : Cache.Completion (option string) * gmap string string :=
  (Cache.Throws "Connection is closed.", redis).

Definition failing_setex (key : string) (ttl : num) (text : string)
    (redis : gmap string string) : Cache.Completion unit * gmap string string :=
  (Cache.Throws "Connection is closed.", redis).

Definition failing_del (key : string) (redis : gmap string string)
  : Cache.Completion unit * gmap string string :=
  (Cache.Throws "Connection is closed.", redis).

(** * The rest of the pipeline *)

(** ** More of JavaScript *)

(** [a + b] on numbers. *)
Definition num_add (a b : num) : num :=
  match a, b with
  | NaN, _ | _, NaN => NaN
  | Fin x, Fin y => Fin (x + y)
  | PInf, NInf | NInf, PInf => NaN
  | PInf, _ | _, PInf => PInf
  | NInf, _ | _, NInf => NInf
  end.

(** [a || b] where [a] is a number that may be missing. *)
Definition num_or (a : option num) (b : num) : num :=
  match a with
  | Some n => if truthy n then n else b
  | None => b
  end.

(** [a || b] where [a] is a string that may be missing. *)
Definition string_or (a : option string) (b : string) : string :=
  default b (truthy_string a).

(** [a ? f(a) : 0] where [a] is a number that may be missing. *)
Definition num_if (a : option num) (f : num → num) : num :=
  match a with
  | Some n => if truthy n then f n else of_Z 0
  | None => of_Z 0
  end.

(** A [Map] with keys of any kind: insertion order, [set] on a key that
    is there replaces the value where it stands. *)
Section EntryMap.
Context {K V : Type} `{EqDecision K}.

Fixpoint entries_get (k : K) (m : list (K * V)) : option V :=
  match m with
  | [] => None
  | (k', v) :: m' => if decide (k = k') then Some v else entries_get k m'
  end.

Fixpoint entries_set (k : K) (v : V) (m : list (K * V)) : list (K * V) :=
  match m with
  | [] => [(k, v)]
  | (k', v') :: m' =>
      if decide (k = k') then (k, v) :: m' else (k', v') :: entries_set k v m'
  end.

(** [entries.forEach(([k, v]) => map.set(k, v))] *)
Definition entries_set_all (entries m : list (K * V)) : list (K * V) :=
  fold_left (λ m kv, entries_set kv.1 kv.2 m) entries m.

(** [new Map(entries)] *)
Definition Map_of (entries : list (K * V)) : list (K * V) :=
  entries_set_all entries [].
End EntryMap.

(** ** DexScreenerProvider: fetchTokens *)

Module DexScreener.

(** A pair of the search response, with what [transformToToken] reads of
    it; a field behind an optional chain ([pair.volume?.h24]) is [None]
    when a link of the chain is missing. *)
Record Pair : Type := mkPair {
  chainId : option string;
  dexId : option string;
  pairAddress : option string;
  baseToken_address : option string;
  baseToken_name : option string;
  baseToken_symbol : option string;
  priceNative : option string;
  marketCap : option num;
  volume_h24 : option num;
  liquidity_base : option num;
  liquidity_quote : option num;
  txns_h24_buys : option num;
  txns_h24_sells : option num;
  priceChange_h1 : option num;
  priceChange_h24 : option num
}.

(** [transformToToken(pair)]; [parseFloat] is the language's, [now] is
    what [Date.now()] reads. *)
Definition transformToToken (parseFloat : string → num) (now : num) (pair : Pair)
  : Token :=
  let totalTxns :=
    num_add (num_or (txns_h24_buys pair) (of_Z 0))
            (num_or (txns_h24_sells pair) (of_Z 0)) in
  {| token_address :=
       match truthy_string (baseToken_address pair) with
       | Some a => Some a
       | None => pairAddress pair
       end;
     token_name := string_or (baseToken_name pair) "Unknown";
     token_ticker := string_or (baseToken_symbol pair) "UNKNOWN";
     price_sol := parseFloat (string_or (priceNative pair) "0");
     market_cap_sol := num_if (marketCap pair) (λ m, div m (of_Z 1000000000));
     volume_sol := num_or (volume_h24 pair) (of_Z 0);
     liquidity_sol :=
       num_or (liquidity_base pair) (num_or (liquidity_quote pair) (of_Z 0));
     transaction_count := totalTxns;
     price_1hr_change := num_or (priceChange_h1 pair) (of_Z 0);
     price_24hr_change := Some (num_or (priceChange_h24 pair) (of_Z 0));
     price_7d_change := None;
     protocol := string_or (dexId pair) "DexScreener";
     sources := Some ["DexScreener"];
     last_updated := Some now |}.

Definition searches : list string :=
  ["BONK"; "PEPE"; "WIF"; "MYRO"; "POPCAT"; "BTC"].

(** The [then] handler of one search; the response is [response.data.pairs],
    [None] when there is none; [clock i] is the time at the [i]-th
    [transformToToken]. *)
Definition onResponse (parseFloat : string → num) (clock : nat → num)
    (pairs : option (list Pair)) : list Token :=
  match pairs with
  | Some l =>
      if (0 <? length l)%nat then
        imap (λ i pair, transformToToken parseFloat (clock i) pair)
             (take 5 (filter (λ pair, chainId pair = Some "solana") l))
      else []
  | None => []
  end.

(** [results.flat()], the [Map] by address and [slice(0, 30)]. *)
Definition uniqueTokens (results : list (list Token)) : list Token :=
  take 30 (Map_of ((λ t, (token_address t, t)) <$> concat results)).*2.

(** What [fetchTokens()] resolves to; [request term] is how the request
    for a search term settles each time it is issued.  The six searches
    run concurrently on one retry counter; what a search resolves to does
    not depend on the counter, so each is taken from the state [this]. *)
Definition fetchTokens (parseFloat : string → num) (clock : string → nat → num)
    (request : string → nat → Settled (option (list Pair))) (this : Provider)
  : list Token :=
  uniqueTokens
    ((λ searchTerm,
        (search (onResponse parseFloat (clock searchTerm)) (request searchTerm)
           this).1) <$> searches).

End DexScreener.

(** ** JupiterProvider *)

Module Jupiter.

Record JupiterToken : Type := mkJupiterToken {
  id : option string;
  address : option string;
  name : string;
  symbol : string;
  usdPrice : option num;
  mcap : option num;
  liquidity : option num;
  stats1h_priceChange : option num;
  stats24h_priceChange : option num;
  stats24h_buyVolume : option num;
  stats24h_sellVolume : option num;
  stats24h_numBuys : option num;
  stats24h_numSells : option num
}.

(** The constant 136.48 of the conversion to SOL. *)
Definition usd_per_sol : num := Fin (13648 # 100).

(** [a && b ? f(a, b) : 0] *)
Definition num_if_both (a b : option num) (f : num → num → num) : num :=
  match a, b with
  | Some x, Some y => if truthy x && truthy y then f x y else of_Z 0
  | _, _ => of_Z 0
  end.

Definition transformToToken (now : num) (jupToken : JupiterToken) : Token :=
  {| token_address :=
       match truthy_string (id jupToken) with
       | Some a => Some a
       | None => address jupToken
       end;
     token_name := name jupToken;
     token_ticker := symbol jupToken;
     price_sol := num_if (usdPrice jupToken) (λ p, div p usd_per_sol);
     market_cap_sol := num_if (mcap jupToken) (λ m, div m usd_per_sol);
     volume_sol :=
       num_if_both (stats24h_buyVolume jupToken) (stats24h_sellVolume jupToken)
         (λ buy sell, div (num_add buy sell) usd_per_sol);
     liquidity_sol := num_if (liquidity jupToken) (λ l, div l usd_per_sol);
     transaction_count :=
       num_if_both (stats24h_numBuys jupToken) (stats24h_numSells jupToken) num_add;
     price_1hr_change := num_or (stats1h_priceChange jupToken) (of_Z 0);
     price_24hr_change := Some (num_or (stats24h_priceChange jupToken) (of_Z 0));
     price_7d_change := None;
     protocol := "Jupiter";
     sources := Some ["Jupiter"];
     last_updated := Some now |}.

(** [fetchTokens()]; the response is [response.data] when it is an array,
    [None] otherwise. *)
Definition fetchTokens (clock : nat → num)
    (request : nat → Settled (option (list JupiterToken))) (this : Provider)
  : list Token * Provider :=
  match retryWithBackoff request 0 config.rateLimit.maxRetries this with
  | (Resolved data, this') =>
      (match data with
       | Some l => imap (λ i jupToken, transformToToken (clock i) jupToken) (take 20 l)
       | None => []
       end, this')
  | (Rejected _, this') => ([], this')
  end.

End Jupiter.

(** ** CoinGeckoProvider *)

Module CoinGecko.

Record TokenMapping : Type := mkTokenMapping {
  address : string;
  coingeckoId : string
}.

(** The mappings the provider starts with. *)
Definition tokenMappings : list TokenMapping :=
  [ mkTokenMapping "DezXAZ8z7PnrnRJjz3wXBoRgixCa6xjnB7YaB1pPB263" "bonk";
    mkTokenMapping "EPjFWdd5AufqSSqeM2qN1xzybapC8G4wEGGkZwyTDt1v" "usd-coin";
    mkTokenMapping "So11111111111111111111111111111111111111112" "solana";
    mkTokenMapping "mSoLzYCxHdYgdzU16g5QSh3i5K3z3KZK7ytfqcJm7So" "msol";
    mkTokenMapping "J1toso1uCk3RLmjorhTtrVwY9HJ7X8V9yYac6Y7kGCPn" "jito-staked-sol" ].

(** [this.tokenMappings.find(m => m.address.toLowerCase() ===
    tokenAddress.toLowerCase())] *)
Definition find_mapping (mappings : list TokenMapping) (tokenAddress : string)
  : option TokenMapping :=
  list_find (λ m, toLowerCase (address m) = toLowerCase tokenAddress) mappings
    ≫= λ found, Some found.2.

(** [addTokenMapping(address, coingeckoId)] *)
Definition addTokenMapping (mappings : list TokenMapping) (address coingeckoId : string)
  : list TokenMapping :=
  mappings ++ [mkTokenMapping address coingeckoId].

(** The change over a price series, [response.data.prices], as pairs of
    time and price. *)
Definition priceChange (prices : list (num * num)) : option num :=
  if (length prices <? 2)%nat then None
  else
    match head prices, last prices with
    | Some first, Some final =>
        Some (mul (div (sub final.2 first.2) first.2) (of_Z 100))
    | _, _ => None
    end.

(** [get7DayPriceChange(tokenAddress)]: [null] is [None]; [chart id] is how
    the request for the market chart of [id] settles, its response being
    [response.data.prices], [None] when missing.  An address that is
    missing makes [toLowerCase] throw inside the [try], which ends in
    [null] as well. *)
Definition get7DayPriceChange (mappings : list TokenMapping)
    (chart : string → Settled (option (list (num * num))))
    (tokenAddress : option string) : option num :=
  match tokenAddress with
  | Some a =>
      match find_mapping mappings a with
      | Some mapping =>
          match chart (coingeckoId mapping) with
          | Resolved (Some prices) => priceChange prices
          | Resolved None => None
          | Rejected _ => None
          end
      | None => None
      end
  | None => None
  end.

(** [{...token, price_7d_change: price7dChange !== null ? price7dChange
    : undefined}] *)
Definition with_7d_change (token : Token) (change : option num) : Token :=
  {| token_address := token_address token;
     token_name := token_name token;
     token_ticker := token_ticker token;
     price_sol := price_sol token;
     market_cap_sol := market_cap_sol token;
     volume_sol := volume_sol token;
     liquidity_sol := liquidity_sol token;
     transaction_count := transaction_count token;
     price_1hr_change := price_1hr_change token;
     price_24hr_change := price_24hr_change token;
     price_7d_change := change;
     protocol := protocol token;
     sources := sources token;
     last_updated := last_updated token |}.

(** [enrich7DayData(tokens)]; [chart i] answers the request made for the
    [i]-th token. *)
Definition enrich7DayData (mappings : list TokenMapping)
    (chart : nat → string → Settled (option (list (num * num))))
    (tokens : list Token) : list Token :=
  imap (λ i token,
          with_7d_change token
            (get7DayPriceChange mappings (chart i) (token_address token)))
       tokens.

End CoinGecko.

(** ** Aggregator.getCacheKey and getTokens *)

(** [`tokens:${options.period || 'all'}:${options.sortBy || 'default'}`] *)
Definition getCacheKey (options : FilterOptions) : string :=
  "tokens:" +:+ string_or (period options) "all" +:+ ":"
    +:+ string_or (sortBy options) "default".

Section GetTokens.
Context {Redis : Type}.
Variable client_get : string → Redis → Cache.Completion (option string) * Redis.
Variable client_setex :
  string → num → string → Redis → Cache.Completion unit * Redis.
Variable JSON_parse : string → Cache.Completion (option (list Token)).
Variable JSON_stringify : list Token → string.
(** What the two [fetchTokens()] resolve to, and the enrichment. *)
Variable dexTokens jupiterTokens : list Token.
Variable enrich7DayData : list Token → list Token.

(** The fetch, merge, enrich and cache write of a miss. *)
Definition fetch_live (cacheKey : string) (options : FilterOptions)
  : Cache.M (Redis := Redis) (list Token) :=
  let mergedTokens :=
    enrich7DayData (mergeTokens (Some <$> dexTokens) (Some <$> jupiterTokens)) in
  Cache.bind (Cache.set client_setex JSON_stringify cacheKey mergedTokens None)
    (λ _, Cache.ret (applyFiltersAndSort mergedTokens options)).

Definition getTokens (options : FilterOptions)
  : Cache.M (Redis := Redis) (list Token) :=
  let cacheKey := getCacheKey options in
  match skipCache options with
  | Some true => fetch_live cacheKey options
  | _ =>
      Cache.bind (Cache.get client_get JSON_parse cacheKey)
        (λ cached,
           match cached with
           | Some tokens => Cache.ret (applyFiltersAndSort tokens options)
           | None => fetch_live cacheKey options
           end)
  end.
End GetTokens.

(** ** routes/tokens: GET /tokens *)

Module Routes.

(** The query string of the request. *)
Record Query : Type := mkQuery {
  q_period : option string;
  q_sortBy : option string;
  q_limit : option string;
  q_cursor : option string
}.

(** [TokenResponse], or the answer of the [catch]. *)
Inductive Response : Type :=
  | Json (tokens : list Token) (total : num) (limit : num)
  | Status500.

(** The [options] the handler builds; [parseInt] is the language's. *)
Definition options_of (parseInt : string → num) (query : Query) : FilterOptions :=
  {| period := q_period query;
     sortBy := q_sortBy query;
     limit :=
       Some (match truthy_string (q_limit query) with
             | Some text => parseInt text
             | None => config.pagination.defaultLimit
             end);
     cursor := q_cursor query;
     skipCache := None |}.

(** The handler, over [aggregator.getTokens]. *)
Definition get_tokens {Redis : Type} (parseInt : string → num)
    (getTokens : FilterOptions → Cache.M (Redis := Redis) (list Token))
    (query : Query) (this : Cache.Service (Redis := Redis))
  : Response * Cache.Service (Redis := Redis) :=
  let options := options_of parseInt query in
  match getTokens options this with
  | (Cache.Returns tokens, this') =>
      (Json tokens (of_Z (Z.of_nat (length tokens))) (limit_or_default options),
       this')
  | (Cache.Throws _, this') => (Status500, this')
  end.

End Routes.

(** ** WebSocketService *)

Module WebSocket.

(** What [io.emit(event, update)] puts on the wire; [type] is missing in
    the update of [broadcastUpdate]. *)
Record Emitted : Type := mkEmitted {
  event : string;
  type : option string;
  tokens : list Token;
  timestamp : num
}.

Definition sendInitialData (now : num) (tokens : list Token) : list Emitted :=
  [mkEmitted "initial_data" (Some "initial_data") tokens now].

Definition sendPriceChanges (now : num) (tokens : list Token) : list Emitted :=
  if decide (length tokens = 0%nat) then []
  else [mkEmitted "price_change" (Some "price_change") tokens now].

Definition sendVolumeSpikes (now : num) (tokens : list Token) : list Emitted :=
  if decide (length tokens = 0%nat) then []
  else [mkEmitted "volume_spike" (Some "volume_spike") tokens now].

Definition broadcastUpdate (now : num) (tokens : list Token) : list Emitted :=
  [mkEmitted "tokens_update" None tokens now].

End WebSocket.

(** ** index.ts: the scheduled update and the initial load *)

Module Server.

(** The aggregator's state: its cache service and its [previousTokens]. *)
Record Aggregator {Redis : Type} : Type := mkAggregator {
  cache : Cache.Service (Redis := Redis);
  previousTokens : gmap (option string) Token
}.
Arguments Aggregator : clear implicits.
Arguments mkAggregator {Redis} _ _.

(** [{ limit: 30, skipCache: true }] *)
Definition update_options : FilterOptions :=
  {| period := None; sortBy := None; limit := Some (of_Z 30);
     cursor := None; skipCache := Some true |}.

(** [{ limit: 30 }] *)
Definition initial_options : FilterOptions :=
  {| period := None; sortBy := None; limit := Some (of_Z 30);
     cursor := None; skipCache := None |}.

(** The callback of [cron.schedule]: what it emits, in order, and the
    aggregator it leaves.  [now] is the clock as each send reads it, by
    event. *)
Definition scheduled_update {Redis : Type}
    (getTokens : FilterOptions → Cache.M (Redis := Redis) (list Token))
    (now : string → num) (aggregator : Aggregator Redis)
  : list WebSocket.Emitted * Aggregator Redis :=
  match getTokens update_options (cache aggregator) with
  | (Cache.Returns tokens, cache') =>
      let '(previous', changes) := detectChanges (previousTokens aggregator) tokens in
      ((if decide (0 < length (priceChanges changes))%nat
        then WebSocket.sendPriceChanges (now "price_change") (priceChanges changes)
        else [])
       ++ (if decide (0 < length (volumeSpikes changes))%nat
           then WebSocket.sendVolumeSpikes (now "volume_spike") (volumeSpikes changes)
           else [])
       ++ WebSocket.broadcastUpdate (now "tokens_update") tokens,
       mkAggregator cache' previous')
  | (Cache.Throws _, cache') => ([], mkAggregator cache' (previousTokens aggregator))
  end.

(** [loadInitialData] *)
Definition loadInitialData {Redis : Type}
    (getTokens : FilterOptions → Cache.M (Redis := Redis) (list Token))
    (now : num) (aggregator : Aggregator Redis)
  : list WebSocket.Emitted * Aggregator Redis :=
  match getTokens initial_options (cache aggregator) with
  | (Cache.Returns tokens, cache') =>
      (WebSocket.sendInitialData now tokens,
       mkAggregator cache' (previousTokens aggregator))
  | (Cache.Throws _, cache') => ([], mkAggregator cache' (previousTokens aggregator))
  end.

End Server.

(** ** The client: useWebSocket *)

Module Client.

(** The state of the hook that the handlers write. *)
Record State : Type := mkState {
  tokens : list Token;
  lastUpdate : num
}.

(** [new Map(prevTokens.map(t => [t.token_address, t]))], each token of the
    update [set] under its address, then [Array.from(updatedMap.values())].
    The keys are compared as they are, upper and lower case apart. *)
Definition updated (prevTokens update : list Token) : list Token :=
  (entries_set_all ((λ t, (token_address t, t)) <$> update)
     (Map_of ((λ t, (token_address t, t)) <$> prevTokens))).*2.

(** The handler that [socketInstance.on] registers for the event, run on
    what the server emitted. *)
Definition on (emitted : WebSocket.Emitted) (state : State) : State :=
  if decide (WebSocket.event emitted = "initial_data"
             ∨ WebSocket.event emitted = "tokens_update")
  then mkState (WebSocket.tokens emitted) (WebSocket.timestamp emitted)
  else if decide (WebSocket.event emitted = "price_change"
                  ∨ WebSocket.event emitted = "volume_spike")
  then mkState (updated (tokens state) (WebSocket.tokens emitted))
         (WebSocket.timestamp emitted)
  else state.

(** The events of one update, handled in the order they were emitted. *)
Definition receive (emitted : list WebSocket.Emitted) (state : State) : State :=
  fold_left (λ state e, on e state) emitted state.

End Client.


(** ** Vocabulary of the further statements *)

(** The delays a call adds to the log when it retries [k] times from
    counter [n]. *)
Definition backoff_run (n k : nat) : list Z :=
  (λ i, backoff_delay (n + i)) <$> seq 0 k.

(** The sum of a list of delays, in milliseconds. *)
Definition total_delay (l : list Z) : Z := foldr Z.add 0%Z l.

(** The records of a source that [mergeTokens] files, in order. *)
Definition valid_records (l : list (option Token)) : list Token :=
  omap (λ o, match merge_key o with Some _ => o | None => None end) l.

(** The field that the branch of [sortTokens] for [sortBy] compares. *)
Definition sort_key (sortBy : string) : Token → num :=
  match sort_branch sortBy with
  | CaseVolume | CaseDefault => volume_sol
  | CasePriceChange => price_1hr_change
  | CaseMarketCap => market_cap_sol
  end.

(** The list runs from large to small in [key]. *)
Definition descending (key : Token → num) (l : list Token) : Prop :=
  Sorted.StronglySorted (λ a b, le (key b) (key a) = true) l.

(** The number is finite. *)
Definition finite (a : num) : Prop := ∃ q, a = Fin q.

(** The records of a source that [mergeTokens] files, each with its key. *)
Definition keyed_entries (l : list (option Token)) : TokenMap :=
  omap (λ o, match o, merge_key o with
             | Some t, Some k => Some (k, t)
             | _, _ => None
             end) l.

(** A request that succeeds at once with the given payload. *)
Definition responds {R : Type} (payload : R) : nat → Settled R :=
  λ _, Resolved payload.

(** Pairs as a search may return them. *)
Definition sample_pair (chain address : string) (volume : Z) : DexScreener.Pair :=
  {| DexScreener.chainId := Some chain;
     DexScreener.dexId := Some "raydium";
     DexScreener.pairAddress := Some "pair";
     DexScreener.baseToken_address := Some address;
     DexScreener.baseToken_name := Some "Bonk";
     DexScreener.baseToken_symbol := Some "BONK";
     DexScreener.priceNative := Some "0.5";
     DexScreener.marketCap := None;
     DexScreener.volume_h24 := Some (of_Z volume);
     DexScreener.liquidity_base := None;
     DexScreener.liquidity_quote := None;
     DexScreener.txns_h24_buys := None;
     DexScreener.txns_h24_sells := None;
     DexScreener.priceChange_h1 := None;
     DexScreener.priceChange_h24 := None |}.

Definition sample_jupiter_token (address : string) : Jupiter.JupiterToken :=
  {| Jupiter.id := Some address;
     Jupiter.address := None;
     Jupiter.name := "Bonk";
     Jupiter.symbol := "BONK";
     Jupiter.usdPrice := Some (of_Z 2);
     Jupiter.mcap := None;
     Jupiter.liquidity := None;
     Jupiter.stats1h_priceChange := None;
     Jupiter.stats24h_priceChange := None;
     Jupiter.stats24h_buyVolume := Some (of_Z 10);
     Jupiter.stats24h_sellVolume := None;
     Jupiter.stats24h_numBuys := None;
     Jupiter.stats24h_numSells := None |}.

(** A request that is answered 404 every time it is issued. *)
Definition always_fails {R : Type} : nat → Settled R :=
  λ _, Rejected {| code := None; response_status := Some 404%Z |}.


(** No mapping is for this address, letter case aside. *)
Definition unmapped (mappings : list CoinGecko.TokenMapping) (a : string) : Prop :=
  ∀ m, m ∈ mappings → toLowerCase (CoinGecko.address m) ≠ toLowerCase a.

(** A market chart that rose from 2 to 3. *)
Definition sample_chart : nat → string → Settled (option (list (num * num))) :=
  λ _ _, Resolved (Some [(of_Z 1, of_Z 2); (of_Z 2, of_Z 5); (of_Z 3, of_Z 3)]).

(** The periods that [FilterOptions] declares, and none. *)
Definition declared_periods : list (option string) :=
  [None; Some "1h"; Some "24h"; Some "7d"].

(** The reply of Redis gives [getTokens] nothing to serve: the command
    failed, nothing or the empty text is stored, or the text does not
    parse to tokens. *)
Definition gives_nothing (JSON_parse : string → Cache.Completion (option (list Token)))
    (reply : Cache.Completion (option string)) : Prop :=
  match reply with
  | Cache.Throws _ => True
  | Cache.Returns data =>
      match truthy_string data with
      | None => True
      | Some text => ∀ tokens, JSON_parse text ≠ Cache.Returns (Some tokens)
      end
  end.

(** A Redis that keeps the last text written under each key and never
    fails (expiry apart). *)
Definition keeping_get (key : string) (redis : gmap string string)
  : Cache.Completion (option string) * gmap string string :=
  (Cache.Returns (redis !! key), redis).

Definition keeping_setex (key : string) (ttl : num) (text : string)
    (redis : gmap string string) : Cache.Completion unit * gmap string string :=
  (Cache.Returns tt, <[key := text]> redis).

(** A stand-in for [JSON.stringify] and [JSON.parse] on the empty list. *)
Definition sample_stringify (tokens : list Token) : string := "[]".

Definition sample_parse (text : string) : Cache.Completion (option (list Token)) :=
  if decide (text = "[]") then Cache.Returns (Some []) else Cache.Throws "SyntaxError".

(** A query that reads the cache, and one that does not. *)
Definition sample_cached_query : FilterOptions :=
  {| period := None; sortBy := None; limit := Some (of_Z 30);
     cursor := None; skipCache := None |}.

Definition sample_fresh_query : FilterOptions :=
  {| period := None; sortBy := None; limit := Some (of_Z 30);
     cursor := None; skipCache := Some true |}.


(** The two records are of one address, at one price and one volume. *)
Definition same_quote (a b : Token) : Prop :=
  token_address a = token_address b
  ∧ price_sol a = price_sol b
  ∧ volume_sol a = volume_sol b.

(** The record as a fetch at time [now] stamps it. *)
Definition stamped (now : num) (t : Token) : Token :=
  {| token_address := token_address t;
     token_name := token_name t;
     token_ticker := token_ticker t;
     price_sol := price_sol t;
     market_cap_sol := market_cap_sol t;
     volume_sol := volume_sol t;
     liquidity_sol := liquidity_sol t;
     transaction_count := transaction_count t;
     price_1hr_change := price_1hr_change t;
     price_24hr_change := price_24hr_change t;
     price_7d_change := price_7d_change t;
     protocol := protocol t;
     sources := sources t;
     last_updated := Some now |}.

(** The clock of a quiet second. *)
Definition sample_now : string → num := λ _, of_Z 1700000000000.

(** An aggregator on a cache that is up and empty, that has seen nothing. *)
Definition sample_aggregator : Server.Aggregator (gmap string string) :=
  Server.mkAggregator (Cache.mkService true ∅) ∅.

(** Two sources that agree on one address, written in two cases. *)
Definition sample_dex_tokens : list Token :=
  [sample_token (Some "So11") 7 70 "DexScreener";
   sample_token (Some "DezX") 8 90 "DexScreener"].

Definition sample_jupiter_tokens : list Token :=
  [sample_token (Some "SO11") 9 10 "Jupiter"].

(** [parseInt] on the one text ["200"]. *)
Definition sample_parseInt (text : string) : num :=
  if decide (text = "200") then of_Z 200 else NaN.

(** The request [GET /tokens?sortBy=liquidity]. *)
Definition sample_liquidity_request : Routes.Query :=
  {| Routes.q_period := None; Routes.q_sortBy := Some "liquidity";
     Routes.q_limit := None; Routes.q_cursor := None |}.

(** The request [GET /tokens?limit=200]. *)
Definition sample_request : Routes.Query :=
  {| Routes.q_period := None; Routes.q_sortBy := None;
     Routes.q_limit := Some "200"; Routes.q_cursor := None |}.

(** * Properties *)

(** ** Numbers *)

Lemma Qltb_lt a b : Qltb a b = true ↔ (a < b)%Q.
Proof.
  unfold Qltb. rewrite Qlt_alt. destruct (a ?= b)%Q; split; congruence.
Qed.

Lemma Qltb_ge a b : Qltb a b = false ↔ (b <= a)%Q.
Proof.
  rewrite <- not_true_iff_false, Qltb_lt. split; [apply Qnot_lt_le | apply Qle_not_lt].
Qed.

Lemma Qis_zero_eq a : Qis_zero a = true ↔ (a == 0)%Q.
Proof.
  unfold Qis_zero. rewrite Qeq_alt. destruct (a ?= 0)%Q; split; congruence.
Qed.

Lemma Qis_zero_neq a : Qis_zero a = false ↔ ¬ (a == 0)%Q.
Proof. rewrite <- not_true_iff_false, Qis_zero_eq. tauto. Qed.

Ltac qltb_cases :=
  repeat match goal with
    | H : context [Qltb ?a ?b] |- _ =>
        lazymatch type of H with
        | Qltb a b = _ => fail
        | _ => let E := fresh "E" in destruct (Qltb a b) eqn:E; simpl in H
        end
    | |- context [Qltb ?a ?b] =>
        let E := fresh "E" in destruct (Qltb a b) eqn:E; simpl
    end.

Ltac qltb_prop :=
  repeat match goal with
    | H : Qltb _ _ = true |- _ => apply Qltb_lt in H
    | H : Qltb _ _ = false |- _ => apply Qltb_ge in H
    end.

Ltac num_cases :=
  simpl; try reflexivity; try discriminate; intros; qltb_cases;
  try reflexivity; try discriminate; simplify_eq; try reflexivity;
  qltb_prop; try (exfalso; lra).

Lemma Math_max_dominates a b : dominates (Math_max a b) b.
Proof.
  unfold dominates.
  destruct a as [x| | |], b as [y| | |]; num_cases.
Qed.

Lemma Math_max_dominates_mono a b c : dominates a c → dominates (Math_max a b) c.
Proof.
  unfold dominates.
  destruct a as [x| | |], b as [y| | |], c as [z| | |]; num_cases.
Qed.

Lemma Math_max_finite x y :
  Math_max (Fin x) (Fin y) = Fin (if Qltb x y then y else x).
Proof. simpl. destruct (Qltb x y); reflexivity. Qed.

Lemma dominates_refl a : dominates a a.
Proof. unfold dominates. destruct a; num_cases. Qed.

(** ** The insertion-ordered map *)

Lemma map_get_set_eq k v m : map_get k (map_set k v m) = Some v.
Proof.
  induction m as [|[k' v'] m IH]; csimpl.
  - by rewrite decide_True.
  - destruct (decide (k = k')) as [->|Hne]; csimpl.
    + by rewrite decide_True.
    + by rewrite decide_False.
Qed.

Lemma map_get_set_ne k k' v m : k ≠ k' → map_get k' (map_set k v m) = map_get k' m.
Proof.
  intros Hne. induction m as [|[k0 v0] m IH]; csimpl.
  - by rewrite decide_False.
  - destruct (decide (k = k0)) as [->|Hne0]; csimpl.
    + by rewrite !decide_False.
    + by rewrite IH.
Qed.

Lemma map_get_None k m : map_get k m = None ↔ k ∉ m.*1.
Proof.
  induction m as [|[k' v'] m IH]; csimpl.
  - split; [intros _; apply not_elem_of_nil | done].
  - rewrite not_elem_of_cons. destruct (decide (k = k')) as [->|Hne].
    + split; [done | intros [? _]; done].
    + rewrite IH. tauto.
Qed.

Lemma map_get_elem_of k v m : map_get k m = Some v → (k, v) ∈ m.
Proof.
  induction m as [|[k' v'] m IH]; csimpl; [done|].
  destruct (decide (k = k')) as [->|]; intros H.
  - injection H as ->. apply elem_of_cons. by left.
  - apply elem_of_cons. right. by apply IH.
Qed.

Lemma elem_of_map_get k v m : NoDup m.*1 → (k, v) ∈ m → map_get k m = Some v.
Proof.
  induction m as [|[k' v'] m IH]; csimpl.
  - intros _ H. by apply elem_of_nil in H.
  - rewrite NoDup_cons. intros [Hk Hnd] [H|H]%elem_of_cons.
    + injection H as -> ->. by rewrite decide_True.
    + rewrite decide_False; [by apply IH|].
      intros ->. apply Hk. apply list_elem_of_fmap. by exists (k', v).
Qed.

Lemma map_set_fresh k v m : k ∉ m.*1 → map_set k v m = m ++ [(k, v)].
Proof.
  induction m as [|[k' v'] m IH]; csimpl; [done|].
  rewrite not_elem_of_cons. intros [Hne Hk].
  rewrite decide_False by done. by rewrite IH.
Qed.

Lemma map_set_alter f k e m :
  NoDup m.*1 → map_get k m = Some e → map_set k (f e) m = map_alter f k m.
Proof.
  unfold map_alter.
  induction m as [|[k' v'] m IH]; csimpl; [done|].
  rewrite NoDup_cons. intros [Hk Hnd].
  destruct (decide (k = k')) as [->|Hne]; intros H.
  - injection H as ->. rewrite decide_True by done. f_equal.
    clear IH. induction m as [|[k0 v0] m IH]; csimpl; [done|].
    csimpl in Hk. rewrite not_elem_of_cons in Hk. destruct Hk as [Hne Hk].
    rewrite decide_False by done. f_equal. apply IH; [done|].
    csimpl in Hnd. by apply NoDup_cons in Hnd as [_ ?].
  - rewrite decide_False by done. f_equal. by apply IH.
Qed.

Lemma map_set_keys_present k v m : k ∈ m.*1 → (map_set k v m).*1 = m.*1.
Proof.
  induction m as [|[k' v'] m IH]; csimpl.
  - intros H. by apply elem_of_nil in H.
  - destruct (decide (k = k')) as [->|Hne]; csimpl; [done|].
    intros [?|H]%elem_of_cons; [done|]. by rewrite IH.
Qed.

Lemma map_set_keys k v m :
  (map_set k v m).*1 = if decide (k ∈ m.*1) then m.*1 else m.*1 ++ [k].
Proof.
  destruct (decide (k ∈ m.*1)).
  - by apply map_set_keys_present.
  - rewrite map_set_fresh by done. by rewrite fmap_app.
Qed.

Lemma map_set_NoDup k v m : NoDup m.*1 → NoDup (map_set k v m).*1.
Proof.
  intros Hnd. rewrite map_set_keys. destruct (decide (k ∈ m.*1)); [done|].
  apply NoDup_app. split_and!; [done| |apply NoDup_singleton].
  intros x Hx ->%list_elem_of_singleton. done.
Qed.

Lemma map_set_elem_of k v m k' v' :
  (k', v') ∈ map_set k v m → (k' = k ∧ v' = v) ∨ (k', v') ∈ m.
Proof.
  induction m as [|[k0 v0] m IH]; csimpl.
  - intros H%list_elem_of_singleton. left. by injection H.
  - destruct (decide (k = k0)) as [->|Hne].
    + intros [H|H]%elem_of_cons; [left; by injection H|].
      right. apply elem_of_cons. by right.
    + intros [H|H]%elem_of_cons.
      * right. apply elem_of_cons. by left.
      * destruct (IH H) as [?|?]; [by left|]. right. apply elem_of_cons. by right.
Qed.

Lemma map_set_keyed k v m : has_key k v → keyed m → keyed (map_set k v m).
Proof.
  intros Hv Hm k' v' [[-> ->]|H]%map_set_elem_of; [done|]. by apply Hm.
Qed.

(** ** Reading [mergeTokens] key by key *)

Lemma merge_key_Some_inv o K : merge_key o = Some K → ∃ t, o = Some t ∧ has_key K t.
Proof.
  destruct o as [t|]; [|done]. intros H. by exists t.
Qed.

Lemma records_with_key_cons K o l :
  records_with_key K (o :: l) =
  match o with
  | Some t => if decide (has_key K t) then t :: records_with_key K l
              else records_with_key K l
  | None => records_with_key K l
  end.
Proof.
  unfold records_with_key. destruct o as [t|]; csimpl; [|done].
  by rewrite filter_cons.
Qed.

Lemma dex_step_get K m o :
  map_get K (dex_step m o) =
  match o with
  | Some t => if decide (has_key K t) then Some t else map_get K m
  | None => map_get K m
  end.
Proof.
  unfold dex_step. destruct o as [t|]; [|done].
  destruct (merge_key (Some t)) as [a|] eqn:E.
  - destruct (decide (has_key K t)) as [HK|HK]; unfold has_key in HK; rewrite E in HK.
    + injection HK as ->. apply map_get_set_eq.
    + apply map_get_set_ne. congruence.
  - rewrite decide_False; [done|]. unfold has_key. by rewrite E.
Qed.

Lemma jupiter_step_get K m o :
  map_get K (jupiter_step m o) =
  match o with
  | Some j => if decide (has_key K j) then jupiter_combine (map_get K m) j
              else map_get K m
  | None => map_get K m
  end.
Proof.
  unfold jupiter_step. destruct o as [j|]; [|done].
  destruct (merge_key (Some j)) as [a|] eqn:E.
  - destruct (decide (has_key K j)) as [HK|HK]; unfold has_key in HK; rewrite E in HK.
    + injection HK as ->. unfold jupiter_combine.
      destruct (map_get K m); apply map_get_set_eq.
    + destruct (map_get a m); apply map_get_set_ne; congruence.
  - rewrite decide_False; [done|]. unfold has_key. by rewrite E.
Qed.

Lemma merge_dex_get K dex m :
  map_get K (fold_left dex_step dex m) =
  match last (records_with_key K dex) with
  | Some p => Some p
  | None => map_get K m
  end.
Proof.
  revert m. induction dex as [|o dex IH]; intros m; [done|].
  simpl. rewrite IH, dex_step_get, records_with_key_cons.
  destruct o as [t|]; [|done].
  destruct (decide (has_key K t)); [|done].
  rewrite last_cons. by destruct (last (records_with_key K dex)).
Qed.

Lemma merge_jupiter_get K jup m :
  map_get K (fold_left jupiter_step jup m) =
  fold_left jupiter_combine (records_with_key K jup) (map_get K m).
Proof.
  revert m. induction jup as [|o jup IH]; intros m; [done|].
  simpl. rewrite IH, jupiter_step_get, records_with_key_cons.
  destruct o as [j|]; [|done].
  by destruct (decide (has_key K j)).
Qed.

(** The map that [mergeTokens] builds has one entry per key, and files
    every record under its own key. *)
Lemma dex_step_NoDup m o : NoDup m.*1 → NoDup (dex_step m o).*1.
Proof.
  unfold dex_step. destruct o as [t|]; [|done].
  destruct (merge_key (Some t)); [|done]. apply map_set_NoDup.
Qed.

Lemma merge_existing_key K e j : has_key K e → has_key K (merge_existing e j).
Proof. done. Qed.

Lemma add_Jupiter_key K t : has_key K t → has_key K (add_Jupiter t).
Proof. done. Qed.

Lemma jupiter_step_NoDup m o : NoDup m.*1 → NoDup (jupiter_step m o).*1.
Proof.
  unfold jupiter_step. destruct o as [j|]; [|done].
  destruct (merge_key (Some j)) as [a|]; [|done].
  destruct (map_get a m); apply map_set_NoDup.
Qed.

Lemma dex_step_keyed m o : keyed m → keyed (dex_step m o).
Proof.
  unfold dex_step. destruct o as [t|]; [|done].
  destruct (merge_key (Some t)) as [a|] eqn:E; [|done].
  by apply map_set_keyed.
Qed.

Lemma jupiter_step_keyed m o : keyed m → keyed (jupiter_step m o).
Proof.
  unfold jupiter_step. intros Hm. destruct o as [j|]; [|done].
  destruct (merge_key (Some j)) as [a|] eqn:E; [|done].
  destruct (map_get a m) as [e|] eqn:G.
  - apply map_set_keyed; [|done]. apply merge_existing_key.
    apply Hm. by apply map_get_elem_of.
  - by apply map_set_keyed.
Qed.

Lemma fold_left_preserves {A B} (P : A → Prop) (f : A → B → A) l a :
  (∀ a b, P a → P (f a b)) → P a → P (fold_left f l a).
Proof.
  intros Hf. revert a. induction l as [|b l IH]; intros a Ha; [done|].
  simpl. apply IH. by apply Hf.
Qed.

Lemma merge_map_NoDup dex jup : NoDup (merge_map dex jup).*1.
Proof.
  unfold merge_map.
  apply (fold_left_preserves (λ m : TokenMap, NoDup m.*1)); [apply jupiter_step_NoDup|].
  apply (fold_left_preserves (λ m : TokenMap, NoDup m.*1)); [apply dex_step_NoDup|].
  apply NoDup_nil_2.
Qed.

Lemma merge_map_keyed dex jup : keyed (merge_map dex jup).
Proof.
  unfold merge_map.
  apply (fold_left_preserves keyed); [apply jupiter_step_keyed|].
  apply (fold_left_preserves keyed); [apply dex_step_keyed|].
  intros k v H. by apply elem_of_nil in H.
Qed.

Lemma merge_map_get K dex jup :
  map_get K (merge_map dex jup) =
  fold_left jupiter_combine (records_with_key K jup) (last (records_with_key K dex)).
Proof.
  unfold merge_map. rewrite merge_jupiter_get, merge_dex_get. simpl.
  by destruct (last (records_with_key K dex)).
Qed.

Lemma has_key_functional K K' t : has_key K t → has_key K' t → K = K'.
Proof. unfold has_key. congruence. Qed.

Lemma keyed_cons k v m : keyed ((k, v) :: m) → has_key k v ∧ keyed m.
Proof.
  intros H. split.
  - apply H. apply elem_of_cons. by left.
  - intros k' v' Hin. apply H. apply elem_of_cons. by right.
Qed.

Lemma filter_has_key_values K m :
  NoDup m.*1 → keyed m →
  filter (has_key K) (map_values m) = option_list (map_get K m).
Proof.
  unfold map_values.
  induction m as [|[k v] m IH]; csimpl; [done|].
  rewrite NoDup_cons. intros [Hk Hnd] [Hv Hm]%keyed_cons.
  rewrite filter_cons. destruct (decide (K = k)) as [->|Hne].
  - rewrite decide_True by done. simpl. f_equal.
    rewrite IH by done. apply map_get_None in Hk. by rewrite Hk.
  - rewrite decide_False; [by apply IH|].
    intros HK. apply Hne. by eapply has_key_functional.
Qed.

Lemma output_keys_values m : keyed m → output_keys (map_values m) = m.*1.
Proof.
  unfold output_keys, map_values.
  induction m as [|[k v] m IH]; csimpl; [done|].
  intros [Hv Hm]%keyed_cons. unfold has_key in Hv. rewrite Hv. csimpl.
  by rewrite IH.
Qed.

Lemma input_keys_records K l : K ∈ input_keys l ↔ records_with_key K l ≠ [].
Proof.
  unfold input_keys. induction l as [|o l IH]; csimpl.
  - split; [by intros ?%elem_of_nil | done].
  - rewrite records_with_key_cons. destruct o as [t|]; csimpl; [|done].
    destruct (decide (has_key K t)) as [HK|HK]; unfold has_key in HK.
    + rewrite HK. csimpl. split; [done|]. intros _. apply elem_of_cons. by left.
    + destruct (merge_key (Some t)) as [a|]; csimpl; [|done].
      rewrite elem_of_cons, IH. split; [|tauto]. intros [->|?]; done.
Qed.

Lemma jupiter_combine_fold_None js o :
  fold_left jupiter_combine js o = None ↔ js = [] ∧ o = None.
Proof.
  revert o. induction js as [|j js IH]; intros o; simpl.
  - tauto.
  - rewrite IH. unfold jupiter_combine. split; [intros [_ ?]; done | intros [? _]; done].
Qed.

Lemma merge_map_keys K dex jup :
  K ∈ (merge_map dex jup).*1 ↔ K ∈ input_keys (dex ++ jup).
Proof.
  unfold input_keys. rewrite omap_app, elem_of_app.
  fold (input_keys dex) (input_keys jup). rewrite !input_keys_records.
  destruct (decide (K ∈ (merge_map dex jup).*1)) as [Hin|Hout].
  - split; [intros _|done].
    destruct (records_with_key K jup) eqn:Ej; [|by right]. left.
    intros Ed. assert (map_get K (merge_map dex jup) = None) as Hn.
    { by rewrite merge_map_get, Ej, Ed. }
    by apply map_get_None in Hn.
  - split; [done|]. intros H. exfalso.
    apply map_get_None in Hout. rewrite merge_map_get in Hout.
    apply jupiter_combine_fold_None in Hout as [Hj Hd].
    apply last_None in Hd. tauto.
Qed.

Lemma fold_left_filter_keys (step : TokenMap → option Token → TokenMap) l m :
  (∀ m o, merge_key o = None → step m o = m) →
  fold_left step (filter (λ o, is_Some (merge_key o)) l) m = fold_left step l m.
Proof.
  intros Hstep. revert m. induction l as [|o l IH]; intros m; [done|].
  rewrite filter_cons. destruct (decide (is_Some (merge_key o))) as [Hs|Hn]; simpl.
  - apply IH.
  - rewrite Hstep; [apply IH|]. by apply eq_None_not_Some.
Qed.

Lemma dex_step_no_key m o : merge_key o = None → dex_step m o = m.
Proof. intros H. unfold dex_step. destruct o as [t|]; [|done]. by rewrite H. Qed.

Lemma jupiter_step_no_key m o : merge_key o = None → jupiter_step m o = m.
Proof. intros H. unfold jupiter_step. destruct o as [t|]; [|done]. by rewrite H. Qed.

Lemma sources_merge_existing e j :
  sources_or_empty (merge_existing e j) = sources_or_empty e ++ ["Jupiter"].
Proof. reflexivity. Qed.

Lemma jupiter_combine_fold js p :
  fold_left jupiter_combine js (Some p) = Some (fold_left merge_existing js p).
Proof.
  revert p. induction js as [|j js IH]; intros p; [done|]. simpl. apply IH.
Qed.

(** What a run of secondary records leaves of the entry they meet. *)
Lemma merge_existing_fold js p :
  same_but_sources_and_volume (fold_left merge_existing js p) p
  ∧ volume_sol (fold_left merge_existing js p)
    = fold_left Math_max (volume_sol <$> js) (volume_sol p)
  ∧ sources_or_empty (fold_left merge_existing js p)
    = sources_or_empty p ++ replicate (length js) "Jupiter".
Proof.
  revert p. induction js as [|j js IH]; intros p.
  - simpl. rewrite app_nil_r. by repeat split.
  - simpl fold_left. destruct (IH (merge_existing p j)) as (Hsame & Hvol & Hsrc).
    split_and!.
    + unfold same_but_sources_and_volume in *. simpl in Hsame. exact Hsame.
    + rewrite Hvol. reflexivity.
    + rewrite Hsrc, sources_merge_existing, <- app_assoc. reflexivity.
Qed.

(** ** C1: the priority law *)

Lemma occurrences_replicate (name x : string) n :
  occurrences name (replicate n x) = if decide (name = x) then n else 0%nat.
Proof.
  unfold occurrences. induction n as [|n IH]; simpl.
  - by destruct (decide (name = x)).
  - rewrite filter_cons. destruct (decide (name = x)) as [->|Hne].
    + rewrite decide_True in * by done. simpl. by rewrite IH.
    + rewrite decide_False by (intros ?; by apply Hne). done.
Qed.

(** The claim fails where the secondary source holds a key more than
    once: ['Jupiter'] is appended for every one of its records. *)
Lemma merge_lists_Jupiter_per_record :
  ∃ r, filter (has_key "dezx") (mergeTokens sample_dex sample_jupiter_twice) = [r]
       ∧ sources r = Some ["DexScreener"; "Jupiter"; "Jupiter"]
       ∧ occurrences "Jupiter" (sources_or_empty r) = 2%nat.
Proof. eexists. split_and!; reflexivity. Qed.

(** C1, as the code has it.  When identity key [K] is held by both
    sources, [p] being the primary's (last) record under it, the merged
    list has exactly one record under [K]; its price, market cap,
    liquidity and change percentages (and every other field but volume and
    [sources]) are those of [p]; its volume is [Math.max] over [p]'s and
    those of the secondary's records under [K]; its [sources] are [p]'s
    followed by one ['Jupiter'] for each secondary record under [K]: every
    name stands in it as often as in [p]'s, and ['Jupiter'] once more for
    each of those records. *)
Theorem merge_priority_law dex jup K p :
  last (records_with_key K dex) = Some p →
  records_with_key K jup ≠ [] →
  ∃ r, filter (has_key K) (mergeTokens dex jup) = [r]
       ∧ price_sol r = price_sol p
       ∧ market_cap_sol r = market_cap_sol p
       ∧ liquidity_sol r = liquidity_sol p
       ∧ price_1hr_change r = price_1hr_change p
       ∧ price_24hr_change r = price_24hr_change p
       ∧ price_7d_change r = price_7d_change p
       ∧ same_but_sources_and_volume r p
       ∧ volume_sol r
         = fold_left Math_max (volume_sol <$> records_with_key K jup) (volume_sol p)
       ∧ sources r
         = Some (sources_or_empty p
                 ++ replicate (length (records_with_key K jup)) "Jupiter")
       ∧ ∀ name,
           occurrences name (sources_or_empty r)
           = (occurrences name (sources_or_empty p)
              + if decide (name = "Jupiter")
                then length (records_with_key K jup) else 0)%nat.
Proof.
  intros Hp Hjup. exists (fold_left merge_existing (records_with_key K jup) p).
  destruct (merge_existing_fold (records_with_key K jup) p) as (Hsame & Hvol & Hsrc).
  split_and!; try done; try apply Hsame.
  - unfold mergeTokens.
    rewrite filter_has_key_values by (apply merge_map_NoDup || apply merge_map_keyed).
    by rewrite merge_map_get, Hp, jupiter_combine_fold.
  - destruct (records_with_key K jup) as [|j js] eqn:E; [done|].
    rewrite <- Hsrc. clear. revert p j. induction js as [|j' js IH]; intros p j; [done|].
    apply (IH (merge_existing p j) j').
  - intros name. rewrite Hsrc. unfold occurrences.
    rewrite filter_app, length_app. f_equal. apply occurrences_replicate.
Qed.

Lemma merge_priority_law_witness :
  ∃ r, filter (has_key "dezx") (mergeTokens sample_dex sample_jupiter) = [r]
       ∧ price_sol r = of_Z 100
       ∧ volume_sol r = of_Z 900
       ∧ sources r = Some ["DexScreener"; "Jupiter"]
       ∧ occurrences "DexScreener" (sources_or_empty r) = 1%nat
       ∧ occurrences "Jupiter" (sources_or_empty r) = 1%nat.
Proof.
  destruct (merge_priority_law sample_dex sample_jupiter "dezx"
              (sample_token (Some "DezX") 100 500 "DexScreener"))
    as (r & Hr & Hprice & _ & _ & _ & _ & _ & _ & Hvolume & Hsources & Honce);
    [reflexivity | discriminate |].
  exists r. split_and!; [exact Hr | exact Hprice | exact Hvolume | exact Hsources
                         | exact (Honce "DexScreener") | exact (Honce "Jupiter")].
Defined.

(** ** C8: one record per identity key *)

(** C8.  The merged list has exactly one record for each identity key
    (lower-cased, non-empty address) that occurs in the two inputs and no
    other record: its keys are pairwise distinct, every record has one, and
    they are the keys of the inputs; inputs that all share one key give
    one record; and the inputs without an identity key change nothing. *)
Theorem merge_one_record_per_key dex jup :
  NoDup (output_keys (mergeTokens dex jup)) ∧
  length (output_keys (mergeTokens dex jup)) = length (mergeTokens dex jup) ∧
  (∀ K, K ∈ output_keys (mergeTokens dex jup) ↔ K ∈ input_keys (dex ++ jup)) ∧
  (∀ K, input_keys (dex ++ jup) ≠ [] →
        (∀ K', K' ∈ input_keys (dex ++ jup) → K' = K) →
        length (mergeTokens dex jup) = 1%nat) ∧
  mergeTokens dex jup =
    mergeTokens (filter (λ o, is_Some (merge_key o)) dex)
                (filter (λ o, is_Some (merge_key o)) jup).
Proof.
  pose proof (merge_map_NoDup dex jup) as Hnd.
  pose proof (merge_map_keyed dex jup) as Hk.
  assert (output_keys (mergeTokens dex jup) = (merge_map dex jup).*1) as Hkeys
    by by apply output_keys_values.
  assert (length (output_keys (mergeTokens dex jup)) = length (mergeTokens dex jup))
    as Hlen.
  { rewrite Hkeys. unfold mergeTokens, map_values. by rewrite !length_fmap. }
  split_and!; try done.
  - by rewrite Hkeys.
  - intros K. rewrite Hkeys. apply merge_map_keys.
  - intros K Hne Hall. rewrite <- Hlen, Hkeys.
    assert (∀ K', K' ∈ (merge_map dex jup).*1 → K' = K) as Hall'.
    { intros K' HK'. by apply Hall, merge_map_keys. }
    assert (K ∈ (merge_map dex jup).*1) as HK.
    { apply merge_map_keys. destruct (input_keys (dex ++ jup)) as [|K0 l] eqn:E; [done|].
      rewrite (Hall K0) at 1; apply elem_of_cons; by left. }
    destruct ((merge_map dex jup).*1) as [|k1 [|k2 l]]; [by apply elem_of_nil in HK|done|].
    exfalso. apply NoDup_cons in Hnd as [Hnd _]. apply Hnd.
    rewrite (Hall' k1), <- (Hall' k2); apply elem_of_cons; [by left| |by left].
    right. apply elem_of_cons. by left.
  - unfold mergeTokens, merge_map.
    rewrite (fold_left_filter_keys dex_step) by apply dex_step_no_key.
    by rewrite (fold_left_filter_keys jupiter_step) by apply jupiter_step_no_key.
Qed.

Lemma merge_one_record_per_key_witness :
  input_keys ([Some (sample_token (Some "DezX") 100 500 "DexScreener")]
              ++ [Some (sample_token (Some "dEZx") 101 900 "Jupiter"); None]) ≠ [] ∧
  length (mergeTokens [Some (sample_token (Some "DezX") 100 500 "DexScreener")]
            [Some (sample_token (Some "dEZx") 101 900 "Jupiter"); None]) = 1%nat.
Proof.
  split; [discriminate|].
  apply (proj1 (proj2 (proj2 (proj2 (merge_one_record_per_key
           [Some (sample_token (Some "DezX") 100 500 "DexScreener")]
           [Some (sample_token (Some "dEZx") 101 900 "Jupiter"); None])))) "dezx").
  - discriminate.
  - intros K' HK'. vm_compute in HK'.
    apply elem_of_cons in HK' as [->|HK']; [reflexivity|].
    apply elem_of_cons in HK' as [->|HK']; [reflexivity|].
    by apply elem_of_nil in HK'.
Defined.

(** ** C2: merging the secondary records a second time *)

Lemma iter_add_Jupiter_same n t : same_but_sources (Nat.iter n add_Jupiter t) t.
Proof.
  induction n as [|n IH]; [by repeat split|].
  simpl. unfold same_but_sources in *. simpl. exact IH.
Qed.

Lemma iter_add_Jupiter_sources n t :
  sources_or_empty (Nat.iter n add_Jupiter t)
  = sources_or_empty t ++ replicate n "Jupiter".
Proof.
  induction n as [|n IH]; simpl.
  - by rewrite app_nil_r.
  - change (sources_or_empty (add_Jupiter ?x)) with (sources_or_empty x ++ ["Jupiter"]).
    rewrite IH, <- app_assoc. f_equal.
    change ("Jupiter" :: replicate n "Jupiter") with (replicate (S n) "Jupiter").
    by rewrite replicate_S_end.
Qed.

Lemma merge_existing_dominated e j :
  dominates (volume_sol e) (volume_sol j) → merge_existing e j = add_Jupiter e.
Proof. unfold dominates, merge_existing, add_Jupiter. by intros ->. Qed.

Lemma jupiter_combine_dominates js o j :
  j ∈ js →
  ∃ e, fold_left jupiter_combine js o = Some e
       ∧ dominates (volume_sol e) (volume_sol j).
Proof.
  induction js as [|x js IH] using rev_ind; [by intros ?%elem_of_nil|].
  rewrite fold_left_app. simpl. unfold jupiter_combine at 1.
  intros [Hin| ->%list_elem_of_singleton]%elem_of_app; eexists; split; try done.
  - destruct (IH Hin) as (e & -> & He). simpl. by apply Math_max_dominates_mono.
  - destruct (fold_left jupiter_combine js o); simpl.
    + apply Math_max_dominates.
    + apply dominates_refl.
Qed.

Lemma merge_map_dominates dex jup K j :
  j ∈ records_with_key K jup →
  ∃ e, map_get K (merge_map dex jup) = Some e
       ∧ dominates (volume_sol e) (volume_sol j).
Proof. rewrite merge_map_get. apply jupiter_combine_dominates. Qed.

Lemma dex_rebuild m1 m2 :
  keyed m2 → NoDup (m1 ++ m2).*1 →
  fold_left dex_step (Some <$> map_values m2) m1 = m1 ++ m2.
Proof.
  unfold map_values. revert m1. induction m2 as [|[k v] m2 IH]; intros m1; csimpl.
  - by rewrite app_nil_r.
  - intros [Hv Hm2]%keyed_cons Hnd.
    unfold has_key in Hv. rewrite Hv.
    rewrite map_set_fresh.
    + rewrite IH; [by rewrite <- app_assoc|done|by rewrite <- app_assoc].
    + rewrite fmap_app in Hnd. apply NoDup_app in Hnd as (_ & Hdis & _).
      intros Hin. apply (Hdis k Hin). csimpl. apply elem_of_cons. by left.
Qed.

Lemma map_alter_keys f k m : (map_alter f k m).*1 = m.*1.
Proof.
  unfold map_alter. rewrite <- list_fmap_compose. apply list_fmap_ext.
  intros i [k' v'] _. simpl. by destruct (decide (k' = k)).
Qed.

Lemma map_alter_get f k K m :
  map_get K (map_alter f k m)
  = (if decide (K = k) then f else id) <$> map_get K m.
Proof.
  unfold map_alter. induction m as [|[k' v'] m IH]; csimpl; [done|].
  destruct (decide (k' = k)) as [->|Hne]; simpl.
  - destruct (decide (K = k)) as [->|HK]; [done|]. by rewrite IH.
  - destruct (decide (K = k')) as [->|HK]; [by rewrite decide_False|]. by rewrite IH.
Qed.

Lemma map_alter_keyed k m : keyed m → keyed (map_alter add_Jupiter k m).
Proof.
  unfold map_alter. intros Hm k' v' ([k0 v0] & Heq & Hin)%list_elem_of_fmap.
  simpl in Heq. apply Hm in Hin.
  destruct (decide (k0 = k)); injection Heq as -> ->; [by apply add_Jupiter_key|done].
Qed.

Lemma jupiter_again jup m :
  NoDup m.*1 → keyed m →
  (∀ K j, j ∈ records_with_key K jup →
          ∃ e, map_get K m = Some e ∧ dominates (volume_sol e) (volume_sol j)) →
  fold_left jupiter_step jup m
  = (λ kv, (kv.1, Nat.iter (length (records_with_key kv.1 jup)) add_Jupiter kv.2))
      <$> m.
Proof.
  revert m. induction jup as [|o jup IH]; intros m Hnd Hk Hdom.
  - simpl. rewrite <- (list_fmap_id m) at 1. apply list_fmap_ext. by intros i [k v] _.
  - simpl. destruct (merge_key o) as [K0|] eqn:E.
    + apply merge_key_Some_inv in E as (j & -> & Hj).
      destruct (Hdom K0 j) as (e & He & Hvol).
      { rewrite records_with_key_cons, decide_True by done. apply elem_of_cons. by left. }
      unfold jupiter_step at 2. unfold has_key in Hj. rewrite Hj, He.
      rewrite merge_existing_dominated, map_set_alter by done.
      rewrite IH.
      * unfold map_alter. rewrite <- list_fmap_compose. apply list_fmap_ext.
        intros i [k v] _. simpl. rewrite records_with_key_cons.
        destruct (decide (k = K0)) as [->|Hne]; simpl.
        -- rewrite decide_True by done. simpl. by rewrite Nat.iter_swap.
        -- rewrite decide_False; [done|]. unfold has_key. congruence.
      * by rewrite map_alter_keys.
      * by apply map_alter_keyed.
      * intros K j' Hin. destruct (Hdom K j') as (e' & He' & Hvol').
        { rewrite records_with_key_cons.
          destruct (decide (has_key K j)); [apply elem_of_cons; by right|done]. }
        rewrite map_alter_get, He'. simpl.
        destruct (decide (K = K0)); eexists; split; done.
    + rewrite jupiter_step_no_key by done. rewrite IH; try done.
      * apply list_fmap_ext. intros i [k v] _. simpl. rewrite records_with_key_cons.
        destruct o as [t|]; [|done]. rewrite decide_False; [done|].
        unfold has_key. congruence.
      * intros K j Hin. apply Hdom. rewrite records_with_key_cons.
        destruct o as [t|]; [|done]. rewrite decide_False; [done|].
        unfold has_key. congruence.
Qed.

Lemma merge_not_idempotent :
  mergeTokens (Some <$> mergeTokens sample_dex sample_jupiter) sample_jupiter
  ≠ mergeTokens sample_dex sample_jupiter.
Proof. vm_compute. discriminate. Qed.

(** C2, as the code has it.  Merging the result of a merge with the same
    secondary records again gives the same records in the same order, each
    with every field but [sources] unchanged; [sources] gains one
    ['Jupiter'] for each secondary record filed under the record's key. *)
Theorem merge_again_adds_Jupiter dex jup :
  mergeTokens (Some <$> mergeTokens dex jup) jup
  = remerged jup <$> mergeTokens dex jup
  ∧ ∀ t K, has_key K t →
      same_but_sources (remerged jup t) t
      ∧ sources_or_empty (remerged jup t)
        = sources_or_empty t ++ replicate (length (records_with_key K jup)) "Jupiter".
Proof.
  split.
  - pose proof (merge_map_NoDup dex jup) as Hnd.
    pose proof (merge_map_keyed dex jup) as Hk.
    unfold mergeTokens at 1 2. unfold merge_map at 1.
    fold (merge_map dex jup).
    rewrite (dex_rebuild [] (merge_map dex jup)) by done. simpl.
    rewrite jupiter_again; [|done|done|].
    + unfold mergeTokens, map_values. rewrite <- !list_fmap_compose.
      apply list_fmap_ext. intros i [k v] Hi. simpl.
      unfold remerged. rewrite (Hk k v); [done|]. by eapply list_elem_of_lookup_2.
    + intros K j. apply merge_map_dominates.
  - intros t K HK. unfold remerged. rewrite HK.
    split; [apply iter_add_Jupiter_same | apply iter_add_Jupiter_sources].
Qed.

Lemma merge_again_adds_Jupiter_witness :
  same_but_sources
    (remerged sample_jupiter (sample_token (Some "DezX") 100 500 "DexScreener"))
    (sample_token (Some "DezX") 100 500 "DexScreener")
  ∧ sources_or_empty
      (remerged sample_jupiter (sample_token (Some "DezX") 100 500 "DexScreener"))
    = sources_or_empty (sample_token (Some "DezX") 100 500 "DexScreener")
      ++ replicate (length (records_with_key "dezx" sample_jupiter)) "Jupiter".
Proof.
  apply (proj2 (merge_again_adds_Jupiter sample_dex sample_jupiter)
           (sample_token (Some "DezX") 100 500 "DexScreener") "dezx").
  reflexivity.
Defined.

(** ** Aggregator.detectChanges *)

Lemma filter_ext_elem {A} (P Q : A → Prop) `{!∀ x, Decision (P x)}
    `{!∀ x, Decision (Q x)} (l : list A) :
  (∀ x, x ∈ l → (P x ↔ Q x)) → filter P l = filter Q l.
Proof.
  induction l as [|x l IH]; intros Hall; [done|].
  rewrite !filter_cons.
  assert (P x ↔ Q x) as Hx by (apply Hall, elem_of_cons; by left).
  rewrite IH by (intros y Hy; apply Hall, elem_of_cons; by right).
  destruct (decide (P x)), (decide (Q x)); tauto || done.
Qed.

Lemma detect_step_eq prev out t :
  detect_step (prev, out) t =
  (<[token_address t := t]> prev,
   {| priceChanges :=
        if price_flagged prev t then priceChanges out ++ [t] else priceChanges out;
      volumeSpikes :=
        if volume_flagged prev t then volumeSpikes out ++ [t] else volumeSpikes out |}).
Proof.
  unfold detect_step, price_flagged, volume_flagged.
  destruct (prev !! token_address t); [done|]. by destruct out.
Qed.

(** The state after a call: every record of the call stored under its
    address, later records over earlier ones, the rest untouched. *)
Lemma detect_fold_state cur prev out k :
  (fold_left detect_step cur (prev, out)).1 !! k =
  match last (records_at k cur) with
  | Some t => Some t
  | None => prev !! k
  end.
Proof.
  unfold records_at. revert prev out. induction cur as [|t cur IH]; intros prev out; [done|].
  cbn [fold_left]. rewrite detect_step_eq, IH, filter_cons.
  destruct (decide (token_address t = k)) as [<-|Hne].
  - rewrite last_cons. destruct (last _); [done|]. by rewrite lookup_insert_eq.
  - destruct (last _); [done|]. by rewrite lookup_insert_ne.
Qed.

(** With one record per address in the call, the flagged records are the
    records of the call that pass the test against the state before it. *)
Lemma detect_fold_flags cur prev out :
  NoDup (token_address <$> cur) →
  priceChanges (fold_left detect_step cur (prev, out)).2
    = priceChanges out ++ filter (λ t, price_flagged prev t = true) cur
  ∧ volumeSpikes (fold_left detect_step cur (prev, out)).2
    = volumeSpikes out ++ filter (λ t, volume_flagged prev t = true) cur.
Proof.
  revert prev out. induction cur as [|t cur IH]; intros prev out Hnd.
  - simpl. by rewrite !app_nil_r.
  - csimpl in Hnd. apply NoDup_cons in Hnd as [Ht Hnd].
    cbn [fold_left]. rewrite detect_step_eq.
    destruct (IH (<[token_address t := t]> prev)
                {| priceChanges :=
                     if price_flagged prev t then priceChanges out ++ [t]
                     else priceChanges out;
                   volumeSpikes :=
                     if volume_flagged prev t then volumeSpikes out ++ [t]
                     else volumeSpikes out |} Hnd) as [IHp IHv].
    rewrite IHp, IHv. simpl. rewrite !filter_cons.
    assert (∀ x, x ∈ cur → token_address t ≠ token_address x) as Hfresh.
    { intros x Hx Heq. apply Ht. rewrite Heq. apply list_elem_of_fmap. by exists x. }
    rewrite (filter_ext_elem (λ x, price_flagged (<[token_address t:=t]> prev) x = true)
               (λ x, price_flagged prev x = true)).
    2:{ intros x Hx. unfold price_flagged. by rewrite lookup_insert_ne by by apply Hfresh. }
    rewrite (filter_ext_elem (λ x, volume_flagged (<[token_address t:=t]> prev) x = true)
               (λ x, volume_flagged prev x = true)).
    2:{ intros x Hx. unfold volume_flagged. by rewrite lookup_insert_ne by by apply Hfresh. }
    split.
    + destruct (price_flagged prev t); [rewrite decide_True by done|rewrite decide_False by done];
        by rewrite <- ?app_assoc.
    + destruct (volume_flagged prev t); [rewrite decide_True by done|rewrite decide_False by done];
        by rewrite <- ?app_assoc.
Qed.

Lemma detect_price_flagged prev cur t :
  NoDup (token_address <$> cur) →
  t ∈ priceChanges (detectChanges prev cur).2 ↔ t ∈ cur ∧ price_flagged prev t = true.
Proof.
  intros Hnd. unfold detectChanges.
  rewrite (proj1 (detect_fold_flags cur prev _ Hnd)). simpl.
  rewrite list_elem_of_filter. tauto.
Qed.

Lemma detect_volume_flagged prev cur t :
  NoDup (token_address <$> cur) →
  t ∈ volumeSpikes (detectChanges prev cur).2 ↔ t ∈ cur ∧ volume_flagged prev t = true.
Proof.
  intros Hnd. unfold detectChanges.
  rewrite (proj2 (detect_fold_flags cur prev _ Hnd)). simpl.
  rewrite list_elem_of_filter. tauto.
Qed.

Lemma mul_100 a :
  mul a (of_Z 100) = match a with Fin q => Fin (q * inject_Z 100) | _ => a end.
Proof. by destruct a. Qed.

(** ** The thresholds of [detectChanges], on doubles *)

Lemma detect64_step_eq prev out t :
  Binary64.detect_step (prev, out) t =
  (<[Binary64.token_address t := t]> prev,
   {| Binary64.priceChanges :=
        if price_flagged64 prev t then Binary64.priceChanges out ++ [t]
        else Binary64.priceChanges out;
      Binary64.volumeSpikes :=
        if volume_flagged64 prev t then Binary64.volumeSpikes out ++ [t]
        else Binary64.volumeSpikes out |}).
Proof.
  unfold Binary64.detect_step, price_flagged64, volume_flagged64.
  destruct (prev !! Binary64.token_address t); [done|]. by destruct out.
Qed.

(** With one record per address in the call, the flagged records are the
    records of the call that pass the test against the state before it. *)
Lemma detect64_fold_flags cur prev out :
  NoDup (Binary64.token_address <$> cur) →
  Binary64.priceChanges (fold_left Binary64.detect_step cur (prev, out)).2
    = Binary64.priceChanges out ++ filter (λ t, price_flagged64 prev t = true) cur
  ∧ Binary64.volumeSpikes (fold_left Binary64.detect_step cur (prev, out)).2
    = Binary64.volumeSpikes out ++ filter (λ t, volume_flagged64 prev t = true) cur.
Proof.
  revert prev out. induction cur as [|t cur IH]; intros prev out Hnd.
  - simpl. by rewrite !app_nil_r.
  - csimpl in Hnd. apply NoDup_cons in Hnd as [Ht Hnd].
    cbn [fold_left]. rewrite detect64_step_eq.
    destruct (IH (<[Binary64.token_address t := t]> prev)
                {| Binary64.priceChanges :=
                     if price_flagged64 prev t then Binary64.priceChanges out ++ [t]
                     else Binary64.priceChanges out;
                   Binary64.volumeSpikes :=
                     if volume_flagged64 prev t then Binary64.volumeSpikes out ++ [t]
                     else Binary64.volumeSpikes out |} Hnd) as [IHp IHv].
    rewrite IHp, IHv. simpl. rewrite !filter_cons.
    assert (∀ x, x ∈ cur → Binary64.token_address t ≠ Binary64.token_address x)
      as Hfresh.
    { intros x Hx Heq. apply Ht. rewrite Heq. apply list_elem_of_fmap. by exists x. }
    rewrite (filter_ext_elem
               (λ x, price_flagged64 (<[Binary64.token_address t:=t]> prev) x = true)
               (λ x, price_flagged64 prev x = true)).
    2:{ intros x Hx. unfold price_flagged64.
        by rewrite lookup_insert_ne by by apply Hfresh. }
    rewrite (filter_ext_elem
               (λ x, volume_flagged64 (<[Binary64.token_address t:=t]> prev) x = true)
               (λ x, volume_flagged64 prev x = true)).
    2:{ intros x Hx. unfold volume_flagged64.
        by rewrite lookup_insert_ne by by apply Hfresh. }
    split.
    + destruct (price_flagged64 prev t);
        [rewrite decide_True by done|rewrite decide_False by done];
        by rewrite <- ?app_assoc.
    + destruct (volume_flagged64 prev t);
        [rewrite decide_True by done|rewrite decide_False by done];
        by rewrite <- ?app_assoc.
Qed.

Lemma detect64_price_flagged prev cur t :
  NoDup (Binary64.token_address <$> cur) →
  t ∈ Binary64.priceChanges (Binary64.detectChanges prev cur).2
  ↔ t ∈ cur ∧ price_flagged64 prev t = true.
Proof.
  intros Hnd. unfold Binary64.detectChanges.
  rewrite (proj1 (detect64_fold_flags cur prev _ Hnd)). simpl.
  rewrite list_elem_of_filter. tauto.
Qed.

Lemma detect64_volume_flagged prev cur t :
  NoDup (Binary64.token_address <$> cur) →
  t ∈ Binary64.volumeSpikes (Binary64.detectChanges prev cur).2
  ↔ t ∈ cur ∧ volume_flagged64 prev t = true.
Proof.
  intros Hnd. unfold Binary64.detectChanges.
  rewrite (proj2 (detect64_fold_flags cur prev _ Hnd)). simpl.
  rewrite list_elem_of_filter. tauto.
Qed.

(** Rounding does not look at the sign. *)
Lemma abs_round_aux prec emax s m e l :
  SpecFloat.SFabs (SpecFloat.binary_round_aux prec emax s m e l)
  = SpecFloat.binary_round_aux prec emax false m e l.
Proof.
  unfold SpecFloat.binary_round_aux.
  destruct (SpecFloat.shr_fexp prec emax m e l) as [mrs' e'].
  destruct (SpecFloat.shr_fexp prec emax _ e' SpecFloat.loc_Exact) as [mrs'' e''].
  destruct (SpecFloat.shr_m mrs''); simpl; [done| |done].
  by destruct (e'' <=? emax - prec)%Z.
Qed.

Lemma abs_div d p :
  sign_bit p = false →
  Binary64.abs (Binary64.div d p) = Binary64.div (Binary64.abs d) p.
Proof.
  unfold Binary64.abs, Binary64.div.
  destruct d as [sd|sd| |sd md ed], p as [sp|sp| |sp mp ep]; simpl;
    intros Hsign; try subst sp; rewrite ?xorb_false_r; try done.
  destruct (SpecFloat.SFdiv_core_binary _ _ _ _ _ _) as [[mz ez] lz].
  apply abs_round_aux.
Qed.

Lemma abs_mul x h :
  sign_bit h = false →
  Binary64.abs (Binary64.mul x h) = Binary64.mul (Binary64.abs x) h.
Proof.
  unfold Binary64.abs, Binary64.mul.
  destruct x as [sx|sx| |sx mx ex], h as [sh|sh| |sh mh eh]; simpl;
    intros Hsign; try subst sh; rewrite ?xorb_false_r; try done.
  apply abs_round_aux.
Qed.

Lemma above_zero_sign p :
  Binary64.gt p (Binary64.of_Z 0) = true → sign_bit p = false.
Proof. by destruct p as [[]|[]| |[] m e]. Qed.

(** Over a baseline above zero the two ways of taking the absolute value
    give the same double. *)
Lemma price_percent_as_specified (t p : Binary64.Token) :
  Binary64.gt (Binary64.price_sol p) (Binary64.of_Z 0) = true →
  Binary64.priceChangePercent t p
  = rounded_price_percent (Binary64.price_sol t) (Binary64.price_sol p).
Proof.
  intros Hp%above_zero_sign. unfold Binary64.priceChangePercent, rounded_price_percent.
  by rewrite abs_mul, abs_div.
Qed.

Lemma zero_baseline_price64 c p :
  is_zero64 p = true →
  Binary64.gt
    (Binary64.abs (Binary64.mul (Binary64.div (Binary64.sub c p) p) (Binary64.of_Z 100)))
    (Binary64.of_Z 5)
  = truthy64 c.
Proof.
  destruct p as [sp|sp| |sp mp ep]; try discriminate. intros _.
  by destruct c as [[]|[]| |[] m e], sp.
Qed.

Lemma zero_baseline_volume64 c sp :
  Binary64.gt
    (Binary64.mul (Binary64.div (Binary64.sub c (SpecFloat.S754_zero sp))
                     (SpecFloat.S754_zero sp))
       (Binary64.of_Z 100))
    (Binary64.of_Z 50)
  = if sp then Binary64.gt (Binary64.of_Z 0) c else Binary64.gt c (Binary64.of_Z 0).
Proof. by destruct c as [[]|[]| |[] m e], sp. Qed.

(** ** C3: the thresholds are strict *)

(** Within a rounding error of the threshold the test is made on the
    rounded percentage: from 0.9999999999999986 to 1.0499999999999985 the
    price rises by more than 5 % of the baseline, the code computes exactly
    5, and the record is not flagged. *)
Lemma threshold_is_on_the_rounded_percentage :
  (5 < Qabs (exact_value sample_five_percent_up - exact_value sample_below_one)
       / exact_value sample_below_one * 100)%Q
  ∧ Binary64.priceChangePercent
      (sample_token64 "DezX" sample_five_percent_up (Binary64.of_Z 100))
      (sample_token64 "DezX" sample_below_one (Binary64.of_Z 100))
    = Binary64.of_Z 5
  ∧ Binary64.detectChanges (sample_previous64 sample_below_one (Binary64.of_Z 100))
      [sample_token64 "DezX" sample_five_percent_up (Binary64.of_Z 100)]
    = (<[Some "DezX" := sample_token64 "DezX" sample_five_percent_up (Binary64.of_Z 100)]>
         (sample_previous64 sample_below_one (Binary64.of_Z 100)),
       {| Binary64.priceChanges := []; Binary64.volumeSpikes := [] |}).
Proof. split_and!; [by vm_compute|by vm_compute|reflexivity]. Qed.

(** C3, as the code has it.  In a snapshot (one record per address), a
    record with a baseline in the previous state is flagged as a price
    delta exactly when the percentage that the code computes, each of the
    subtraction, the division and the multiplication rounded to the
    nearest double, is strictly above 5, and as a volume spike exactly
    when [(current - previous) / previous * 100], rounded likewise, is
    strictly above 50; over a baseline price above zero the percentage of
    the code is [|current - previous| / previous * 100], rounded likewise;
    a percentage that comes out as exactly 5, or 50, is not flagged; a
    record without a baseline in the previous state is flagged as
    neither. *)
Theorem detect_thresholds_strict prev cur t :
  NoDup (Binary64.token_address <$> cur) →
  t ∈ cur →
  (∀ p, prev !! Binary64.token_address t = Some p →
     (t ∈ Binary64.priceChanges (Binary64.detectChanges prev cur).2
      ↔ Binary64.gt (Binary64.priceChangePercent t p) (Binary64.of_Z 5) = true)
     ∧ (Binary64.gt (Binary64.price_sol p) (Binary64.of_Z 0) = true →
        (t ∈ Binary64.priceChanges (Binary64.detectChanges prev cur).2
         ↔ Binary64.gt
             (rounded_price_percent (Binary64.price_sol t) (Binary64.price_sol p))
             (Binary64.of_Z 5) = true)
        ∧ (rounded_price_percent (Binary64.price_sol t) (Binary64.price_sol p)
           = Binary64.of_Z 5 →
           t ∉ Binary64.priceChanges (Binary64.detectChanges prev cur).2))
     ∧ (t ∈ Binary64.volumeSpikes (Binary64.detectChanges prev cur).2
        ↔ Binary64.gt
            (rounded_volume_percent (Binary64.volume_sol t) (Binary64.volume_sol p))
            (Binary64.of_Z 50) = true)
     ∧ (rounded_volume_percent (Binary64.volume_sol t) (Binary64.volume_sol p)
        = Binary64.of_Z 50 →
        t ∉ Binary64.volumeSpikes (Binary64.detectChanges prev cur).2))
  ∧ (prev !! Binary64.token_address t = None →
       (t ∉ Binary64.priceChanges (Binary64.detectChanges prev cur).2)
       ∧ (t ∉ Binary64.volumeSpikes (Binary64.detectChanges prev cur).2)).
Proof.
  intros Hnd Hin. split.
  - intros p Hp.
    assert (t ∈ Binary64.priceChanges (Binary64.detectChanges prev cur).2
            ↔ Binary64.gt (Binary64.priceChangePercent t p) (Binary64.of_Z 5) = true)
      as Hprice.
    { rewrite detect64_price_flagged by done. unfold price_flagged64. rewrite Hp. tauto. }
    assert (t ∈ Binary64.volumeSpikes (Binary64.detectChanges prev cur).2
            ↔ Binary64.gt
                (rounded_volume_percent (Binary64.volume_sol t) (Binary64.volume_sol p))
                (Binary64.of_Z 50) = true) as Hvolume.
    { rewrite detect64_volume_flagged by done. unfold volume_flagged64. rewrite Hp.
      unfold Binary64.volumeIncrease, rounded_volume_percent. tauto. }
    split_and!; [exact Hprice| |exact Hvolume|].
    + intros Hpos. rewrite Hprice, price_percent_as_specified by done.
      split; [done|]. by intros ->.
    + rewrite Hvolume. by intros ->.
  - intros Hp. rewrite detect64_price_flagged, detect64_volume_flagged by done.
    unfold price_flagged64, volume_flagged64. rewrite Hp.
    split; intros [_ ?]; done.
Qed.

Lemma detect_thresholds_strict_witness :
  (sample_token64 "DezX" (Binary64.of_Z 105) (Binary64.of_Z 150)
     ∈ Binary64.priceChanges
         (Binary64.detectChanges
            (sample_previous64 (Binary64.of_Z 100) (Binary64.of_Z 100))
            [sample_token64 "DezX" (Binary64.of_Z 105) (Binary64.of_Z 150)]).2
   ↔ Binary64.gt (rounded_price_percent (Binary64.of_Z 105) (Binary64.of_Z 100))
       (Binary64.of_Z 5) = true)
  ∧ (sample_token64 "DezX" (Binary64.of_Z 105) (Binary64.of_Z 150)
       ∉ Binary64.priceChanges
           (Binary64.detectChanges
              (sample_previous64 (Binary64.of_Z 100) (Binary64.of_Z 100))
              [sample_token64 "DezX" (Binary64.of_Z 105) (Binary64.of_Z 150)]).2)
  ∧ (sample_token64 "DezX" (Binary64.of_Z 105) (Binary64.of_Z 150)
       ∉ Binary64.volumeSpikes
           (Binary64.detectChanges
              (sample_previous64 (Binary64.of_Z 100) (Binary64.of_Z 100))
              [sample_token64 "DezX" (Binary64.of_Z 105) (Binary64.of_Z 150)]).2).
Proof.
  destruct (detect_thresholds_strict
              (sample_previous64 (Binary64.of_Z 100) (Binary64.of_Z 100))
              [sample_token64 "DezX" (Binary64.of_Z 105) (Binary64.of_Z 150)]
              (sample_token64 "DezX" (Binary64.of_Z 105) (Binary64.of_Z 150))
              (NoDup_singleton _)
              (proj2 (list_elem_of_singleton _ _) eq_refl))
    as [Hbaseline _].
  destruct (Hbaseline (sample_token64 "DezX" (Binary64.of_Z 100) (Binary64.of_Z 100))
              eq_refl) as (_ & Hprice & _ & Hvolume).
  destruct (Hprice eq_refl) as [Hiff Hexactly].
  split_and!; [exact Hiff | apply Hexactly; reflexivity | apply Hvolume; reflexivity].
Defined.

(** The boundary: 105 from 100 and 150 from 100 are not flagged, 105.01
    and 150.01 are. *)
Lemma detect_at_the_boundary :
  Binary64.detectChanges (sample_previous64 (Binary64.of_Z 100) (Binary64.of_Z 100))
    [sample_token64 "DezX" (Binary64.of_Z 105) (Binary64.of_Z 150)]
  = (<[Some "DezX" := sample_token64 "DezX" (Binary64.of_Z 105) (Binary64.of_Z 150)]>
       (sample_previous64 (Binary64.of_Z 100) (Binary64.of_Z 100)),
     {| Binary64.priceChanges := []; Binary64.volumeSpikes := [] |}).
Proof. reflexivity. Qed.

Lemma detect_above_the_boundary :
  Binary64.detectChanges (sample_previous64 (Binary64.of_Z 100) (Binary64.of_Z 100))
    [sample_token64 "DezX" (Binary64.ratio 10501 100) (Binary64.ratio 15001 100)]
  = (<[Some "DezX" := sample_token64 "DezX" (Binary64.ratio 10501 100)
                        (Binary64.ratio 15001 100)]>
       (sample_previous64 (Binary64.of_Z 100) (Binary64.of_Z 100)),
     {| Binary64.priceChanges :=
          [sample_token64 "DezX" (Binary64.ratio 10501 100) (Binary64.ratio 15001 100)];
        Binary64.volumeSpikes :=
          [sample_token64 "DezX" (Binary64.ratio 10501 100)
             (Binary64.ratio 15001 100)] |}).
Proof. reflexivity. Qed.

(** ** C4: a baseline of zero *)

Lemma zero_baseline_flagged :
  sample_token (Some "DezX") 1 1 "DexScreener"
    ∈ priceChanges
        (detectChanges sample_zero_previous
           [sample_token (Some "DezX") 1 1 "DexScreener"]).2
  ∧ sample_token (Some "DezX") 1 1 "DexScreener"
      ∈ volumeSpikes
          (detectChanges sample_zero_previous
             [sample_token (Some "DezX") 1 1 "DexScreener"]).2.
Proof. split; vm_compute; apply list_elem_of_singleton; reflexivity. Qed.

(** The same on doubles, over either zero: a price of 1 over a baseline of
    zero is a price delta; a volume of 1 is a spike over a baseline of
    [+0] and none over [-0]. *)
Lemma zero_baseline_flagged_on_doubles :
  Binary64.detectChanges
    (sample_previous64 (SpecFloat.S754_zero false) (SpecFloat.S754_zero false))
    [sample_token64 "DezX" (Binary64.of_Z 1) (Binary64.of_Z 1)]
  = (<[Some "DezX" := sample_token64 "DezX" (Binary64.of_Z 1) (Binary64.of_Z 1)]>
       (sample_previous64 (SpecFloat.S754_zero false) (SpecFloat.S754_zero false)),
     {| Binary64.priceChanges :=
          [sample_token64 "DezX" (Binary64.of_Z 1) (Binary64.of_Z 1)];
        Binary64.volumeSpikes :=
          [sample_token64 "DezX" (Binary64.of_Z 1) (Binary64.of_Z 1)] |})
  ∧ Binary64.detectChanges
      (sample_previous64 (SpecFloat.S754_zero true) (SpecFloat.S754_zero true))
      [sample_token64 "DezX" (Binary64.of_Z 1) (Binary64.of_Z 1)]
    = (<[Some "DezX" := sample_token64 "DezX" (Binary64.of_Z 1) (Binary64.of_Z 1)]>
         (sample_previous64 (SpecFloat.S754_zero true) (SpecFloat.S754_zero true)),
       {| Binary64.priceChanges :=
            [sample_token64 "DezX" (Binary64.of_Z 1) (Binary64.of_Z 1)];
          Binary64.volumeSpikes := [] |}).
Proof. split; reflexivity. Qed.

(** C4, as the code has it.  A baseline of zero raises nothing (division
    by zero yields an infinity or [NaN]), and the change from it counts as
    unbounded: in a call that holds one record per address, a record whose
    baseline price is zero, of either sign, is flagged as a price delta
    exactly when its own price is neither zero nor [NaN]; a record whose
    baseline volume is [+0] is flagged as a volume spike exactly when its
    own volume is above zero, and one whose baseline volume is [-0]
    exactly when its own volume is below zero. *)
Theorem detect_zero_baseline prev cur t p :
  NoDup (Binary64.token_address <$> cur) →
  t ∈ cur →
  prev !! Binary64.token_address t = Some p →
  (is_zero64 (Binary64.price_sol p) = true →
     (t ∈ Binary64.priceChanges (Binary64.detectChanges prev cur).2
      ↔ truthy64 (Binary64.price_sol t) = true))
  ∧ (Binary64.volume_sol p = SpecFloat.S754_zero false →
       (t ∈ Binary64.volumeSpikes (Binary64.detectChanges prev cur).2
        ↔ Binary64.gt (Binary64.volume_sol t) (Binary64.of_Z 0) = true))
  ∧ (Binary64.volume_sol p = SpecFloat.S754_zero true →
       (t ∈ Binary64.volumeSpikes (Binary64.detectChanges prev cur).2
        ↔ Binary64.gt (Binary64.of_Z 0) (Binary64.volume_sol t) = true)).
Proof.
  intros Hnd Hin Hp. split_and!.
  - intros Hz. rewrite detect64_price_flagged by done.
    unfold price_flagged64, Binary64.priceChangePercent. rewrite Hp.
    rewrite zero_baseline_price64 by done. tauto.
  - intros Hz. rewrite detect64_volume_flagged by done.
    unfold volume_flagged64, Binary64.volumeIncrease. rewrite Hp, Hz.
    rewrite zero_baseline_volume64. tauto.
  - intros Hz. rewrite detect64_volume_flagged by done.
    unfold volume_flagged64, Binary64.volumeIncrease. rewrite Hp, Hz.
    rewrite zero_baseline_volume64. tauto.
Qed.

Lemma detect_zero_baseline_witness :
  (sample_token64 "DezX" (Binary64.of_Z 1) (Binary64.of_Z 1)
     ∈ Binary64.priceChanges
         (Binary64.detectChanges
            (sample_previous64 (SpecFloat.S754_zero true) (SpecFloat.S754_zero true))
            [sample_token64 "DezX" (Binary64.of_Z 1) (Binary64.of_Z 1)]).2
   ↔ truthy64 (Binary64.of_Z 1) = true)
  ∧ (sample_token64 "DezX" (Binary64.of_Z 1) (Binary64.of_Z 1)
       ∈ Binary64.volumeSpikes
           (Binary64.detectChanges
              (sample_previous64 (SpecFloat.S754_zero true) (SpecFloat.S754_zero true))
              [sample_token64 "DezX" (Binary64.of_Z 1) (Binary64.of_Z 1)]).2
     ↔ Binary64.gt (Binary64.of_Z 0) (Binary64.of_Z 1) = true).
Proof.
  destruct (detect_zero_baseline
              (sample_previous64 (SpecFloat.S754_zero true) (SpecFloat.S754_zero true))
              [sample_token64 "DezX" (Binary64.of_Z 1) (Binary64.of_Z 1)]
              (sample_token64 "DezX" (Binary64.of_Z 1) (Binary64.of_Z 1))
              (sample_token64 "DezX" (SpecFloat.S754_zero true) (SpecFloat.S754_zero true))
              (NoDup_singleton _)
              (proj2 (list_elem_of_singleton _ _) eq_refl)
              eq_refl) as (Hprice & _ & Hvolume).
  split; [apply Hprice | apply Hvolume]; reflexivity.
Defined.

(** ** C5: what the detector retains *)

Lemma detect_keeps_stale_records :
  (detectChanges
     (detectChanges ∅ [sample_token (Some "DezX") 100 100 "DexScreener"]).1
     [sample_token (Some "So11") 7 70 "DexScreener"]).1 !! Some "DezX"
  = Some (sample_token (Some "DezX") 100 100 "DexScreener")
  ∧ Some "DezX" ∉ token_address <$> [sample_token (Some "So11") 7 70 "DexScreener"].
Proof.
  split; [reflexivity|].
  intros H. apply list_elem_of_singleton in H. discriminate H.
Qed.

(** C5, as the code has it.  After [detectChanges(current)] the retained
    state holds, under every address of [current], the last record of
    [current] with that address, flagged or not; under an address that
    [current] does not have it holds what it held before the call: records
    of older snapshots stay. *)
Theorem detect_retains prev cur k :
  (detectChanges prev cur).1 !! k =
  match last (records_at k cur) with
  | Some t => Some t
  | None => prev !! k
  end.
Proof. apply detect_fold_state. Qed.

(** ** C6: retry with backoff *)

Lemma backoff_delay_values :
  backoff_delay 0 = 1000%Z ∧ backoff_delay 1 = 2000%Z
  ∧ backoff_delay 2 = 4000%Z ∧ backoff_delay 3 = 8000%Z.
Proof. by repeat split. Qed.


(** The counter is not reset by a call that gives up: the call after it
    starts where the backoff had arrived. *)
Lemma retry_count_carries_over :
  let this := (retryWithBackoff always_timeout 0 config.rateLimit.maxRetries
                 (mkProvider 0 [])).2 in
  slept (retryWithBackoff always_timeout 0 config.rateLimit.maxRetries
           (mkProvider (retryCount this) [])).2
  = [8000; 10000; 10000]%Z.
Proof. reflexivity. Qed.

(** *** A call among the others *)

Lemma retry_result_any_state {R : Type} (fn : nat → Settled R) issued retries
    this this' :
  (retryWithBackoff fn issued retries this).1
  = (retryWithBackoff fn issued retries this').1.
Proof.
  revert issued this this'. induction retries as [|retries IH];
    intros issued this this'; simpl.
  - by destruct (fn issued).
  - destruct (fn issued) as [r|e]; simpl; [done|].
    destruct (isRetryableError e); [apply IH|done].
Qed.

Lemma retry_sleeps_any_state {R : Type} (fn : nat → Settled R) issued retries this :
  length (slept (retryWithBackoff fn issued retries this).2)
  = (length (slept this)
     + length (slept (retryWithBackoff fn issued retries (mkProvider 0 [])).2))%nat.
Proof.
  revert issued this. induction retries as [|retries IH]; intros issued this; simpl.
  - destruct (fn issued); simpl; lia.
  - destruct (fn issued) as [r|e]; simpl; [lia|].
    destruct (isRetryableError e); [|simpl; lia].
    rewrite (IH _ (mkProvider (S _) _)), (IH _ (mkProvider 1 _)). simpl.
    rewrite length_app. simpl. lia.
Qed.

(** One resumption takes the call one step along the course that
    [retryWithBackoff] lays down, whatever the counter reads. *)
Lemma resume_keeps_course {R : Type} (call : Pool.Call R) retryCount :
  well_staged call →
  Pool.fn (Pool.resume call retryCount).1 = Pool.fn call
  ∧ well_staged (Pool.resume call retryCount).1
  ∧ outcome_ahead (Pool.resume call retryCount).1 = outcome_ahead call
  ∧ (length (Pool.sleeps (Pool.resume call retryCount).1)
     + sleeps_ahead (Pool.resume call retryCount).1
     = length (Pool.sleeps call) + sleeps_ahead call)%nat
  ∧ resumes_ahead (Pool.resume call retryCount).1 = (resumes_ahead call - 1)%nat
  ∧ (backoff_delays (Pool.sleeps call) →
     backoff_delays (Pool.sleeps (Pool.resume call retryCount).1)).
Proof.
  destruct call as [f k [r|r|o] sl];
    unfold Pool.resume, well_staged, outcome_ahead, sleeps_ahead, resumes_ahead,
      sleeps_ahead; cbn [Pool.stage Pool.fn Pool.issued Pool.sleeps]; intros Hstaged.
  - destruct (f k) as [response|e] eqn:E.
    + cbn [fst Pool.stage Pool.fn Pool.issued Pool.sleeps].
      destruct r; simpl; rewrite E; simpl; split_and!; done || lia.
    + destruct r as [|r]; simpl.
      * rewrite E. simpl. split_and!; done || lia.
      * rewrite E. destruct (isRetryableError e) eqn:Er; simpl.
        -- rewrite Nat.sub_0_r.
           rewrite (retry_result_any_state f (S k) r (mkProvider 1 _) (mkProvider 0 [])).
           rewrite (retry_sleeps_any_state f (S k) r (mkProvider 1 _)).
           rewrite length_app. simpl. split_and!; try done; try lia.
           intros Hall. apply Forall_app. split; [done|].
           apply Forall_singleton. by eexists.
        -- split_and!; done || lia.
  - simpl. split_and!; done || lia.
  - simpl. split_and!; done || lia.
Qed.

(** In every schedule a call stays on its course: it settles as
    [retryWithBackoff] says, after as many sleeps, once it has been resumed
    as often as that takes; what the others do to the counter only shows in
    the delays. *)
Lemma run_keeps_course {R : Type} schedule (this : Pool.Provider R) i call :
  Pool.calls this !! i = Some call →
  well_staged call →
  ∃ call', Pool.calls (Pool.run schedule this) !! i = Some call'
           ∧ Pool.fn call' = Pool.fn call
           ∧ outcome_ahead call' = outcome_ahead call
           ∧ (length (Pool.sleeps call') + sleeps_ahead call'
              = length (Pool.sleeps call) + sleeps_ahead call)%nat
           ∧ resumes_ahead call' = (resumes_ahead call - resumed i schedule)%nat
           ∧ (backoff_delays (Pool.sleeps call) → backoff_delays (Pool.sleeps call')).
Proof.
  revert this call. induction schedule as [|j schedule IH]; intros this call Hi Hstaged.
  - exists call. unfold resumed. simpl. split_and!; done || lia.
  - unfold Pool.run. cbn [fold_left]. fold (Pool.run schedule (Pool.step j this)).
    unfold resumed. rewrite filter_cons. fold (resumed i schedule).
    destruct (decide (j = i)) as [->|Hne].
    + destruct (resume_keeps_course call (Pool.retryCount this) Hstaged)
        as (Hfn & Hstaged' & Hout & Hlen & Hres & Hall).
      assert (Pool.calls (Pool.step i this) !! i
              = Some (Pool.resume call (Pool.retryCount this)).1) as Hi'.
      { unfold Pool.step. rewrite Hi.
        destruct (Pool.resume call (Pool.retryCount this)) as [call1 n1]. simpl.
        apply list_lookup_insert_eq. by apply lookup_lt_Some in Hi. }
      destruct (IH _ _ Hi' Hstaged') as (call' & Hcall' & Hfn' & Hout' & Hlen' & Hres' & Hall').
      exists call'. split_and!; [done|congruence|congruence|lia| |by auto].
      rewrite Hres', Hres. unfold resumed. simpl. lia.
    + assert (Pool.calls (Pool.step j this) !! i = Some call) as Hi'.
      { unfold Pool.step. destruct (Pool.calls this !! j) as [cj|]; [|done].
        destruct (Pool.resume cj (Pool.retryCount this)) as [cj' n1]. simpl.
        by rewrite list_lookup_insert_ne. }
      apply (IH _ _ Hi' Hstaged).
Qed.

Lemma settled_when_nothing_ahead {R : Type} (call : Pool.Call R) :
  resumes_ahead call = 0%nat ↔ ∃ outcome, Pool.stage call = Pool.Settles outcome.
Proof.
  unfold resumes_ahead. destruct (Pool.stage call); split;
    try lia; try (by intros (o & [=])); by eexists.
Qed.

Lemma step_alone {R : Type} (call : Pool.Call R) retryCount :
  Pool.step 0 (Pool.mkProvider retryCount [call])
  = Pool.mkProvider (Pool.resume call retryCount).2 [(Pool.resume call retryCount).1].
Proof. unfold Pool.step. simpl. by destruct (Pool.resume call retryCount). Qed.

(** Alone on its provider a call does what [retryWithBackoff] says:
    the outcome, the delays and the counter, after two resumptions for
    every sleep and one more. *)
Lemma alone_agrees {R : Type} (fn : nat → Settled R) retries issued count log :
  Pool.run
    (replicate
       (2 * length (slept (retryWithBackoff fn issued retries (mkProvider 0 [])).2) + 1)
       0%nat)
    (Pool.mkProvider count [Pool.mkCall fn issued (Pool.AwaitsRequest retries) log])
  = Pool.mkProvider
      (retryCount (retryWithBackoff fn issued retries (mkProvider count log)).2)
      [Pool.mkCall fn
         (issued
          + length (slept (retryWithBackoff fn issued retries (mkProvider 0 [])).2))
         (Pool.Settles (retryWithBackoff fn issued retries (mkProvider count log)).1)
         (slept (retryWithBackoff fn issued retries (mkProvider count log)).2)].
Proof.
  revert issued count log.
  induction retries as [|retries IH]; intros issued n log.
  - unfold Pool.run. simpl. destruct (fn issued) eqn:E; simpl; rewrite step_alone;
      unfold Pool.resume; simpl; rewrite E, Nat.add_0_r; done.
  - destruct (fn issued) as [response|e] eqn:E;
      [|destruct (isRetryableError e) eqn:Er].
    + unfold Pool.run. simpl. rewrite E. simpl. rewrite step_alone.
      unfold Pool.resume. simpl. by rewrite E, Nat.add_0_r.
    + assert (∀ this, retryWithBackoff fn issued (S retries) this
                      = retryWithBackoff fn (S issued) retries
                          (mkProvider (S (retryCount this))
                             (slept this ++ [backoff_delay (retryCount this)])))
        as Hnext by (intros this; simpl; by rewrite E, Er).
      rewrite !Hnext. cbn [retryCount slept app].
      rewrite (retry_sleeps_any_state fn (S issued) retries (mkProvider 1 _)).
      cbn [slept length].
      set (ahead := length (slept (retryWithBackoff fn (S issued) retries
                                     (mkProvider 0 [])).2)) in *.
      replace (2 * (1 + ahead) + 1)%nat with (S (S (2 * ahead + 1))) by lia.
      unfold Pool.run in *. cbn [replicate fold_left].
      rewrite step_alone. unfold Pool.resume at 1 2.
      cbn [Pool.stage Pool.fn Pool.issued Pool.sleeps]. rewrite E, Er.
      rewrite bool_decide_eq_false_2 by done. cbn [orb negb fst snd].
      rewrite step_alone. unfold Pool.resume at 1 2.
      cbn [Pool.stage Pool.fn Pool.issued Pool.sleeps fst snd].
      change (S retries - 1)%nat with (retries - 0)%nat. rewrite Nat.sub_0_r.
      unfold ahead. rewrite (IH (S issued) (S n) (log ++ [backoff_delay n])).
      do 3 f_equal. lia.
    + unfold Pool.run. simpl. rewrite E, Er. simpl. rewrite step_alone.
      unfold Pool.resume. simpl. by rewrite E, Er, Nat.add_0_r.
Qed.





(** ** Sorting and slicing *)

Lemma sort_insert_length {A} (compare : A → A → num) a l :
  length (sort_insert compare a l) = S (length l).
Proof.
  induction l as [|b l IH]; simpl; [done|].
  destruct (gt (compare a b) (Fin 0)); simpl; by rewrite ?IH.
Qed.

Lemma array_sort_length {A} (compare : A → A → num) l :
  length (array_sort compare l) = length l.
Proof.
  unfold array_sort. induction l as [|a l IH]; simpl; [done|].
  by rewrite sort_insert_length, IH.
Qed.

Lemma sortTokens_length tokens sortBy : length (sortTokens tokens sortBy) = length tokens.
Proof.
  unfold sortTokens. destruct (sort_branch sortBy); apply array_sort_length.
Qed.

Lemma Qtrunc_inject_Z z : Qtrunc (inject_Z z) = z.
Proof. unfold Qtrunc. simpl. apply Z.quot_1_r. Qed.

Lemma Qtrunc_nonneg q : (0 <= q)%Q → (0 ≤ Qtrunc q)%Z.
Proof.
  unfold Qle, Qtrunc. simpl. intros Hq. apply Z.quot_pos; lia.
Qed.

Lemma Qtrunc_le q : (0 <= q)%Q → (inject_Z (Qtrunc q) <= q)%Q.
Proof.
  unfold Qle, Qtrunc. simpl. intros Hq.
  rewrite Z.mul_1_r in *. rewrite Z.mul_comm. apply Z.mul_quot_le; lia.
Qed.

Lemma take_min_length {A} n (l : list A) : take (n `min` length l) l = take n l.
Proof. rewrite <- take_take. by rewrite firstn_all. Qed.

Lemma slice0_integer {A} (l : list A) (n : nat) :
  slice0 l (of_Z (Z.of_nat n)) = take n l.
Proof.
  unfold slice0, slice_end, of_Z. rewrite Qtrunc_inject_Z.
  assert ((Z.of_nat n <? 0)%Z = false) as -> by (apply Z.ltb_ge; lia).
  rewrite <- Nat2Z.inj_min, Nat2Z.id. apply take_min_length.
Qed.

Lemma slice0_length_le {A} (l : list A) q :
  (0 <= q)%Q → (inject_Z (Z.of_nat (length (slice0 l (Fin q)))) <= q)%Q.
Proof.
  intros Hq. pose proof (Qtrunc_nonneg q Hq) as Hz.
  eapply Qle_trans; [|by apply Qtrunc_le].
  rewrite <- Zle_Qle. unfold slice0, slice_end.
  assert ((Qtrunc q <? 0)%Z = false) as -> by (apply Z.ltb_ge; lia).
  rewrite length_take. lia.
Qed.

Lemma le_Fin a b : le (Fin a) (Fin b) = true ↔ (a <= b)%Q.
Proof. simpl. rewrite negb_true_iff. apply Qltb_ge. Qed.

(** ** C7: the limit *)

Lemma negative_limit_not_clamped :
  le (of_Z 1) (effective_limit sample_negative_limit) = false
  ∧ applyFiltersAndSort sample_snapshot sample_negative_limit
    = [sample_token (Some "DezX") 100 500 "DexScreener";
       sample_token (Some "So11") 7 900 "DexScreener"].
Proof. split; reflexivity. Qed.

Lemma effective_limit_in_range options :
  match limit options with
  | Some n => gt (of_Z 1) n = false
  | None => True
  end →
  ∃ q, effective_limit options = Fin q ∧ (1 <= q)%Q ∧ (q <= 50)%Q.
Proof.
  unfold effective_limit, limit_or_default.
  destruct (limit options) as [[q| | |]|]; simpl; try discriminate; intros Hlimit.
  - apply Qltb_ge in Hlimit. change (inject_Z 1) with 1%Q in Hlimit.
    assert (Qis_zero q = false) as -> by (apply Qis_zero_neq; lra). simpl.
    destruct (Qltb (inject_Z 50) q) eqn:E.
    + exists (inject_Z 50). by split_and!.
    + exists q. apply Qltb_ge in E. by split_and!.
  - exists (inject_Z 50). by split_and!.
  - exists (inject_Z 25). by split_and!.
  - exists (inject_Z 25). by split_and!.
Qed.

(** C7, as the code has it.  The effective limit is
    [min(limit || 25, 50)]: the requested limit capped at the configured
    maximum 50, an unset limit (as a zero or [NaN] one) replaced by the
    configured default 25.  Whenever the limit is unset or is not below 1,
    the effective limit lies in [1, 50] and the returned list has at most
    that many records. *)
Theorem limit_capped_at_maximum tokens options :
  effective_limit options
    = Math_min (match limit options with
                | Some n => if truthy n then n else of_Z 25
                | None => of_Z 25
                end) (of_Z 50)
  ∧ (limit options = None → effective_limit options = of_Z 25)
  ∧ (match limit options with
     | Some n => gt (of_Z 1) n = false
     | None => True
     end →
     le (of_Z 1) (effective_limit options) = true
     ∧ le (effective_limit options) (of_Z 50) = true
     ∧ le (of_Z (Z.of_nat (length (applyFiltersAndSort tokens options))))
          (effective_limit options) = true).
Proof.
  split_and!; [done|by unfold effective_limit, limit_or_default; intros ->|].
  intros Hlimit.
  destruct (effective_limit_in_range options Hlimit) as (q & Hq & Hlo & Hhi).
  unfold applyFiltersAndSort. rewrite Hq. split_and!.
  - by apply le_Fin.
  - by apply le_Fin.
  - apply le_Fin. apply slice0_length_le. lra.
Qed.

Lemma limit_capped_at_maximum_witness :
  le (of_Z 1) (effective_limit
                 {| period := None; sortBy := Some "volume"; limit := Some (of_Z 2);
                    cursor := None; skipCache := None |}) = true
  ∧ le (effective_limit
          {| period := None; sortBy := Some "volume"; limit := Some (of_Z 2);
             cursor := None; skipCache := None |}) (of_Z 50) = true
  ∧ le (of_Z (Z.of_nat (length
          (applyFiltersAndSort sample_snapshot
             {| period := None; sortBy := Some "volume"; limit := Some (of_Z 2);
                cursor := None; skipCache := None |}))))
       (effective_limit
          {| period := None; sortBy := Some "volume"; limit := Some (of_Z 2);
             cursor := None; skipCache := None |}) = true.
Proof.
  apply (proj2 (proj2 (limit_capped_at_maximum sample_snapshot
           {| period := None; sortBy := Some "volume"; limit := Some (of_Z 2);
              cursor := None; skipCache := None |}))).
  reflexivity.
Defined.

(** ** C10: a query without a sort key *)

(** The route hands on whatever [sortBy] the request has; a value that
    [FilterOptions] does not declare enters the [default] branch, and the
    page is ordered by volume. *)
Lemma default_branch_reached_by_the_route :
  sortBy (Routes.options_of sample_parseInt sample_liquidity_request)
    = Some "liquidity"
  ∧ sort_branch_taken (Routes.options_of sample_parseInt sample_liquidity_request)
    = Some CaseDefault
  ∧ applyFiltersAndSort sample_snapshot
      (Routes.options_of sample_parseInt sample_liquidity_request)
    = [sample_token (Some "So11") 7 900 "DexScreener";
       sample_token (Some "DezX") 100 500 "DexScreener";
       sample_token (Some "mSoL") 3 30 "Jupiter"].
Proof. split_and!; reflexivity. Qed.

(** C10, as the code has it.  A query whose [sortBy] is unset is not
    sorted at all: the result is [tokens.slice(0, limit)] of the snapshot
    as it is stored, a prefix of it in its order, the first [k] records
    when the effective limit is the count [k]; [sortTokens] is not entered.
    The [default] branch of [sortTokens] is entered by every query whose
    [sortBy] is a non-empty string other than the three that
    [FilterOptions] declares, and by no other; the route builds the query
    with the [sortBy] of the request as it comes; and a query that enters
    the branch gets the snapshot ordered by volume. *)
Theorem unset_sort_key_keeps_order tokens options :
  (sortBy options = None →
     applyFiltersAndSort tokens options = slice0 tokens (effective_limit options)
     ∧ sort_branch_taken options = None
     ∧ (∃ k, applyFiltersAndSort tokens options = take k tokens)
     ∧ (∀ k : nat, effective_limit options = of_Z (Z.of_nat k) →
          applyFiltersAndSort tokens options = take k tokens))
  ∧ (sort_branch_taken options = Some CaseDefault
     ↔ ∃ s, sortBy options = Some s ∧ s ≠ ""
            ∧ s ∉ ["volume"; "price_change"; "market_cap"])
  ∧ (∀ parseInt query,
       sortBy (Routes.options_of parseInt query) = Routes.q_sortBy query)
  ∧ (sort_branch_taken options = Some CaseDefault →
       applyFiltersAndSort tokens options
       = slice0 (sortTokens tokens "volume") (effective_limit options)).
Proof.
  split_and!.
  - intros Hunset. unfold applyFiltersAndSort, sort_branch_taken. rewrite Hunset. simpl.
    split_and!; [done|done|by eexists|].
    intros k ->. apply slice0_integer.
  - unfold sort_branch_taken, truthy_string.
    destruct (sortBy options) as [s|]; simpl;
      [|split; [done|by intros (s & [=] & _)]].
    destruct (decide (s = "")) as [->|Hs]; simpl.
    { split; [done|]. by intros (s' & [= <-] & Hne & _). }
    unfold sort_branch. split.
    + intros Hd. exists s. split_and!; [done|done|].
      intros Hin.
      repeat (apply elem_of_cons in Hin as [->|Hin]; [vm_compute in Hd; discriminate|]).
      by apply elem_of_nil in Hin.
    + intros (s' & [= <-] & _ & Hout).
      rewrite !decide_False; [done|..]; intros ->; apply Hout;
        repeat (apply elem_of_cons; (by left) || right).
  - done.
  - unfold sort_branch_taken, applyFiltersAndSort.
    destruct (truthy_string (sortBy options)) as [s|]; [|done]. simpl.
    intros [= Hbranch]. unfold sortTokens. by rewrite Hbranch.
Qed.

Lemma unset_sort_key_keeps_order_witness :
  applyFiltersAndSort sample_snapshot sample_unset
    = slice0 sample_snapshot (effective_limit sample_unset)
  ∧ sort_branch_taken sample_unset = None
  ∧ (∃ k, applyFiltersAndSort sample_snapshot sample_unset = take k sample_snapshot)
  ∧ (∀ k : nat, effective_limit sample_unset = of_Z (Z.of_nat k) →
       applyFiltersAndSort sample_snapshot sample_unset = take k sample_snapshot).
Proof.
  apply (proj1 (unset_sort_key_keeps_order sample_snapshot sample_unset)).
  reflexivity.
Defined.

(** Sorting by volume would have changed the order of the sample. *)
Lemma unset_sort_key_is_not_volume_order :
  applyFiltersAndSort sample_snapshot sample_unset = sample_snapshot
  ∧ sortTokens sample_snapshot "volume" ≠ sample_snapshot.
Proof. split; [reflexivity|]. vm_compute. discriminate. Qed.

(** ** C9: the cache degrades *)

Section CacheFacts.
Import Cache.
Context {Redis : Type}.
Variable client_get : string → Redis → Completion (option string) * Redis.
Variable client_setex : string → num → string → Redis → Completion unit * Redis.
Variable client_del : string → Redis → Completion unit * Redis.
Variable JSON_parse : string → Completion (option (list Token)).
Variable JSON_stringify : list Token → string.

Abbreviation get := (Cache.get client_get JSON_parse).
Abbreviation set := (Cache.set client_setex JSON_stringify).
Abbreviation delete := (Cache.delete client_del).

Lemma try_catch_returns {A} (body : @M Redis A) (a : A) (this : @Service Redis) :
  ∃ a', (try_catch body (λ _, ret a) this).1 = Returns a'.
Proof.
  unfold try_catch, ret. destruct (body this) as [[a'|e] this']; by eexists.
Qed.

(** C9.  No cache operation lets an exception out: [get] ends in a
    value, [set] and [delete] return.  While the service is not
    connected, [get] answers a miss and [set] and [delete] do nothing, the
    Redis client not being called; when the Redis command throws, or
    [JSON.parse] does, [get] answers a miss and [set] and [delete] return
    all the same. *)
Theorem cache_degrades (key : string) (value : list Token) (ttl : option num)
    (this : @Service Redis) :
  ((∃ v, (get key this).1 = Returns v)
   ∧ (set key value ttl this).1 = Returns tt
   ∧ (delete key this).1 = Returns tt)
  ∧ (isConnected this = false →
       get key this = (Returns None, this)
       ∧ set key value ttl this = (Returns tt, this)
       ∧ delete key this = (Returns tt, this))
  ∧ (∀ e, (client_get key (client this)).1 = Throws e →
       (get key this).1 = Returns None)
  ∧ (∀ text e, (client_get key (client this)).1 = Returns (Some text) →
       JSON_parse text = Throws e →
       (get key this).1 = Returns None).
Proof.
  split_and!.
  - apply try_catch_returns.
  - destruct (try_catch_returns
                (bind read_isConnected (λ connected,
                   if negb connected then ret tt
                   else command (client_setex key (default default_ttl ttl)
                                   (JSON_stringify value))))
                tt this) as [[] H].
    exact H.
  - destruct (try_catch_returns
                (bind read_isConnected (λ connected,
                   if negb connected then ret tt else command (client_del key)))
                tt this) as [[] H].
    exact H.
  - intros Hdown. unfold Cache.get, Cache.set, Cache.delete, try_catch, bind,
      read_isConnected, ret. by rewrite Hdown.
  - intros e He. unfold Cache.get, try_catch, bind, read_isConnected, ret, command.
    destruct (isConnected this); simpl; [|done].
    destruct (client_get key (client this)) as [r redis']. simpl in He. by rewrite He.
  - intros text e Hdata Hparse.
    unfold Cache.get, try_catch, bind, read_isConnected, ret, command, pure_call.
    destruct (isConnected this); simpl; [|done].
    destruct (client_get key (client this)) as [r redis']. simpl in Hdata.
    rewrite Hdata. simpl. destruct (decide (text = "")); [done|]. by rewrite Hparse.
Qed.
End CacheFacts.

Lemma cache_degrades_witness :
  Cache.get failing_get (λ _, Cache.Returns None) "tokens:all:default"
    (Cache.mkService false ∅)
  = (Cache.Returns None, Cache.mkService false ∅)
  ∧ Cache.set failing_setex (λ _, "[]") "tokens:all:default" [] None
      (Cache.mkService false ∅)
    = (Cache.Returns tt, Cache.mkService false ∅)
  ∧ Cache.delete failing_del "tokens:all:default" (Cache.mkService false ∅)
    = (Cache.Returns tt, Cache.mkService false ∅).
Proof.
  apply (proj1 (proj2 (cache_degrades failing_get failing_setex failing_del
                         (λ _, Cache.Returns None) (λ _, "[]")
                         "tokens:all:default" [] None (Cache.mkService false ∅)))).
  reflexivity.
Defined.

(** * Further properties of the code *)

(** ** retryWithBackoff *)

Lemma backoff_delay_bounds n : (1000 ≤ backoff_delay n ≤ 10000)%Z.
Proof.
  unfold backoff_delay, config.rateLimit.baseDelay, config.rateLimit.maxDelay.
  assert (0 < 2 ^ Z.of_nat n)%Z by (apply Z.pow_pos_nonneg; lia).
  lia.
Qed.

Lemma total_delay_bound (l : list Z) (k : nat) :
  (length l ≤ k)%nat → Forall (λ d, 1000 ≤ d ≤ 10000)%Z l →
  (0 ≤ total_delay l ≤ 10000 * Z.of_nat k)%Z.
Proof.
  revert k. induction l as [|d l IH]; intros k Hlen Hall; simpl in *; [lia|].
  apply Forall_cons in Hall as [Hd Hall]. destruct k as [|k]; [lia|].
  specialize (IH k ltac:(lia) Hall). lia.
Qed.

(** X1.  Whatever the request does and whatever state the provider is in,
    one call of [retryWithBackoff] only adds to the log of delays, sleeps
    at most [retries] times, each time between 1000 and 10000 ms, so for
    no more than [10000 * retries] ms in all: 30000 ms with the configured
    [maxRetries = 3]. *)
Theorem retry_sleeps_bounded {R : Type} (fn : nat → Settled R) issued retries this :
  ∃ new, slept (retryWithBackoff fn issued retries this).2 = slept this ++ new
         ∧ (length new ≤ retries)%nat
         ∧ Forall (λ d, 1000 ≤ d ≤ 10000)%Z new
         ∧ (total_delay new ≤ 10000 * Z.of_nat retries)%Z.
Proof.
  assert (∃ new, slept (retryWithBackoff fn issued retries this).2 = slept this ++ new
                 ∧ (length new ≤ retries)%nat
                 ∧ Forall (λ d, 1000 ≤ d ≤ 10000)%Z new) as (new & Hnew & Hlen & Hall).
  { revert issued this. induction retries as [|retries IH]; intros issued this; simpl.
    - exists []. destruct (fn issued); simpl;
        (split_and!; [by rewrite app_nil_r | simpl; lia | constructor]).
    - destruct (fn issued) as [r|e]; simpl.
      + exists []. split_and!; [by rewrite app_nil_r | simpl; lia | constructor].
      + destruct (isRetryableError e).
        * destruct (IH (S issued)
                      (mkProvider (S (retryCount this))
                         (slept this ++ [backoff_delay (retryCount this)])))
            as (new & Hnew & Hlen & Hall).
          exists (backoff_delay (retryCount this) :: new). split_and!.
          -- rewrite Hnew. simpl. by rewrite <- app_assoc.
          -- simpl. lia.
          -- apply Forall_cons. split; [apply backoff_delay_bounds|done].
        * exists []. split_and!; [by rewrite app_nil_r | simpl; lia | constructor]. }
  exists new. split_and!; try done.
  pose proof (total_delay_bound new retries Hlen Hall). lia.
Qed.

Lemma retry_alone_then_success {R : Type} (fn : nat → Settled R) k r issued retries
    this :
  (k ≤ retries)%nat →
  (∀ i, (i < k)%nat → ∃ e, fn (issued + i) = Rejected e ∧ isRetryableError e = true) →
  fn (issued + k) = Resolved r →
  retryWithBackoff fn issued retries this
  = (Resolved r, mkProvider 0 (slept this ++ backoff_run (retryCount this) k)).
Proof.
  unfold backoff_run.
  revert issued retries this. induction k as [|k IH]; intros issued retries this Hk Hfail Hok.
  - rewrite Nat.add_0_r in Hok. destruct retries; simpl; rewrite Hok; simpl;
      by rewrite app_nil_r.
  - destruct retries as [|retries]; [lia|].
    destruct (Hfail 0 ltac:(lia)) as (e & He & Hretry).
    rewrite Nat.add_0_r in He. simpl. rewrite He, Hretry.
    rewrite (IH (S issued) retries); simpl.
    + rewrite <- app_assoc. simpl. rewrite Nat.add_0_r. do 3 f_equal.
      rewrite <- fmap_S_seq, <- list_fmap_compose. f_equal. apply list_fmap_ext.
      intros i x _. simpl. f_equal. lia.
    + lia.
    + intros i Hi. destruct (Hfail (S i) ltac:(lia)) as (e' & He' & Hretry').
      exists e'. split; [|done]. rewrite <- He'. f_equal. lia.
    + rewrite <- Hok. f_equal. lia.
Qed.

(** X2.  When the request fails retryably [k] times, [k] within the
    retries allowed, and then succeeds, the call resolves to that response
    after [k] sleeps, whatever else runs on the provider and in whatever
    order; it has settled exactly when it has been resumed [2 k + 1]
    times.  Alone on the provider it sleeps by the backoff formula from
    where the counter stood, and leaves the counter at 0. *)
Theorem retry_then_success {R : Type} (fn : nat → Settled R) k r
    (this : Pool.Provider R) (schedule : list nat) (i count : nat) :
  (k ≤ config.rateLimit.maxRetries)%nat →
  (∀ j, (j < k)%nat → ∃ e, fn j = Rejected e ∧ isRetryableError e = true) →
  fn k = Resolved r →
  Pool.calls this !! i = Some (Pool.started fn) →
  (∃ call, Pool.calls (Pool.run schedule this) !! i = Some call
           ∧ (length (Pool.sleeps call) ≤ k)%nat
           ∧ backoff_delays (Pool.sleeps call)
           ∧ ((2 * k + 1 ≤ resumed i schedule)%nat
              ↔ ∃ outcome, Pool.stage call = Pool.Settles outcome)
           ∧ ∀ outcome, Pool.stage call = Pool.Settles outcome →
               outcome = Resolved r ∧ length (Pool.sleeps call) = k)
  ∧ Pool.run (replicate (2 * k + 1) 0%nat) (Pool.mkProvider count [Pool.started fn])
    = Pool.mkProvider 0
        [Pool.mkCall fn k (Pool.Settles (Resolved r)) (backoff_run count k)].
Proof.
  intros Hk Hfail Hok Hi.
  assert (∀ this, retryWithBackoff fn 0 config.rateLimit.maxRetries this
                  = (Resolved r,
                     mkProvider 0 (slept this ++ backoff_run (retryCount this) k)))
    as Hretry by (intros this0; by apply retry_alone_then_success).
  assert (length (backoff_run 0 k) = k) as Hrun
    by (unfold backoff_run; by rewrite length_fmap, length_seq).
  split.
  - assert (outcome_ahead (Pool.started fn) = Resolved r) as Houtcome.
    { change (outcome_ahead (Pool.started fn))
        with (retryWithBackoff fn 0 config.rateLimit.maxRetries (mkProvider 0 [])).1.
      by rewrite Hretry. }
    assert (sleeps_ahead (Pool.started fn) = k) as Hsleeps.
    { change (sleeps_ahead (Pool.started fn))
        with (length (slept (retryWithBackoff fn 0 config.rateLimit.maxRetries
                               (mkProvider 0 [])).2)).
      by rewrite Hretry. }
    assert (resumes_ahead (Pool.started fn) = (2 * k + 1)%nat) as Hresumes.
    { change (resumes_ahead (Pool.started fn))
        with (2 * sleeps_ahead (Pool.started fn) + 1)%nat. by rewrite Hsleeps. }
    destruct (run_keeps_course schedule this i (Pool.started fn) Hi I)
      as (call & Hcall & _ & Hout & Hlen & Hres & Hall).
    rewrite Houtcome in Hout. rewrite Hsleeps in Hlen. rewrite Hresumes in Hres.
    change (Pool.sleeps (Pool.started fn)) with (@nil Z) in *. simpl in Hlen.
    exists call. split_and!; [done|lia|apply Hall; constructor| |].
    + rewrite <- settled_when_nothing_ahead. lia.
    + intros outcome Hstage. unfold outcome_ahead, sleeps_ahead in *.
      rewrite Hstage in *. subst outcome. split; [done|lia].
  - pose proof (alone_agrees fn config.rateLimit.maxRetries 0 count []) as Halone.
    rewrite !Hretry in Halone. simpl in Halone. rewrite Hrun in Halone.
    exact Halone.
Qed.

Lemma retry_then_success_witness :
  (∃ call, Pool.calls
             (Pool.run sample_in_step
                (Pool.mkProvider 0
                   (replicate 6
                      (Pool.started
                         (λ j, if (j <? 2)%nat then always_timeout j else Resolved [])))))
           !! 4%nat = Some call
           ∧ (length (Pool.sleeps call) ≤ 2)%nat
           ∧ backoff_delays (Pool.sleeps call)
           ∧ ((2 * 2 + 1 ≤ resumed 4 sample_in_step)%nat
              ↔ ∃ outcome, Pool.stage call = Pool.Settles outcome)
           ∧ ∀ outcome, Pool.stage call = Pool.Settles outcome →
               outcome = Resolved [] ∧ length (Pool.sleeps call) = 2%nat)
  ∧ Pool.run (replicate (2 * 2 + 1) 0%nat)
      (Pool.mkProvider 0
         [Pool.started (λ j, if (j <? 2)%nat then always_timeout j else Resolved [])])
    = Pool.mkProvider 0
        [Pool.mkCall (λ j, if (j <? 2)%nat then always_timeout j else Resolved []) 2
           (Pool.Settles (Resolved [])) (backoff_run 0 2)].
Proof.
  apply (retry_then_success
           (λ j, if (j <? 2)%nat then always_timeout j else Resolved [])
           2 []
           (Pool.mkProvider 0
              (replicate 6
                 (Pool.started
                    (λ j, if (j <? 2)%nat then always_timeout j else Resolved []))))
           sample_in_step 4 0).
  - unfold config.rateLimit.maxRetries. lia.
  - intros j Hj. exists {| code := Some "ETIMEDOUT"; response_status := None |}.
    destruct j as [|[|j]]; [by split|by split|lia].
  - reflexivity.
  - reflexivity.
Defined.

(** X29.  The searches that [fetchTokens] runs together settle as each
    would alone: whatever the others do to the shared counter and in
    whatever order requests and timers settle, a call that has settled has
    the outcome that [retryWithBackoff] gives it on a provider of its own,
    so that [.then(...).catch(...)] makes of it what the search alone
    yields, and it has slept as often; it has settled exactly when it has
    been resumed twice for every sleep and once more.  Only the lengths of
    the delays depend on the others, each of them one the backoff formula
    gives. *)
Theorem searches_together_settle_as_alone {R : Type} (onResponse : R → list Token)
    (fn : nat → Settled R) (this : Pool.Provider R) (schedule : list nat) (i : nat)
    (alone : Provider) :
  Pool.calls this !! i = Some (Pool.started fn) →
  ∃ call,
    Pool.calls (Pool.run schedule this) !! i = Some call
    ∧ backoff_delays (Pool.sleeps call)
    ∧ ((2 * (length (slept (retryWithBackoff fn 0 config.rateLimit.maxRetries alone).2)
             - length (slept alone)) + 1 ≤ resumed i schedule)%nat
       ↔ ∃ outcome, Pool.stage call = Pool.Settles outcome)
    ∧ ∀ outcome, Pool.stage call = Pool.Settles outcome →
        outcome = (retryWithBackoff fn 0 config.rateLimit.maxRetries alone).1
        ∧ Pool.then_catch onResponse outcome = (search onResponse fn alone).1
        ∧ (length (slept alone) + length (Pool.sleeps call))%nat
          = length (slept (retryWithBackoff fn 0 config.rateLimit.maxRetries alone).2).
Proof.
  intros Hi.
  destruct (run_keeps_course schedule this i (Pool.started fn) Hi I)
    as (call & Hcall & _ & Hout & Hlen & Hres & Hall).
  change (outcome_ahead (Pool.started fn))
    with (retryWithBackoff fn 0 config.rateLimit.maxRetries (mkProvider 0 [])).1 in Hout.
  change (resumes_ahead (Pool.started fn))
    with (2 * sleeps_ahead (Pool.started fn) + 1)%nat in Hres.
  change (sleeps_ahead (Pool.started fn))
    with (length (slept (retryWithBackoff fn 0 config.rateLimit.maxRetries
                           (mkProvider 0 [])).2)) in Hlen, Hres.
  change (length (Pool.sleeps (Pool.started fn))) with 0%nat in Hlen.
  rewrite (retry_result_any_state fn 0 _ _ alone) in Hout.
  pose proof (retry_sleeps_any_state fn 0 config.rateLimit.maxRetries alone) as Hcount.
  exists call. split_and!; [done|apply Hall; constructor| |].
  - rewrite <- settled_when_nothing_ahead. lia.
  - intros outcome Hstage. unfold outcome_ahead, sleeps_ahead in *.
    rewrite Hstage in *. subst outcome. split_and!; [done| |lia].
    unfold search, Pool.then_catch.
    by destruct (retryWithBackoff fn 0 config.rateLimit.maxRetries alone) as [[r|e] p].
Qed.

Lemma searches_together_settle_as_alone_witness :
  ∃ call,
    Pool.calls (Pool.run sample_in_step sample_six_searches) !! 2%nat = Some call
    ∧ backoff_delays (Pool.sleeps call)
    ∧ ((2 * (length (slept (retryWithBackoff always_timeout 0
                              config.rateLimit.maxRetries (mkProvider 0 [])).2)
             - length (slept (mkProvider 0 []))) + 1 ≤ resumed 2 sample_in_step)%nat
       ↔ ∃ outcome, Pool.stage call = Pool.Settles outcome)
    ∧ ∀ outcome, Pool.stage call = Pool.Settles outcome →
        outcome = (retryWithBackoff always_timeout 0 config.rateLimit.maxRetries
                     (mkProvider 0 [])).1
        ∧ Pool.then_catch (λ tokens, tokens) outcome
          = (search (λ tokens, tokens) always_timeout (mkProvider 0 [])).1
        ∧ (length (slept (mkProvider 0 [])) + length (Pool.sleeps call))%nat
          = length (slept (retryWithBackoff always_timeout 0
                             config.rateLimit.maxRetries (mkProvider 0 [])).2).
Proof.
  apply (searches_together_settle_as_alone (λ tokens, tokens) always_timeout
           sample_six_searches sample_in_step 2 (mkProvider 0 [])).
  reflexivity.
Defined.

(** X3.  A call gives up before its retries are spent only on an error
    that is not retryable: whenever it is rejected with a retryable
    error, it has slept exactly [retries] times. *)
Theorem retry_gives_up_late {R : Type} (fn : nat → Settled R) issued retries this e :
  (retryWithBackoff fn issued retries this).1 = Rejected e →
  isRetryableError e = true →
  length (slept (retryWithBackoff fn issued retries this).2)
  = (length (slept this) + retries)%nat.
Proof.
  revert issued this. induction retries as [|retries IH]; intros issued this; simpl.
  - destruct (fn issued); simpl; [done|]. intros _ _. lia.
  - destruct (fn issued) as [r|e0]; simpl; [done|].
    destruct (isRetryableError e0) eqn:E0.
    + intros Hres Hretry. rewrite IH by done. simpl. rewrite length_app. simpl. lia.
    + simpl. intros [= ->] Hretry. congruence.
Qed.

Lemma retry_gives_up_late_witness :
  length (slept (retryWithBackoff always_timeout 0 3 (mkProvider 0 [])).2)
  = (length (slept (mkProvider 0 [])) + 3)%nat.
Proof.
  apply (retry_gives_up_late always_timeout 0 3 (mkProvider 0 [])
           {| code := Some "ETIMEDOUT"; response_status := None |});
    reflexivity.
Defined.

(** X4.  The state of the provider (the retry counter, the delays slept
    so far) decides how long a call sleeps, never what it returns. *)
Theorem retry_outcome_stateless {R : Type} (fn : nat → Settled R) issued retries
    this this' :
  (retryWithBackoff fn issued retries this).1
  = (retryWithBackoff fn issued retries this').1.
Proof.
  revert issued this this'. induction retries as [|retries IH];
    intros issued this this'; simpl.
  - by destruct (fn issued).
  - destruct (fn issued) as [r|e]; simpl; [done|].
    destruct (isRetryableError e); [apply IH|done].
Qed.

(** ** Aggregator.detectChanges, further *)

Lemma detect_fold_sublist cur prev out :
  ∃ lp lv,
    priceChanges (fold_left detect_step cur (prev, out)).2 = priceChanges out ++ lp
    ∧ volumeSpikes (fold_left detect_step cur (prev, out)).2 = volumeSpikes out ++ lv
    ∧ sublist lp cur ∧ sublist lv cur.
Proof.
  revert prev out. induction cur as [|t cur IH]; intros prev out.
  - exists [], []. simpl. by rewrite !app_nil_r.
  - cbn [fold_left]. rewrite detect_step_eq.
    edestruct IH as (lp & lv & -> & -> & Hp & Hv). simpl.
    exists (if price_flagged prev t then t :: lp else lp),
           (if volume_flagged prev t then t :: lv else lv).
    split_and!.
    + destruct (price_flagged prev t); by rewrite <- ?app_assoc.
    + destruct (volume_flagged prev t); by rewrite <- ?app_assoc.
    + destruct (price_flagged prev t); [by apply sublist_skip|by apply sublist_cons].
    + destruct (volume_flagged prev t); [by apply sublist_skip|by apply sublist_cons].
Qed.

(** X5.  Both lists that [detectChanges] returns are sublists of the
    records it was given: flagged records come out in the order of the
    call, none twice for one occurrence, none that was not passed in. *)
Theorem detect_flags_sublist prev cur :
  sublist (priceChanges (detectChanges prev cur).2) cur
  ∧ sublist (volumeSpikes (detectChanges prev cur).2) cur.
Proof.
  unfold detectChanges.
  destruct (detect_fold_sublist cur prev (mkChanges [] [])) as (lp & lv & -> & -> & Hp & Hv).
  done.
Qed.

Lemma percent_of_itself_price t : gt (priceChangePercent t t) (of_Z 5) = false.
Proof.
  unfold priceChangePercent. rewrite mul_100.
  destruct (price_sol t) as [x| | |]; cbn [sub div abs gt]; try reflexivity.
  destruct (Qis_zero x).
  - destruct (Qcompare_spec (x - x) 0); try reflexivity; exfalso; lra.
  - cbn [abs gt of_Z]. apply Qltb_ge.
    assert ((x - x) / x * inject_Z 100 == 0)%Q as -> by (unfold Qdiv; ring). done.
Qed.

Lemma percent_of_itself_volume t : gt (volumeIncrease t t) (of_Z 50) = false.
Proof.
  unfold volumeIncrease. rewrite mul_100.
  destruct (volume_sol t) as [x| | |]; cbn [sub div gt]; try reflexivity.
  destruct (Qis_zero x).
  - destruct (Qcompare_spec (x - x) 0); try reflexivity; exfalso; lra.
  - cbn [gt of_Z]. apply Qltb_ge.
    assert ((x - x) / x * inject_Z 100 == 0)%Q as -> by (unfold Qdiv; ring). done.
Qed.

Lemma records_at_unique cur t :
  NoDup (token_address <$> cur) → t ∈ cur →
  records_at (token_address t) cur = [t].
Proof.
  unfold records_at. induction cur as [|x cur IH]; csimpl; [by intros _ ?%elem_of_nil|].
  rewrite NoDup_cons. intros [Hx Hnd] [->|Hin]%elem_of_cons.
  - rewrite filter_cons, decide_True by done. f_equal.
    clear IH. induction cur as [|y cur IH]; [done|].
    csimpl in Hx. apply not_elem_of_cons in Hx as [Hne Hx].
    apply NoDup_cons in Hnd as [_ Hnd].
    rewrite filter_cons, decide_False by done. by apply IH.
  - rewrite filter_cons, decide_False; [by apply IH|].
    intros Heq. apply Hx. rewrite Heq. apply list_elem_of_fmap. by exists t.
Qed.

(** X6.  A snapshot that comes again unchanged raises nothing: when
    [detectChanges] is called a second time with the records of the call
    before (one per address), both lists are empty, whatever the prices and
    volumes are, zero and the special values included. *)
Theorem detect_unchanged_snapshot prev cur :
  NoDup (token_address <$> cur) →
  (detectChanges (detectChanges prev cur).1 cur).2
  = {| priceChanges := []; volumeSpikes := [] |}.
Proof.
  intros Hnd.
  assert (∀ t, t ∈ cur → (detectChanges prev cur).1 !! token_address t = Some t) as Hbase.
  { intros t Ht. unfold detectChanges. rewrite detect_fold_state.
    by rewrite records_at_unique. }
  destruct (detectChanges (detectChanges prev cur).1 cur).2 as [lp lv] eqn:E.
  f_equal.
  - apply elem_of_nil_inv. intros t Ht.
    assert (t ∈ priceChanges (detectChanges (detectChanges prev cur).1 cur).2) as Hin
      by by rewrite E.
    apply detect_price_flagged in Hin as [Hcur Hflag]; [|done].
    unfold price_flagged in Hflag. rewrite (Hbase t Hcur) in Hflag.
    by rewrite percent_of_itself_price in Hflag.
  - apply elem_of_nil_inv. intros t Ht.
    assert (t ∈ volumeSpikes (detectChanges (detectChanges prev cur).1 cur).2) as Hin
      by by rewrite E.
    apply detect_volume_flagged in Hin as [Hcur Hflag]; [|done].
    unfold volume_flagged in Hflag. rewrite (Hbase t Hcur) in Hflag.
    by rewrite percent_of_itself_volume in Hflag.
Qed.

Lemma detect_unchanged_snapshot_witness :
  (detectChanges (detectChanges sample_previous sample_snapshot).1 sample_snapshot).2
  = {| priceChanges := []; volumeSpikes := [] |}.
Proof.
  apply (detect_unchanged_snapshot sample_previous sample_snapshot).
  apply NoDup_ListNoDup. vm_compute.
  repeat (constructor; [simpl; intuition congruence|]). constructor.
Defined.

(** *** A volume that falls *)

Lemma digits2_pos_size m : SpecFloat.digits2_pos m = Pos.size m.
Proof. induction m as [m IH|m IH|]; simpl; by rewrite ?IH. Qed.

Lemma iter_xO_pow m d : Z.pos (Pos.iter xO m d) = (Z.pos m * 2 ^ Z.pos d)%Z.
Proof.
  induction d as [|d IH] using Pos.peano_ind.
  - simpl. lia.
  - rewrite Pos.iter_succ, Pos2Z.inj_xO, IH, Pos2Z.inj_succ, Z.pow_succ_r by lia. lia.
Qed.

(** What rounding leaves of a negative number is not above zero. *)
Lemma round_aux_not_above_zero prec emax m e l :
  not_above_zero (SpecFloat.binary_round_aux prec emax true m e l).
Proof.
  unfold SpecFloat.binary_round_aux.
  destruct (SpecFloat.shr_fexp prec emax m e l) as [mrs' e'].
  destruct (SpecFloat.shr_fexp prec emax _ e' SpecFloat.loc_Exact) as [mrs'' e''].
  destruct (SpecFloat.shr_m mrs''); simpl; [done| |done].
  by destruct (e'' <=? emax - prec)%Z.
Qed.

Lemma normalize_not_above_zero prec emax m e :
  (m ≤ 0)%Z → not_above_zero (SpecFloat.binary_normalize prec emax m e false).
Proof.
  intros Hm. destruct m as [|m|m]; simpl; [done|lia|].
  unfold SpecFloat.binary_round.
  destruct (SpecFloat.shl_align _ _ _) as [mz ez]. apply round_aux_not_above_zero.
Qed.

Lemma div_not_above_zero d p :
  not_above_zero d → sign_bit p = false → not_above_zero (Binary64.div d p).
Proof.
  unfold Binary64.div.
  destruct d as [sd|sd| |sd md ed], p as [sp|sp| |sp mp ep]; simpl;
    intros Hd Hp; try subst sd; try subst sp; try done.
  destruct (SpecFloat.SFdiv_core_binary _ _ _ _ _ _) as [[mz ez] lz].
  apply round_aux_not_above_zero.
Qed.

Lemma mul_not_above_zero x h :
  not_above_zero x → sign_bit h = false → not_above_zero (Binary64.mul x h).
Proof.
  unfold Binary64.mul.
  destruct x as [sx|sx| |sx mx ex], h as [sh|sh| |sh mh eh]; simpl;
    intros Hx Hh; try subst sx; try subst sh; try done.
  apply round_aux_not_above_zero.
Qed.

Lemma not_above_zero_not_above_50 x :
  not_above_zero x → Binary64.gt x (Binary64.of_Z 50) = false.
Proof. destruct x as [sx|sx| |sx mx ex]; simpl; intros Hx; try subst sx; done. Qed.

(** A double has at most 53 digits, and exactly 53 above the least
    exponent. *)
Lemma valid_double_digits s m e :
  valid_double (SpecFloat.S754_finite s m e) →
  (Z.pos m < 2 ^ 53)%Z
  ∧ (-1074 ≤ e)%Z
  ∧ ((-1074 < e)%Z → (2 ^ 52 ≤ Z.pos m)%Z).
Proof.
  unfold valid_double, SpecFloat.valid_binary, SpecFloat.bounded,
    SpecFloat.canonical_mantissa, SpecFloat.fexp, SpecFloat.emin,
    Binary64.prec, Binary64.emax.
  rewrite digits2_pos_size. intros [Hcanonical _]%andb_prop.
  apply Z.eqb_eq in Hcanonical.
  pose proof (Pos.size_gt m) as Hgt. pose proof (Pos.size_le m) as Hle.
  apply Pos2Z.pos_lt_pos in Hgt. apply Pos2Z.pos_le_pos in Hle.
  rewrite Pos2Z.inj_pow in Hgt, Hle. rewrite Pos2Z.inj_xO in Hle.
  assert (Z.pos (Pos.size m) ≤ 53)%Z as Hdigits by lia.
  split_and!.
  - eapply Z.lt_le_trans; [exact Hgt|]. by apply Z.pow_le_mono_r.
  - lia.
  - intros He. assert (Z.pos (Pos.size m) = 53)%Z as Hfull by lia.
    rewrite Hfull in Hle. change (2 ^ 53)%Z with (2 * 2 ^ 52)%Z in Hle. lia.
Qed.

(** Below a baseline above zero the difference is not above zero. *)
Lemma sub_not_above_zero c p :
  valid_double c → valid_double p →
  Binary64.gt p (Binary64.of_Z 0) = true →
  Binary64.gt p c = true →
  not_above_zero (Binary64.sub c p).
Proof.
  intros Hc Hp Hpos Hbelow.
  destruct p as [sp|sp| |sp mp ep]; try done; destruct sp; try done.
  - by destruct c as [sc|[]| |sc mc ec].
  - destruct c as [sc|[]| |sc mc ec]; try done.
    unfold Binary64.sub, SpecFloat.SFsub. apply normalize_not_above_zero.
    destruct sc; [simpl; lia|].
    unfold Binary64.gt, SpecFloat.SFltb, SpecFloat.SFcompare in Hbelow.
    apply valid_double_digits in Hc as (Hmc & Hec & _).
    apply valid_double_digits in Hp as (_ & _ & Hmp).
    unfold SpecFloat.shl_align. cbn [SpecFloat.cond_Zopp].
    destruct (Z.compare_spec ec ep) as [->|Hlt|Hgt]; [| |done].
    + rewrite Z.min_id, Z.sub_diag. cbn [fst].
      destruct (Pos.compare_cont Eq mc mp) eqn:E; try done.
      change (Pos.compare_cont Eq mc mp) with (mc ?= mp)%positive in E.
      apply Pos.compare_lt_iff, Pos2Z.pos_lt_pos in E. lia.
    + rewrite Z.min_l by lia. rewrite Z.sub_diag. cbn [fst].
      destruct (ec - ep)%Z as [|d|d] eqn:Ed; [lia|lia|].
      cbn [fst]. rewrite iter_xO_pow.
      assert (2 ^ 1 ≤ 2 ^ Z.pos d)%Z by (apply Z.pow_le_mono_r; lia).
      specialize (Hmp ltac:(lia)). nia.
Qed.

(** X7.  Volumes are watched upwards only.  In a snapshot, a record
    whose volume is below its baseline volume, the baseline above zero, is
    never flagged as a volume spike, however far the volume fell and
    whatever the rounding. *)
Theorem volume_fall_is_no_spike prev cur t p :
  NoDup (Binary64.token_address <$> cur) →
  t ∈ cur →
  prev !! Binary64.token_address t = Some p →
  valid_double (Binary64.volume_sol t) →
  valid_double (Binary64.volume_sol p) →
  Binary64.gt (Binary64.volume_sol p) (Binary64.of_Z 0) = true →
  Binary64.gt (Binary64.volume_sol p) (Binary64.volume_sol t) = true →
  t ∉ Binary64.volumeSpikes (Binary64.detectChanges prev cur).2.
Proof.
  intros Hnd Hin Hp Hvt Hvp Hpos Hfell.
  rewrite detect64_volume_flagged by done. intros [_ Hflag].
  unfold volume_flagged64, Binary64.volumeIncrease in Hflag. rewrite Hp in Hflag.
  rewrite not_above_zero_not_above_50 in Hflag; [done|].
  apply mul_not_above_zero; [|done].
  apply div_not_above_zero; [|by apply above_zero_sign].
  by apply sub_not_above_zero.
Qed.

Lemma volume_fall_is_no_spike_witness :
  sample_token64 "DezX" (Binary64.ratio 9499 100) (Binary64.of_Z 1)
    ∉ Binary64.volumeSpikes
        (Binary64.detectChanges
           (sample_previous64 (Binary64.of_Z 100) (Binary64.of_Z 100))
           [sample_token64 "DezX" (Binary64.ratio 9499 100) (Binary64.of_Z 1)]).2.
Proof.
  apply (volume_fall_is_no_spike
           (sample_previous64 (Binary64.of_Z 100) (Binary64.of_Z 100))
           [sample_token64 "DezX" (Binary64.ratio 9499 100) (Binary64.of_Z 1)]
           (sample_token64 "DezX" (Binary64.ratio 9499 100) (Binary64.of_Z 1))
           (sample_token64 "DezX" (Binary64.of_Z 100) (Binary64.of_Z 100))
           (NoDup_singleton _)
           (proj2 (list_elem_of_singleton _ _) eq_refl));
    reflexivity.
Defined.

(** The price of that record fell by 5.01 %, and it is a price delta. *)
Lemma price_fall_is_a_price_delta :
  Binary64.priceChanges
    (Binary64.detectChanges
       (sample_previous64 (Binary64.of_Z 100) (Binary64.of_Z 100))
       [sample_token64 "DezX" (Binary64.ratio 9499 100) (Binary64.of_Z 1)]).2
  = [sample_token64 "DezX" (Binary64.ratio 9499 100) (Binary64.of_Z 1)].
Proof. reflexivity. Qed.


(** ** Aggregator.sortTokens and applyFiltersAndSort, further *)

Lemma sort_insert_Permutation {A} (compare : A → A → num) a l :
  sort_insert compare a l ≡ₚ a :: l.
Proof.
  induction l as [|b l IH]; simpl; [done|].
  destruct (gt (compare a b) (Fin 0)); [|done].
  rewrite IH. apply Permutation_swap.
Qed.

Lemma array_sort_Permutation {A} (compare : A → A → num) l :
  array_sort compare l ≡ₚ l.
Proof.
  unfold array_sort. induction l as [|a l IH]; simpl; [done|].
  by rewrite sort_insert_Permutation, IH.
Qed.

Lemma sortTokens_by_key tokens sortBy :
  sortTokens tokens sortBy
  = array_sort (λ a b, sub (sort_key sortBy b) (sort_key sortBy a)) tokens.
Proof. unfold sortTokens, sort_key. by destruct (sort_branch sortBy). Qed.

Lemma descending_insert (key : Token → num) a l :
  finite (key a) → (∀ x, x ∈ l → finite (key x)) →
  descending key l →
  descending key (sort_insert (λ a b, sub (key b) (key a)) a l).
Proof.
  unfold descending. intros [qa Ha] Hfin Hsorted.
  induction Hsorted as [|b l Hsorted IH Hb]; simpl.
  - repeat constructor.
  - destruct (Hfin b) as [qb Hqb]; [apply elem_of_cons; by left|].
    assert (∀ x, x ∈ l → finite (key x)) as Hfin'
      by (intros x Hx; apply Hfin, elem_of_cons; by right).
    rewrite Ha, Hqb. cbn [sub gt].
    destruct (Qltb 0 (qb - qa)) eqn:E.
    + constructor; [by apply IH|].
      apply Forall_forall. intros x Hx.
      apply list_elem_of_In, (Permutation_in _ (sort_insert_Permutation _ a l)) in Hx.
      destruct Hx as [<-|Hx].
      * rewrite Ha, Hqb. apply le_Fin. apply Qltb_lt in E. lra.
      * rewrite Forall_forall in Hb. by apply Hb, list_elem_of_In.
    + apply Qltb_ge in E. constructor; [by constructor|].
      apply Forall_cons. split.
      * rewrite Ha, Hqb. apply le_Fin. lra.
      * rewrite Forall_forall in Hb |- *. intros x Hx.
        specialize (Hb x Hx). destruct (Hfin' x) as [qx Hqx]; [done|].
        rewrite Hqx, ?Hqb, ?Ha in *. apply le_Fin in Hb. apply le_Fin. lra.
Qed.

Lemma descending_array_sort (key : Token → num) l :
  (∀ x, x ∈ l → finite (key x)) →
  descending key (array_sort (λ a b, sub (key b) (key a)) l).
Proof.
  unfold array_sort. induction l as [|a l IH]; intros Hfin; simpl.
  - constructor.
  - apply descending_insert.
    + apply Hfin, elem_of_cons. by left.
    + intros x Hx. apply Hfin, elem_of_cons. right.
      apply list_elem_of_In. apply list_elem_of_In in Hx.
      by apply (Permutation_in _
                  (array_sort_Permutation (λ a b, sub (key b) (key a)) l)).
    + apply IH. intros x Hx. apply Hfin, elem_of_cons. by right.
Qed.

(** X8.  [sortTokens] returns the records it was given, each as often
    as it was given, and nothing else; when the field it compares is a
    finite number in every record, they come out from the largest to the
    smallest.  A [sortBy] that is none of the three declared ones orders by
    volume. *)
Theorem sortTokens_sorts tokens sortBy :
  sortTokens tokens sortBy ≡ₚ tokens
  ∧ ((∀ t, t ∈ tokens → finite (sort_key sortBy t)) →
     descending (sort_key sortBy) (sortTokens tokens sortBy))
  ∧ (sortBy ≠ "price_change" → sortBy ≠ "market_cap" →
     sort_key sortBy = volume_sol).
Proof.
  rewrite sortTokens_by_key. split_and!.
  - apply array_sort_Permutation.
  - apply descending_array_sort.
  - intros H1 H2. unfold sort_key, sort_branch.
    repeat case_decide; done.
Qed.

Lemma sortTokens_sorts_witness :
  descending (sort_key "volume") (sortTokens sample_snapshot "volume")
  ∧ sort_key "liquidity" = volume_sol.
Proof.
  destruct (sortTokens_sorts sample_snapshot "volume") as (_ & Hsorted & _).
  destruct (sortTokens_sorts sample_snapshot "liquidity") as (_ & _ & Hdefault).
  split.
  - apply Hsorted. intros t Ht.
    repeat (apply elem_of_cons in Ht as [->|Ht]; [by eexists|]).
    by apply elem_of_nil in Ht.
  - apply Hdefault; discriminate.
Defined.

(** X9.  A query never makes a record up: what [applyFiltersAndSort]
    returns is part of the snapshot, no record more often than the snapshot
    has it.  When the query sorts (its compared field finite in every
    record), what it returns is the head of the sorted snapshot: no record
    left out has a larger value than a record returned. *)
Theorem query_returns_the_top tokens options :
  applyFiltersAndSort tokens options ⊆+ tokens
  ∧ ∀ s, truthy_string (sortBy options) = Some s →
      (∀ t, t ∈ tokens → finite (sort_key s t)) →
      ∃ rest,
        sortTokens tokens s = applyFiltersAndSort tokens options ++ rest
        ∧ ∀ a b, a ∈ applyFiltersAndSort tokens options → b ∈ rest →
            le (sort_key s b) (sort_key s a) = true.
Proof.
  unfold applyFiltersAndSort, slice0. split.
  - etrans; [apply sublist_submseteq, sublist_take|].
    destruct (truthy_string (sortBy options)); [|done].
    apply Permutation_submseteq. rewrite sortTokens_by_key.
    apply array_sort_Permutation.
  - intros s -> Hfin.
    set (n := slice_end (length (sortTokens tokens s)) (effective_limit options)).
    exists (drop n (sortTokens tokens s)). split; [by rewrite take_drop|].
    intros a b Ha Hb.
    pose proof (descending_array_sort (sort_key s) tokens Hfin) as Hsorted.
    rewrite <- sortTokens_by_key, <- (take_drop n (sortTokens tokens s)) in Hsorted.
    by apply (sorting.StronglySorted_app_1_elem_of _ _ _ a b Hsorted).
Qed.

Lemma query_returns_the_top_witness :
  ∃ rest,
    sortTokens sample_snapshot "volume"
    = applyFiltersAndSort sample_snapshot
        {| period := None; sortBy := Some "volume"; limit := Some (of_Z 2);
           cursor := None; skipCache := None |} ++ rest
    ∧ ∀ a b,
        a ∈ applyFiltersAndSort sample_snapshot
              {| period := None; sortBy := Some "volume"; limit := Some (of_Z 2);
                 cursor := None; skipCache := None |} →
        b ∈ rest →
        le (sort_key "volume" b) (sort_key "volume" a) = true.
Proof.
  apply (proj2 (query_returns_the_top sample_snapshot
           {| period := None; sortBy := Some "volume"; limit := Some (of_Z 2);
              cursor := None; skipCache := None |}) "volume").
  - reflexivity.
  - intros t Ht.
    repeat (apply elem_of_cons in Ht as [->|Ht]; [by eexists|]).
    by apply elem_of_nil in Ht.
Defined.

(** ** Aggregator.mergeTokens, further *)

Lemma keyed_entries_keys l : (keyed_entries l).*1 = input_keys l.
Proof.
  unfold keyed_entries, input_keys. induction l as [|o l IH]; csimpl; [done|].
  destruct o as [t|]; csimpl; [|done].
  destruct (merge_key (Some t)); csimpl; by rewrite ?IH.
Qed.

Lemma keyed_entries_values l : map_values (keyed_entries l) = valid_records l.
Proof.
  unfold keyed_entries, valid_records, map_values.
  induction l as [|o l IH]; csimpl; [done|].
  destruct o as [t|]; csimpl; [|done].
  destruct (merge_key (Some t)); csimpl; by rewrite ?IH.
Qed.

Lemma keyed_entries_cons o l :
  keyed_entries (o :: l)
  = match o, merge_key o with
    | Some t, Some k => (k, t) :: keyed_entries l
    | _, _ => keyed_entries l
    end.
Proof.
  unfold keyed_entries. csimpl. destruct o as [t|]; [|done].
  by destruct (merge_key (Some t)).
Qed.

Lemma merge_fold_fresh (step : TokenMap → option Token → TokenMap) l m :
  (∀ m t k, merge_key (Some t) = Some k → k ∉ m.*1 →
            step m (Some t) = m ++ [(k, t)]) →
  (∀ m o, merge_key o = None → step m o = m) →
  NoDup (m.*1 ++ input_keys l) →
  fold_left step l m = m ++ keyed_entries l.
Proof.
  intros Hfresh Hnone. revert m. induction l as [|o l IH]; intros m Hnd.
  - simpl. by rewrite app_nil_r.
  - cbn [fold_left]. rewrite keyed_entries_cons. unfold input_keys in Hnd.
    csimpl in Hnd.
    destruct (merge_key o) as [k|] eqn:E; csimpl in Hnd.
    + apply merge_key_Some_inv in E as (t & -> & Ht). unfold has_key in Ht.
      rewrite Ht. rewrite Hfresh with (k := k); [|done|].
      * rewrite IH; [by rewrite <- app_assoc|].
        rewrite fmap_app. csimpl. by rewrite <- app_assoc.
      * apply NoDup_app in Hnd as (_ & Hdis & _). intros Hin.
        apply (Hdis k Hin). apply elem_of_cons. by left.
    + rewrite Hnone by done. rewrite IH by done.
      destruct o as [t|]; [by rewrite E|done].
Qed.

Lemma dex_step_fresh m t k :
  merge_key (Some t) = Some k → k ∉ m.*1 → dex_step m (Some t) = m ++ [(k, t)].
Proof. intros Hk Hm. unfold dex_step. rewrite Hk. by apply map_set_fresh. Qed.

Lemma jupiter_step_fresh m t k :
  merge_key (Some t) = Some k → k ∉ m.*1 → jupiter_step m (Some t) = m ++ [(k, t)].
Proof.
  intros Hk Hm. unfold jupiter_step. rewrite Hk.
  apply map_get_None in Hm as Hget. rewrite Hget. by apply map_set_fresh.
Qed.

(** X10.  When no identity key occurs twice, within a source or across
    the two, merging is putting the lists one after the other: the result
    is the primary's records followed by the secondary's, each exactly as
    its source gave it (records without a key left out), so N and M records
    give N + M. *)
Theorem merge_disjoint_sources dex jup :
  NoDup (input_keys (dex ++ jup)) →
  mergeTokens dex jup = valid_records dex ++ valid_records jup
  ∧ length (mergeTokens dex jup)
    = (length (input_keys dex) + length (input_keys jup))%nat.
Proof.
  intros Hnd. unfold input_keys in Hnd. rewrite omap_app in Hnd.
  fold (input_keys dex) (input_keys jup) in Hnd.
  assert (mergeTokens dex jup = valid_records dex ++ valid_records jup) as Heq.
  { unfold mergeTokens, merge_map.
    rewrite (merge_fold_fresh dex_step dex []);
      [|apply dex_step_fresh|apply dex_step_no_key|].
    - simpl. rewrite (merge_fold_fresh jupiter_step jup);
        [|apply jupiter_step_fresh|apply jupiter_step_no_key|].
      + unfold map_values. rewrite fmap_app.
        fold (map_values (keyed_entries dex)) (map_values (keyed_entries jup)).
        by rewrite !keyed_entries_values.
      + by rewrite keyed_entries_keys.
    - simpl. by apply NoDup_app in Hnd as (? & _ & _). }
  split; [done|].
  rewrite Heq, length_app, <- !keyed_entries_values, <- !keyed_entries_keys.
  unfold map_values. by rewrite !length_fmap.
Qed.

Lemma merge_disjoint_sources_witness :
  mergeTokens
    [Some (sample_token (Some "So11") 7 70 "DexScreener"); None]
    [Some (sample_token (Some "mSoL") 3 30 "Jupiter")]
  = valid_records [Some (sample_token (Some "So11") 7 70 "DexScreener"); None]
    ++ valid_records [Some (sample_token (Some "mSoL") 3 30 "Jupiter")]
  ∧ length (mergeTokens
              [Some (sample_token (Some "So11") 7 70 "DexScreener"); None]
              [Some (sample_token (Some "mSoL") 3 30 "Jupiter")])
    = (length (input_keys [Some (sample_token (Some "So11") 7 70 "DexScreener"); None])
       + length (input_keys [Some (sample_token (Some "mSoL") 3 30 "Jupiter")]))%nat.
Proof.
  apply (merge_disjoint_sources
           [Some (sample_token (Some "So11") 7 70 "DexScreener"); None]
           [Some (sample_token (Some "mSoL") 3 30 "Jupiter")]).
  apply NoDup_ListNoDup. vm_compute.
  repeat (constructor; [simpl; intuition congruence|]). constructor.
Defined.

(** ** A [Map] built from entries *)

Section EntryMapFacts.
Context {K V : Type} `{EqDecision K}.
Implicit Types (m es : list (K * V)).

Lemma entries_set_keys k v m :
  (entries_set k v m).*1 = if decide (k ∈ m.*1) then m.*1 else m.*1 ++ [k].
Proof.
  induction m as [|[k' v'] m IH]; csimpl; [done|].
  destruct (decide (k = k')) as [->|Hne]; csimpl.
  - rewrite decide_True; [done|]. apply elem_of_cons. by left.
  - rewrite IH. destruct (decide (k ∈ m.*1)) as [Hin|Hout].
    + rewrite decide_True; [done|]. apply elem_of_cons. by right.
    + rewrite decide_False; [done|]. rewrite not_elem_of_cons. done.
Qed.

Lemma entries_set_NoDup k v m : NoDup m.*1 → NoDup (entries_set k v m).*1.
Proof.
  intros Hnd. rewrite entries_set_keys. destruct (decide (k ∈ m.*1)); [done|].
  apply NoDup_app. split_and!; [done| |apply NoDup_singleton].
  intros x Hx ->%list_elem_of_singleton. done.
Qed.

Lemma entries_set_length k v m :
  (length (entries_set k v m) ≤ S (length m))%nat.
Proof.
  induction m as [|[k' v'] m IH]; simpl; [lia|].
  destruct (decide (k = k')); simpl; lia.
Qed.

Lemma entries_set_elem_of k v m kv :
  kv ∈ entries_set k v m → kv = (k, v) ∨ kv ∈ m.
Proof.
  induction m as [|[k' v'] m IH]; simpl.
  - intros ->%list_elem_of_singleton. by left.
  - destruct (decide (k = k')) as [->|Hne].
    + intros [->|Hin]%elem_of_cons; [by left|]. right. apply elem_of_cons. by right.
    + intros [->|Hin]%elem_of_cons; [right; apply elem_of_cons; by left|].
      destruct (IH Hin) as [->|?]; [by left|]. right. apply elem_of_cons. by right.
Qed.

Lemma entries_get_set k k' v m :
  entries_get k' (entries_set k v m)
  = if decide (k' = k) then Some v else entries_get k' m.
Proof.
  induction m as [|[k0 v0] m IH]; simpl.
  - done.
  - destruct (decide (k = k0)) as [->|Hne]; simpl.
    + by destruct (decide (k' = k0)).
    + rewrite IH. destruct (decide (k' = k0)) as [->|]; [|done].
      by rewrite decide_False.
Qed.

Lemma entries_set_all_NoDup es m : NoDup m.*1 → NoDup (entries_set_all es m).*1.
Proof.
  unfold entries_set_all. revert m. induction es as [|[k v] es IH]; intros m Hm; [done|].
  simpl. by apply IH, entries_set_NoDup.
Qed.

Lemma entries_set_all_length es m :
  (length (entries_set_all es m) ≤ length m + length es)%nat.
Proof.
  unfold entries_set_all. revert m. induction es as [|[k v] es IH]; intros m; simpl; [lia|].
  etrans; [apply IH|]. pose proof (entries_set_length k v m). lia.
Qed.

Lemma entries_set_all_elem_of es m kv :
  kv ∈ entries_set_all es m → kv ∈ es ∨ kv ∈ m.
Proof.
  unfold entries_set_all. revert m. induction es as [|[k v] es IH]; intros m; simpl.
  - by right.
  - intros [Hin|Hin]%IH.
    + left. apply elem_of_cons. by right.
    + apply entries_set_elem_of in Hin as [->|Hin]; [|by right].
      left. apply elem_of_cons. by left.
Qed.

Lemma entries_set_all_get es m k :
  entries_get k (entries_set_all es m)
  = match last (filter (λ kv, kv.1 = k) es) with
    | Some kv => Some kv.2
    | None => entries_get k m
    end.
Proof.
  unfold entries_set_all. revert m. induction es as [|[k0 v0] es IH]; intros m; [done|].
  simpl. rewrite IH, filter_cons, entries_get_set. simpl.
  destruct (decide (k0 = k)) as [->|Hne].
  - rewrite last_cons, decide_True by done. by destruct (last _).
  - rewrite decide_False by done. done.
Qed.

Lemma entries_set_all_keys_in es m :
  (∀ kv, kv ∈ es → kv.1 ∈ m.*1) → (entries_set_all es m).*1 = m.*1.
Proof.
  unfold entries_set_all. revert m. induction es as [|[k v] es IH]; intros m Hin; [done|].
  simpl. assert (k ∈ m.*1) as Hk by (apply (Hin (k, v)), elem_of_cons; by left).
  rewrite IH.
  - by rewrite entries_set_keys, decide_True.
  - intros kv Hkv. rewrite entries_set_keys, decide_True by done.
    apply Hin, elem_of_cons. by right.
Qed.

Lemma entries_get_None k m : entries_get k m = None ↔ k ∉ m.*1.
Proof.
  induction m as [|[k' v'] m IH]; csimpl.
  - split; [intros _; apply not_elem_of_nil|done].
  - rewrite not_elem_of_cons. destruct (decide (k = k')) as [->|Hne].
    + split; [done|intros [? _]; done].
    + rewrite IH. tauto.
Qed.

(** Two maps with the same keys in the same order and the same value
    under each key are the same map. *)
Lemma entries_eq m1 m2 :
  m1.*1 = m2.*1 → NoDup m1.*1 →
  (∀ k, entries_get k m1 = entries_get k m2) → m1 = m2.
Proof.
  revert m2. induction m1 as [|[k v] m1 IH]; intros [|[k' v'] m2]; csimpl; try done.
  intros [= <- Hkeys] [Hk Hnd]%NoDup_cons Hget. f_equal.
  - specialize (Hget k). rewrite !decide_True in Hget by done. congruence.
  - apply IH; [done|done|]. intros k0. specialize (Hget k0).
    destruct (decide (k0 = k)) as [->|Hne]; [|done].
    apply entries_get_None in Hk as Hk1. rewrite Hkeys in Hk.
    apply entries_get_None in Hk. congruence.
Qed.
End EntryMapFacts.

(** ** DexScreenerProvider.fetchTokens *)

Lemma dex_onResponse_length parseFloat clock pairs :
  (length (DexScreener.onResponse parseFloat clock pairs) ≤ 5)%nat.
Proof.
  unfold DexScreener.onResponse. destruct pairs as [l|]; [|simpl; lia].
  destruct (0 <? length l)%nat; [|simpl; lia].
  rewrite length_imap, length_take. lia.
Qed.

Lemma dex_onResponse_elem_of parseFloat clock pairs t :
  t ∈ DexScreener.onResponse parseFloat clock pairs →
  ∃ l pair now, pairs = Some l ∧ pair ∈ l
                ∧ DexScreener.chainId pair = Some "solana"
                ∧ t = DexScreener.transformToToken parseFloat now pair.
Proof.
  unfold DexScreener.onResponse. destruct pairs as [l|]; [|by intros ?%elem_of_nil].
  destruct (0 <? length l)%nat; [|by intros ?%elem_of_nil].
  intros (i & pair & -> & Hi)%elem_of_lookup_imap_1.
  apply list_elem_of_lookup_2 in Hi.
  pose proof (elem_of_sublist _ _ _ Hi (sublist_take _ 5)) as Hfiltered.
  apply list_elem_of_filter in Hfiltered as [Hsolana Hin].
  by exists l, pair, (clock i).
Qed.

Lemma dex_onResponse_origin parseFloat clock pairs t :
  t ∈ DexScreener.onResponse parseFloat clock pairs →
  ∃ l pair now,
    pairs = Some l
    ∧ pair ∈ take 5 (filter (λ pair, DexScreener.chainId pair = Some "solana") l)
    ∧ t = DexScreener.transformToToken parseFloat now pair.
Proof.
  unfold DexScreener.onResponse. destruct pairs as [l|]; [|by intros ?%elem_of_nil].
  destruct (0 <? length l)%nat; [|by intros ?%elem_of_nil].
  intros (i & pair & -> & Hi)%elem_of_lookup_imap_1.
  apply list_elem_of_lookup_2 in Hi. by exists l, pair, (clock i).
Qed.

Lemma dex_search_cases parseFloat clock fn this :
  (∃ pairs, (retryWithBackoff fn 0 config.rateLimit.maxRetries this).1 = Resolved pairs
            ∧ (search (DexScreener.onResponse parseFloat clock) fn this).1
              = DexScreener.onResponse parseFloat clock pairs)
  ∨ (∃ e, (retryWithBackoff fn 0 config.rateLimit.maxRetries this).1 = Rejected e
          ∧ (search (DexScreener.onResponse parseFloat clock) fn this).1 = []).
Proof.
  unfold search.
  destruct (retryWithBackoff fn 0 config.rateLimit.maxRetries this) as [[pairs|e] this'].
  - left. by exists pairs.
  - right. by exists e.
Qed.

Lemma concat_length_bound {A} (ls : list (list A)) n :
  Forall (λ l, (length l ≤ n)%nat) ls → (length (concat ls) ≤ n * length ls)%nat.
Proof.
  induction 1 as [|l ls Hl _ IH]; simpl; [lia|].
  rewrite length_app. lia.
Qed.

Lemma elem_of_concat {A} (x : A) (ls : list (list A)) :
  x ∈ concat ls → ∃ l, l ∈ ls ∧ x ∈ l.
Proof.
  induction ls as [|l ls IH]; simpl; [by intros ?%elem_of_nil|].
  intros [Hin|Hin]%elem_of_app.
  - exists l. split; [apply elem_of_cons; by left|done].
  - destruct (IH Hin) as (l' & Hl' & Hx). exists l'.
    split; [apply elem_of_cons; by right|done].
Qed.

Lemma Map_of_addresses (tokens : list Token) :
  token_address <$> (Map_of ((λ t, (token_address t, t)) <$> tokens)).*2
  = (Map_of ((λ t, (token_address t, t)) <$> tokens)).*1.
Proof.
  rewrite <- list_fmap_compose. apply list_fmap_ext. intros i [k t] Hi. simpl.
  apply list_elem_of_lookup_2, entries_set_all_elem_of in Hi as [Hin|Hin].
  - apply list_elem_of_fmap in Hin as (t' & [= -> ->] & _). done.
  - by apply elem_of_nil in Hin.
Qed.

(** X11.  Whatever the six searches answer, [fetchTokens] of DexScreener
    resolves (it never rejects); no two of its tokens share an address;
    every one of them is made by [transformToToken] of a pair that is among
    the first five Solana pairs of the response to one of the six
    searches, and names ['DexScreener'] as its one source; and there are
    at most 30, which the six searches of at most five pairs each cannot
    exceed, so that [slice(0, 30)] never cuts a token off. *)
Theorem dex_fetch_tokens parseFloat clock request this :
  NoDup (token_address <$> DexScreener.fetchTokens parseFloat clock request this)
  ∧ (length (DexScreener.fetchTokens parseFloat clock request this) ≤ 30)%nat
  ∧ DexScreener.fetchTokens parseFloat clock request this
    = (Map_of ((λ t, (token_address t, t))
               <$> concat ((λ searchTerm,
                              (search (DexScreener.onResponse parseFloat
                                         (clock searchTerm))
                                 (request searchTerm) this).1)
                           <$> DexScreener.searches))).*2
  ∧ ∀ t, t ∈ DexScreener.fetchTokens parseFloat clock request this →
      sources t = Some ["DexScreener"]
      ∧ ∃ searchTerm pairs pair now,
          searchTerm ∈ DexScreener.searches
          ∧ (retryWithBackoff (request searchTerm) 0 config.rateLimit.maxRetries
               this).1 = Resolved (Some pairs)
          ∧ pair ∈ take 5 (filter (λ pair, DexScreener.chainId pair = Some "solana")
                             pairs)
          ∧ DexScreener.chainId pair = Some "solana"
          ∧ t = DexScreener.transformToToken parseFloat now pair.
Proof.
  unfold DexScreener.fetchTokens, DexScreener.uniqueTokens.
  set (results := (λ searchTerm, (search _ (request searchTerm) this).1)
                  <$> DexScreener.searches).
  set (m := Map_of ((λ t, (token_address t, t)) <$> concat results)).
  assert (Forall (λ l, (length l ≤ 5)%nat) results) as Hfive.
  { unfold results. apply Forall_fmap, Forall_forall. intros term _. simpl.
    destruct (dex_search_cases parseFloat (clock term) (request term) this)
      as [(pairs & _ & ->)|(e & _ & ->)]; [apply dex_onResponse_length|simpl; lia]. }
  assert (length m.*2 ≤ 30)%nat as Hlen.
  { rewrite length_fmap. unfold m, Map_of.
    etrans; [apply entries_set_all_length|]. simpl. rewrite length_fmap.
    etrans; [apply (concat_length_bound _ 5 Hfive)|]. unfold results.
    rewrite length_fmap. simpl. lia. }
  rewrite take_ge by done. split_and!; [|done|done|].
  - unfold m. rewrite Map_of_addresses. apply entries_set_all_NoDup. constructor.
  - intros t Ht. apply list_elem_of_fmap in Ht as ([k t'] & -> & Hin). simpl.
    apply entries_set_all_elem_of in Hin as [Hin|Hin]; [|by apply elem_of_nil in Hin].
    apply list_elem_of_fmap in Hin as (t & [= -> ->] & Hin).
    apply elem_of_concat in Hin as (l & Hl & Hin).
    apply list_elem_of_fmap in Hl as (term & -> & Hterm).
    destruct (dex_search_cases parseFloat (clock term) (request term) this)
      as [(pairs & Hresolved & Heq)|(e & _ & Heq)]; rewrite Heq in Hin.
    + apply dex_onResponse_origin in Hin as (l & pair & now & -> & Hpair & ->).
      split; [done|]. exists term, l, pair, now. split_and!; try done.
      pose proof (elem_of_sublist _ _ _ Hpair (sublist_take _ 5)) as Hfiltered.
      by apply list_elem_of_filter in Hfiltered as [Hsolana _].
    + by apply elem_of_nil in Hin.
Qed.

Lemma dex_fetch_tokens_witness :
  sources (DexScreener.transformToToken (λ _, of_Z 0) (of_Z 0)
             (sample_pair "solana" "DezX" 5))
  = Some ["DexScreener"]
  ∧ ∃ searchTerm pairs pair now,
      searchTerm ∈ DexScreener.searches
      ∧ (retryWithBackoff
           (responds (Some [sample_pair "ethereum" "0xab" 9;
                            sample_pair "solana" "DezX" 5]))
           0 config.rateLimit.maxRetries (mkProvider 0 [])).1 = Resolved (Some pairs)
      ∧ pair ∈ take 5 (filter (λ pair, DexScreener.chainId pair = Some "solana") pairs)
      ∧ DexScreener.chainId pair = Some "solana"
      ∧ DexScreener.transformToToken (λ _, of_Z 0) (of_Z 0)
          (sample_pair "solana" "DezX" 5)
        = DexScreener.transformToToken (λ _, of_Z 0) now pair.
Proof.
  apply (proj2 (proj2 (proj2
           (dex_fetch_tokens (λ _, of_Z 0) (λ _ _, of_Z 0)
              (λ _, responds (Some [sample_pair "ethereum" "0xab" 9;
                                    sample_pair "solana" "DezX" 5]))
              (mkProvider 0 []))))).
  vm_compute. apply elem_of_cons. by left.
Defined.

(** X12.  When every one of the six searches ends rejected (after its
    retries or on an error that is not retried), [fetchTokens] of
    DexScreener resolves to the empty list. *)
Theorem dex_fetch_all_rejected parseFloat clock request this :
  (∀ searchTerm, searchTerm ∈ DexScreener.searches →
     ∃ e, (retryWithBackoff (request searchTerm) 0 config.rateLimit.maxRetries
             this).1 = Rejected e) →
  DexScreener.fetchTokens parseFloat clock request this = [].
Proof.
  intros Hrejected.
  assert (∀ term, term ∈ DexScreener.searches →
            (search (DexScreener.onResponse parseFloat (clock term)) (request term)
               this).1 = []) as Hempty.
  { intros term Hterm. destruct (Hrejected term Hterm) as (e & He).
    destruct (dex_search_cases parseFloat (clock term) (request term) this)
      as [(pairs & Hres & _)|(e' & _ & ->)]; [congruence|done]. }
  unfold DexScreener.fetchTokens, DexScreener.searches in *.
  cbn [fmap list_fmap].
  rewrite !Hempty by (repeat (apply elem_of_cons; (by left) || right)).
  reflexivity.
Qed.

Lemma dex_fetch_all_rejected_witness :
  DexScreener.fetchTokens (λ _, of_Z 0) (λ _ _, of_Z 0) (λ _, always_fails)
    (mkProvider 0 [])
  = [].
Proof.
  apply (dex_fetch_all_rejected (λ _, of_Z 0) (λ _ _, of_Z 0) (λ _, always_fails)
           (mkProvider 0 [])).
  intros searchTerm _. by eexists.
Defined.

(** ** JupiterProvider.fetchTokens *)

(** X13.  [fetchTokens] of Jupiter resolves whatever the request does: to
    at most 20 tokens, as many as the response has up to that, each made by
    [transformToToken] and naming ['Jupiter'] as its protocol and its one
    source; and to the empty list when the request ends rejected or the
    response holds no array. *)
Theorem jupiter_fetch_tokens clock request this :
  (length (Jupiter.fetchTokens clock request this).1 ≤ 20)%nat
  ∧ (∀ t, t ∈ (Jupiter.fetchTokens clock request this).1 →
       sources t = Some ["Jupiter"] ∧ protocol t = "Jupiter"
       ∧ ∃ jupToken now, t = Jupiter.transformToToken now jupToken)
  ∧ (∀ l, (retryWithBackoff request 0 config.rateLimit.maxRetries this).1
          = Resolved (Some l) →
       length (Jupiter.fetchTokens clock request this).1 = (length l `min` 20)%nat)
  ∧ (∀ e, (retryWithBackoff request 0 config.rateLimit.maxRetries this).1
          = Rejected e →
       (Jupiter.fetchTokens clock request this).1 = [])
  ∧ ((retryWithBackoff request 0 config.rateLimit.maxRetries this).1
     = Resolved None →
     (Jupiter.fetchTokens clock request this).1 = []).
Proof.
  unfold Jupiter.fetchTokens.
  destruct (retryWithBackoff request 0 config.rateLimit.maxRetries this)
    as [[[l|]|e] this']; simpl; split_and!; try done; try (simpl; lia);
    try (by intros t ?%elem_of_nil).
  - rewrite length_imap, length_take. lia.
  - intros t (i & j & -> & _)%elem_of_lookup_imap_1. split_and!; [done|done|].
    by exists j, (clock i).
  - intros l' [= <-]. rewrite length_imap, length_take. lia.
Qed.

Lemma jupiter_fetch_tokens_witness :
  length (Jupiter.fetchTokens (λ _, of_Z 0)
            (responds (Some (replicate 25 (sample_jupiter_token "So11"))))
            (mkProvider 0 [])).1
  = (length (replicate 25 (sample_jupiter_token "So11")) `min` 20)%nat
  ∧ (Jupiter.fetchTokens (λ _, of_Z 0) always_fails (mkProvider 0 [])).1 = [].
Proof.
  split.
  - apply (proj1 (proj2 (proj2 (jupiter_fetch_tokens (λ _, of_Z 0)
             (responds (Some (replicate 25 (sample_jupiter_token "So11"))))
             (mkProvider 0 []))))).
    reflexivity.
  - apply (proj1 (proj2 (proj2 (proj2 (jupiter_fetch_tokens (λ _, of_Z 0)
             always_fails (mkProvider 0 [])))))
             {| code := None; response_status := Some 404%Z |}).
    reflexivity.
Defined.

(** ** The adapters and the merge together *)

Lemma dex_fetched_origin parseFloat clock request this t :
  t ∈ DexScreener.fetchTokens parseFloat clock request this →
  ∃ pair now, t = DexScreener.transformToToken parseFloat now pair.
Proof.
  unfold DexScreener.fetchTokens, DexScreener.uniqueTokens.
  intros Ht. pose proof (elem_of_sublist _ _ _ Ht (sublist_take _ 30)) as Hall.
  apply list_elem_of_fmap in Hall as ([k t'] & -> & Hin). simpl.
  apply entries_set_all_elem_of in Hin as [Hin|Hin]; [|by apply elem_of_nil in Hin].
  apply list_elem_of_fmap in Hin as (t & [= -> ->] & Hin).
  apply elem_of_concat in Hin as (l & Hl & Hin).
  apply list_elem_of_fmap in Hl as (term & -> & _).
  destruct (dex_search_cases parseFloat (clock term) (request term) this)
    as [(pairs & _ & Heq)|(e & _ & Heq)]; rewrite Heq in Hin.
  - apply dex_onResponse_elem_of in Hin as (l & pair & now & _ & _ & _ & ->).
    by exists pair, now.
  - by apply elem_of_nil in Hin.
Qed.

Lemma jupiter_fetched_origin clock request this t :
  t ∈ (Jupiter.fetchTokens clock request this).1 →
  ∃ jupToken now, t = Jupiter.transformToToken now jupToken.
Proof.
  unfold Jupiter.fetchTokens.
  destruct (retryWithBackoff request 0 config.rateLimit.maxRetries this)
    as [[[l|]|e] this']; simpl; try (by intros ?%elem_of_nil).
  intros (i & j & -> & _)%elem_of_lookup_imap_1. by exists j, (clock i).
Qed.

Lemma records_with_key_elem_of K (l : list Token) t :
  t ∈ records_with_key K (Some <$> l) → t ∈ l ∧ has_key K t.
Proof.
  unfold records_with_key. intros [HK Hin]%list_elem_of_filter. split; [|done].
  apply list_elem_of_omap in Hin as (o & Ho & Heq). simpl in Heq. subst o.
  apply list_elem_of_fmap in Ho as (t' & [= ->] & Ht'). done.
Qed.

Lemma records_with_key_at_most_one K l :
  NoDup (input_keys l) → (length (records_with_key K l) ≤ 1)%nat.
Proof.
  unfold input_keys. induction l as [|o l IH]; csimpl; [lia|].
  rewrite records_with_key_cons. destruct o as [t|]; csimpl; [|done].
  destruct (decide (has_key K t)) as [HK|HK].
  - unfold has_key in HK. rewrite HK. csimpl. intros [Hout _]%NoDup_cons.
    fold (input_keys l) in Hout. rewrite input_keys_records in Hout.
    destruct (records_with_key K l); [simpl; lia|]. by destruct Hout.
  - destruct (merge_key (Some t)); csimpl; [|done].
    intros [_ Hnd]%NoDup_cons. by apply IH.
Qed.

Lemma merged_record_origin dex jup r :
  r ∈ mergeTokens dex jup →
  ∃ K, has_key K r
       ∧ match last (records_with_key K dex) with
         | Some p => r = fold_left merge_existing (records_with_key K jup) p
         | None => ∃ j js, records_with_key K jup = j :: js
                           ∧ r = fold_left merge_existing js j
         end.
Proof.
  unfold mergeTokens, map_values.
  intros ([K r'] & -> & Hin)%list_elem_of_fmap. simpl. exists K.
  split; [by apply (merge_map_keyed dex jup)|].
  apply elem_of_map_get in Hin; [|apply merge_map_NoDup].
  rewrite merge_map_get in Hin.
  destruct (last (records_with_key K dex)) as [p|].
  - rewrite jupiter_combine_fold in Hin. congruence.
  - destruct (records_with_key K jup) as [|j js]; [done|].
    exists j, js. split; [done|]. simpl in Hin. unfold jupiter_combine at 2 in Hin.
    rewrite jupiter_combine_fold in Hin. congruence.
Qed.

(** X14.  From the adapters to the merge: when the tokens Jupiter
    returned have pairwise different identity keys, every record that
    [mergeTokens] makes of the two adapters' tokens lists its sources as
    ['DexScreener'], as ['Jupiter'], or as ['DexScreener', 'Jupiter']: each
    source at most once, the primary first. *)
Theorem merged_sources_of_adapters parseFloat dexClock dexRequest dexThis
    jupiterClock jupiterRequest jupiterThis r :
  NoDup (input_keys
           (Some <$> (Jupiter.fetchTokens jupiterClock jupiterRequest jupiterThis).1)) →
  r ∈ mergeTokens
        (Some <$> DexScreener.fetchTokens parseFloat dexClock dexRequest dexThis)
        (Some <$> (Jupiter.fetchTokens jupiterClock jupiterRequest jupiterThis).1) →
  sources r = Some ["DexScreener"]
  ∨ sources r = Some ["Jupiter"]
  ∨ sources r = Some ["DexScreener"; "Jupiter"].
Proof.
  set (dex := DexScreener.fetchTokens _ _ _ _).
  set (jup := (Jupiter.fetchTokens _ _ _).1).
  intros Hnd (K & HK & Horigin)%merged_record_origin.
  pose proof (records_with_key_at_most_one K _ Hnd) as Hone.
  assert (∀ j, j ∈ records_with_key K (Some <$> jup) → sources j = Some ["Jupiter"])
    as Hjup.
  { intros j [Hj _]%records_with_key_elem_of.
    by apply jupiter_fetched_origin in Hj as (jupToken & now & ->). }
  destruct (last (records_with_key K (Some <$> dex))) as [p|] eqn:Hlast.
  - assert (sources p = Some ["DexScreener"]) as Hp.
    { apply last_Some_elem_of, records_with_key_elem_of in Hlast as [Hp _].
      by apply dex_fetched_origin in Hp as (pair & now & ->). }
    destruct (records_with_key K (Some <$> jup)) as [|j [|j' js]];
      [| |simpl in Hone; lia]; subst r; simpl.
    + by left.
    + right. right. unfold sources_or_empty. by rewrite Hp.
  - destruct Horigin as (j & js & Heq & ->). rewrite Heq in Hone, Hjup.
    destruct js; [|simpl in Hone; lia]. simpl. right. left.
    apply Hjup, elem_of_cons. by left.
Qed.

Lemma merged_sources_of_adapters_witness :
  sources (Jupiter.transformToToken (of_Z 0) (sample_jupiter_token "So11"))
    = Some ["DexScreener"]
  ∨ sources (Jupiter.transformToToken (of_Z 0) (sample_jupiter_token "So11"))
    = Some ["Jupiter"]
  ∨ sources (Jupiter.transformToToken (of_Z 0) (sample_jupiter_token "So11"))
    = Some ["DexScreener"; "Jupiter"].
Proof.
  apply (merged_sources_of_adapters (λ _, of_Z 0) (λ _ _, of_Z 0)
           (λ _, always_fails) (mkProvider 0 [])
           (λ _, of_Z 0) (responds (Some [sample_jupiter_token "So11"]))
           (mkProvider 0 [])).
  - apply NoDup_ListNoDup. vm_compute.
    repeat (constructor; [simpl; intuition congruence|]). constructor.
  - assert (mergeTokens
              (Some <$> DexScreener.fetchTokens (λ _, of_Z 0) (λ _ _, of_Z 0)
                          (λ _, always_fails) (mkProvider 0 []))
              (Some <$> (Jupiter.fetchTokens (λ _, of_Z 0)
                           (responds (Some [sample_jupiter_token "So11"]))
                           (mkProvider 0 [])).1)
            = [Jupiter.transformToToken (of_Z 0) (sample_jupiter_token "So11")])
      as -> by reflexivity.
    apply list_elem_of_singleton. reflexivity.
Defined.

(** ** CoinGeckoProvider *)

Lemma find_mapping_None mappings a :
  CoinGecko.find_mapping mappings a = None ↔ unmapped mappings a.
Proof.
  unfold CoinGecko.find_mapping, unmapped.
  destruct (list_find _ mappings) as [[i m]|] eqn:E; simpl.
  - split; [done|]. intros Hno. apply list_find_Some in E as (Hi & Hm & _).
    exfalso. apply (Hno m); [by eapply list_elem_of_lookup_2|done].
  - split; [|done]. intros _ m Hm. apply list_find_None in E.
    rewrite Forall_forall in E. by apply E.
Qed.

Lemma find_mapping_Some mappings a m :
  CoinGecko.find_mapping mappings a = Some m →
  m ∈ mappings ∧ toLowerCase (CoinGecko.address m) = toLowerCase a.
Proof.
  unfold CoinGecko.find_mapping.
  destruct (list_find _ mappings) as [[i m']|] eqn:E; simpl; [|done].
  intros [= ->]. apply list_find_Some in E as (Hi & Hm & _).
  split; [by eapply list_elem_of_lookup_2|done].
Qed.



(** X16.  Mappings are looked up without regard to letter case, and the
    first one wins: [addTokenMapping] for an address that has a mapping
    already (letter case aside) changes the answer of no lookup, while for
    an address that has none it serves that address and leaves every other
    lookup as it was. *)
Theorem add_mapping_first_wins mappings address coingeckoId :
  ((∃ m, m ∈ mappings
         ∧ toLowerCase (CoinGecko.address m) = toLowerCase address) →
   ∀ a, CoinGecko.find_mapping
          (CoinGecko.addTokenMapping mappings address coingeckoId) a
        = CoinGecko.find_mapping mappings a)
  ∧ (unmapped mappings address →
     ∀ a, CoinGecko.find_mapping
            (CoinGecko.addTokenMapping mappings address coingeckoId) a
          = if decide (toLowerCase a = toLowerCase address)
            then Some (CoinGecko.mkTokenMapping address coingeckoId)
            else CoinGecko.find_mapping mappings a).
Proof.
  assert (∀ a, CoinGecko.find_mapping
                 (CoinGecko.addTokenMapping mappings address coingeckoId) a
               = match CoinGecko.find_mapping mappings a with
                 | Some m => Some m
                 | None => if decide (toLowerCase address = toLowerCase a)
                           then Some (CoinGecko.mkTokenMapping address coingeckoId)
                           else None
                 end) as Hadd.
  { intros a. unfold CoinGecko.find_mapping, CoinGecko.addTokenMapping.
    destruct (list_find _ mappings) as [[i m]|] eqn:E.
    - by rewrite (list_find_app_l _ _ _ _ _ E).
    - rewrite (list_find_app_r _ _ _ E). simpl.
      by destruct (decide (toLowerCase address = toLowerCase a)). }
  split.
  - intros (m & Hm & Hlower) a. rewrite Hadd.
    destruct (CoinGecko.find_mapping mappings a) eqn:E; [done|].
    rewrite decide_False; [done|]. intros Heq.
    apply find_mapping_None in E. apply (E m Hm). congruence.
  - intros Hun a. rewrite Hadd.
    destruct (decide (toLowerCase a = toLowerCase address)) as [Heq|Hne].
    + assert (CoinGecko.find_mapping mappings a = None) as ->.
      { apply find_mapping_None. intros m Hm. rewrite Heq. by apply Hun. }
      by rewrite decide_True.
    + destruct (CoinGecko.find_mapping mappings a); [done|].
      by rewrite decide_False.
Qed.

Lemma add_mapping_first_wins_witness :
  CoinGecko.find_mapping
    (CoinGecko.addTokenMapping CoinGecko.tokenMappings
       "so11111111111111111111111111111111111111112" "wrapped-solana")
    "SO11111111111111111111111111111111111111112"
  = CoinGecko.find_mapping CoinGecko.tokenMappings
      "SO11111111111111111111111111111111111111112".
Proof.
  apply (proj1 (add_mapping_first_wins CoinGecko.tokenMappings
                  "so11111111111111111111111111111111111111112" "wrapped-solana")).
  exists (CoinGecko.mkTokenMapping "So11111111111111111111111111111111111111112"
            "solana").
  split; [|reflexivity].
  unfold CoinGecko.tokenMappings.
  do 2 (apply elem_of_cons; right). apply elem_of_cons. by left.
Defined.

(** ** Aggregator.getCacheKey *)

(** X17.  For the periods that [FilterOptions] declares (or none), two
    queries share a cache key exactly when they agree on the period and on
    the sort key, an unset or empty [sortBy] counting as ['default'],
    whatever string [sortBy] is; the limit, the cursor and [skipCache] play
    no part. *)
Theorem cache_key_per_query_shape o1 o2 :
  period o1 ∈ declared_periods →
  period o2 ∈ declared_periods →
  getCacheKey o1 = getCacheKey o2
  ↔ period o1 = period o2
    ∧ string_or (sortBy o1) "default" = string_or (sortBy o2) "default".
Proof.
  unfold getCacheKey, declared_periods. intros H1 H2. split.
  - repeat (apply elem_of_cons in H1 as [->|H1]);
      try (by apply elem_of_nil in H1);
      repeat (apply elem_of_cons in H2 as [->|H2]);
      try (by apply elem_of_nil in H2);
      simpl; intros Heq; simplify_eq; done.
  - intros [-> ->]. done.
Qed.

Lemma cache_key_per_query_shape_witness :
  getCacheKey {| period := Some "24h"; sortBy := Some "volume"; limit := Some (of_Z 5);
                 cursor := None; skipCache := None |}
  = getCacheKey {| period := Some "24h"; sortBy := Some "volume"; limit := None;
                   cursor := Some "c"; skipCache := Some true |}
  ↔ Some "24h" = Some "24h"
    ∧ string_or (Some "volume") "default" = string_or (Some "volume") "default".
Proof.
  apply (cache_key_per_query_shape
           {| period := Some "24h"; sortBy := Some "volume"; limit := Some (of_Z 5);
              cursor := None; skipCache := None |}
           {| period := Some "24h"; sortBy := Some "volume"; limit := None;
              cursor := Some "c"; skipCache := Some true |});
    unfold declared_periods; simpl;
    do 2 (apply elem_of_cons; right); apply elem_of_cons; by left.
Defined.

(** ** CacheService and Aggregator.getTokens *)

Section GetTokensFacts.
Context {Redis : Type}.
Variable client_get : string → Redis → Cache.Completion (option string) * Redis.
Variable client_setex :
  string → num → string → Redis → Cache.Completion unit * Redis.
Variable JSON_parse : string → Cache.Completion (option (list Token)).
Variable JSON_stringify : list Token → string.

Lemma cache_set_returns key value ttl (this : Cache.Service (Redis := Redis)) :
  (Cache.set client_setex JSON_stringify key value ttl this).1 = Cache.Returns tt.
Proof.
  unfold Cache.set, Cache.try_catch, Cache.bind, Cache.read_isConnected, Cache.ret,
    Cache.command.
  destruct (Cache.isConnected this); simpl; [|done].
  by destruct (client_setex _ _ _ _) as [[[]|e] redis'].
Qed.

Lemma cache_set_connection key value ttl (this : Cache.Service (Redis := Redis)) :
  Cache.isConnected (Cache.set client_setex JSON_stringify key value ttl this).2
  = Cache.isConnected this.
Proof.
  unfold Cache.set, Cache.try_catch, Cache.bind, Cache.read_isConnected, Cache.ret,
    Cache.command.
  destruct (Cache.isConnected this) eqn:E; simpl; [|done].
  by destruct (client_setex _ _ _ _) as [[[]|e] redis'].
Qed.

Lemma cache_get_returns key (this : Cache.Service (Redis := Redis)) :
  ∃ cached, (Cache.get client_get JSON_parse key this).1 = Cache.Returns cached.
Proof.
  unfold Cache.get, Cache.try_catch, Cache.ret.
  destruct (Cache.bind _ _ this) as [[cached|e] this']; by eexists.
Qed.

Lemma cache_set_connected key value ttl (this : Cache.Service (Redis := Redis))
    r redis1 :
  Cache.isConnected this = true →
  client_setex key (default Cache.default_ttl ttl) (JSON_stringify value)
    (Cache.client this) = (r, redis1) →
  (Cache.set client_setex JSON_stringify key value ttl this).2
  = Cache.mkService true redis1.
Proof.
  intros Hup Hset.
  unfold Cache.set, Cache.try_catch, Cache.bind, Cache.read_isConnected, Cache.ret,
    Cache.command.
  rewrite Hup. simpl. rewrite Hset. destruct r; simpl; by rewrite Hup.
Qed.

Lemma cache_get_hit key (this : Cache.Service (Redis := Redis)) text cached redis' :
  Cache.isConnected this = true →
  client_get key (Cache.client this) = (Cache.Returns (Some text), redis') →
  text ≠ "" →
  JSON_parse text = Cache.Returns cached →
  Cache.get client_get JSON_parse key this
  = (Cache.Returns cached, Cache.mkService true redis').
Proof.
  intros Hup Hget Htext Hparse.
  unfold Cache.get, Cache.try_catch, Cache.bind, Cache.read_isConnected, Cache.ret,
    Cache.command, Cache.pure_call.
  rewrite Hup. simpl. rewrite Hget. simpl.
  rewrite decide_False by done. rewrite Hparse, Hup. by destruct cached.
Qed.

(** X18.  Set, then get.  On a connection that is up, with a Redis that
    takes the text and gives it back under the key and a [JSON.parse] that
    reads back what [JSON.stringify] wrote, [get] after [set] returns the
    tokens that were set. *)
Theorem cache_set_then_get key value ttl (this : Cache.Service (Redis := Redis))
    redis1 redis2 :
  Cache.isConnected this = true →
  client_setex key (default Cache.default_ttl ttl) (JSON_stringify value)
    (Cache.client this) = (Cache.Returns tt, redis1) →
  client_get key redis1 = (Cache.Returns (Some (JSON_stringify value)), redis2) →
  JSON_stringify value ≠ "" →
  JSON_parse (JSON_stringify value) = Cache.Returns (Some value) →
  Cache.get client_get JSON_parse key
    (Cache.set client_setex JSON_stringify key value ttl this).2
  = (Cache.Returns (Some value), Cache.mkService true redis2).
Proof.
  intros Hup Hset Hget Htext Hparse.
  rewrite (cache_set_connected _ _ _ _ _ _ Hup Hset).
  by apply (cache_get_hit _ _ (JSON_stringify value)).
Qed.

Variable dexTokens jupiterTokens : list Token.
Variable enrich7DayData : list Token → list Token.

Abbreviation merged :=
  (enrich7DayData (mergeTokens (Some <$> dexTokens) (Some <$> jupiterTokens))).
Abbreviation getTokens_here :=
  (getTokens client_get client_setex JSON_parse JSON_stringify dexTokens
     jupiterTokens enrich7DayData).

Lemma fetch_live_result cacheKey options (this : Cache.Service (Redis := Redis)) :
  fetch_live client_setex JSON_stringify dexTokens jupiterTokens enrich7DayData
    cacheKey options this
  = (Cache.Returns (applyFiltersAndSort merged options),
     (Cache.set client_setex JSON_stringify cacheKey merged None this).2).
Proof.
  unfold fetch_live, Cache.bind.
  pose proof (cache_set_returns cacheKey merged None this) as Hset.
  destruct (Cache.set _ _ _ _ _ this) as [r this']. simpl in Hset. by rewrite Hset.
Qed.

Lemma getTokens_when_down options (this : Cache.Service (Redis := Redis)) :
  Cache.isConnected this = false →
  getTokens_here options this
  = (Cache.Returns (applyFiltersAndSort merged options), this).
Proof.
  intros Hdown. unfold getTokens.
  assert (fetch_live client_setex JSON_stringify dexTokens jupiterTokens
            enrich7DayData (getCacheKey options) options this
          = (Cache.Returns (applyFiltersAndSort merged options), this)) as Hlive.
  { rewrite fetch_live_result. f_equal.
    unfold Cache.set, Cache.try_catch, Cache.bind, Cache.read_isConnected, Cache.ret.
    by rewrite Hdown. }
  destruct (skipCache options) as [[]|]; [done| |];
    unfold Cache.bind at 1, Cache.get, Cache.try_catch, Cache.bind,
      Cache.read_isConnected, Cache.ret; rewrite Hdown; simpl; exact Hlive.
Qed.

Lemma cache_get_miss key (this : Cache.Service (Redis := Redis)) reply redis' :
  Cache.isConnected this = true →
  client_get key (Cache.client this) = (reply, redis') →
  gives_nothing JSON_parse reply →
  Cache.get client_get JSON_parse key this = (Cache.Returns None, Cache.mkService true redis').
Proof.
  intros Hup Hget Hnothing.
  unfold Cache.get, Cache.try_catch, Cache.bind, Cache.read_isConnected, Cache.ret,
    Cache.command, Cache.pure_call.
  rewrite Hup. simpl. rewrite Hget. unfold gives_nothing in Hnothing.
  destruct reply as [data|e]; simpl; [|by rewrite Hup].
  destruct (truthy_string data) as [text|]; simpl; [|by rewrite Hup].
  destruct (JSON_parse text) as [[tokens|]|e]; simpl; rewrite ?Hup; try done.
  by destruct (Hnothing tokens).
Qed.

(** X19.  [getTokens] answers from the fresh merge, and does not reject,
    whenever the cache has nothing for it to read: when the query skips
    the cache; when the connection is down, and then it leaves the cache
    service as it was; and, on a connection that is up, when the [GET]
    fails, when no text or the empty text is stored under the key, and
    when [JSON.parse] throws on the text or makes [null] of it. *)
Theorem getTokens_falls_back_to_live options (this : Cache.Service (Redis := Redis)) :
  (skipCache options = Some true ∨ Cache.isConnected this = false →
     (getTokens_here options this).1
     = Cache.Returns (applyFiltersAndSort merged options))
  ∧ (Cache.isConnected this = false → (getTokens_here options this).2 = this)
  ∧ (∀ reply redis',
       Cache.isConnected this = true →
       client_get (getCacheKey options) (Cache.client this) = (reply, redis') →
       gives_nothing JSON_parse reply →
       (getTokens_here options this).1
       = Cache.Returns (applyFiltersAndSort merged options)).
Proof.
  assert (Cache.isConnected this = false →
          getTokens_here options this
          = (Cache.Returns (applyFiltersAndSort merged options), this)) as Hdown.
  { intros Hdown. unfold getTokens.
    assert (fetch_live client_setex JSON_stringify dexTokens jupiterTokens
              enrich7DayData (getCacheKey options) options this
            = (Cache.Returns (applyFiltersAndSort merged options), this)) as Hlive.
    { rewrite fetch_live_result. f_equal.
      unfold Cache.set, Cache.try_catch, Cache.bind, Cache.read_isConnected, Cache.ret.
      by rewrite Hdown. }
    destruct (skipCache options) as [[]|]; [done| |];
      unfold Cache.bind at 1, Cache.get, Cache.try_catch, Cache.bind,
        Cache.read_isConnected, Cache.ret; rewrite Hdown; simpl; exact Hlive. }
  assert (skipCache options = Some true →
          (getTokens_here options this).1
          = Cache.Returns (applyFiltersAndSort merged options)) as Hskip.
  { intros Hskip. unfold getTokens. rewrite Hskip. by rewrite fetch_live_result. }
  split_and!.
  - intros [Hskip'|Hdown']; [by apply Hskip|by rewrite Hdown].
  - intros Hdown'. by rewrite Hdown.
  - intros reply redis' Hup Hget Hnothing.
    destruct (decide (skipCache options = Some true)) as [Hskip'|Hread];
      [by apply Hskip|].
    pose proof (cache_get_miss _ _ _ _ Hup Hget Hnothing) as Hmiss.
    unfold getTokens.
    destruct (skipCache options) as [[]|]; [done| |];
      unfold Cache.bind at 1; rewrite Hmiss; by rewrite fetch_live_result.
Qed.

(** X20.  A hit is served from the cache alone: when the connection is
    up, the query does not skip the cache, and Redis holds a text under the
    query's key that parses to tokens, [getTokens] answers with those
    tokens, filtered, sorted and cut for the query; the fresh data play no
    part and nothing is written. *)
Theorem getTokens_hit options (this : Cache.Service (Redis := Redis))
    text cached redis' :
  skipCache options ≠ Some true →
  Cache.isConnected this = true →
  client_get (getCacheKey options) (Cache.client this)
    = (Cache.Returns (Some text), redis') →
  text ≠ "" →
  JSON_parse text = Cache.Returns (Some cached) →
  getTokens_here options this
  = (Cache.Returns (applyFiltersAndSort cached options), Cache.mkService true redis').
Proof.
  intros Hskip Hup Hget Htext Hparse.
  pose proof (cache_get_hit _ _ _ _ _ Hup Hget Htext Hparse) as Hhit.
  unfold getTokens.
  destruct (skipCache options) as [[]|]; [done| |];
    unfold Cache.bind at 1; by rewrite Hhit.
Qed.
End GetTokensFacts.

Lemma cache_set_then_get_witness :
  Cache.get keeping_get sample_parse "tokens:all:default"
    (Cache.set keeping_setex sample_stringify "tokens:all:default" [] None
       (Cache.mkService true ∅)).2
  = (Cache.Returns (Some []),
     Cache.mkService true (<["tokens:all:default" := "[]"]> ∅)).
Proof.
  apply (cache_set_then_get keeping_get keeping_setex sample_parse sample_stringify
           "tokens:all:default" [] None (Cache.mkService true ∅)
           (<["tokens:all:default" := "[]"]> ∅)
           (<["tokens:all:default" := "[]"]> ∅));
    [reflexivity | reflexivity | reflexivity | discriminate | reflexivity].
Defined.

Lemma getTokens_falls_back_to_live_witness :
  (getTokens failing_get keeping_setex sample_parse sample_stringify
     [sample_token (Some "So11") 7 70 "DexScreener"] [] (λ tokens, tokens)
     sample_cached_query (Cache.mkService true ∅)).1
  = Cache.Returns
      (applyFiltersAndSort
         (mergeTokens (Some <$> [sample_token (Some "So11") 7 70 "DexScreener"])
            (Some <$> []))
         sample_cached_query).
Proof.
  apply (proj2 (proj2 (getTokens_falls_back_to_live failing_get keeping_setex
                         sample_parse sample_stringify
                         [sample_token (Some "So11") 7 70 "DexScreener"] []
                         (λ tokens, tokens) sample_cached_query
                         (Cache.mkService true ∅)))
           (Cache.Throws "Connection is closed.") ∅);
    [reflexivity | reflexivity | exact I].
Defined.

Lemma getTokens_hit_witness :
  getTokens keeping_get keeping_setex sample_parse sample_stringify
    [sample_token (Some "So11") 7 70 "DexScreener"] [] (λ tokens, tokens)
    sample_cached_query
    (Cache.mkService true (<["tokens:all:default" := "[]"]> ∅))
  = (Cache.Returns (applyFiltersAndSort [] sample_cached_query),
     Cache.mkService true (<["tokens:all:default" := "[]"]> ∅)).
Proof.
  apply (getTokens_hit keeping_get keeping_setex sample_parse sample_stringify
           [sample_token (Some "So11") 7 70 "DexScreener"] [] (λ tokens, tokens)
           sample_cached_query
           (Cache.mkService true (<["tokens:all:default" := "[]"]> ∅))
           "[]" [] (<["tokens:all:default" := "[]"]> ∅));
    [discriminate | reflexivity | reflexivity | discriminate | reflexivity].
Defined.

(** X21.  What is cached is the merged list before the query's sorting
    and cut, under a key that leaves the limit out: after a call that
    fetched and wrote it (on a connection that is up, with a Redis that
    keeps the text and a [JSON.parse] that reads it back), a later call
    with the same period and sort key is answered from that list, with its
    own limit, and whatever is upstream by then is not looked at. *)
Theorem getTokens_second_call_hits {Redis : Type}
    (client_get : string → Redis → Cache.Completion (option string) * Redis)
    (client_setex : string → num → string → Redis → Cache.Completion unit * Redis)
    (JSON_parse : string → Cache.Completion (option (list Token)))
    (JSON_stringify : list Token → string)
    (dexTokens jupiterTokens dexTokens' jupiterTokens' : list Token)
    (enrich enrich' : list Token → list Token)
    (first second : FilterOptions) (this : Cache.Service (Redis := Redis))
    (redis1 redis2 : Redis) :
  skipCache first = Some true →
  Cache.isConnected this = true →
  client_setex (getCacheKey first) Cache.default_ttl
    (JSON_stringify (enrich (mergeTokens (Some <$> dexTokens) (Some <$> jupiterTokens))))
    (Cache.client this) = (Cache.Returns tt, redis1) →
  client_get (getCacheKey first) redis1
  = (Cache.Returns
       (Some (JSON_stringify
                (enrich (mergeTokens (Some <$> dexTokens) (Some <$> jupiterTokens))))),
     redis2) →
  JSON_stringify (enrich (mergeTokens (Some <$> dexTokens) (Some <$> jupiterTokens)))
  ≠ "" →
  JSON_parse
    (JSON_stringify (enrich (mergeTokens (Some <$> dexTokens) (Some <$> jupiterTokens))))
  = Cache.Returns
      (Some (enrich (mergeTokens (Some <$> dexTokens) (Some <$> jupiterTokens)))) →
  skipCache second ≠ Some true →
  getCacheKey second = getCacheKey first →
  (getTokens client_get client_setex JSON_parse JSON_stringify dexTokens'
     jupiterTokens' enrich' second
     (getTokens client_get client_setex JSON_parse JSON_stringify dexTokens
        jupiterTokens enrich first this).2).1
  = Cache.Returns
      (applyFiltersAndSort
         (enrich (mergeTokens (Some <$> dexTokens) (Some <$> jupiterTokens)))
         second).
Proof.
  intros Hfirst Hup Hset Hget Htext Hparse Hsecond Hkey.
  assert ((getTokens client_get client_setex JSON_parse JSON_stringify dexTokens
             jupiterTokens enrich first this).2 = Cache.mkService true redis1) as ->.
  { unfold getTokens. rewrite Hfirst, fetch_live_result. simpl.
    by apply (cache_set_connected _ _ _ _ _ _ (Cache.Returns tt)). }
  rewrite <- Hkey in Hget.
  pose proof (cache_get_hit client_get JSON_parse (getCacheKey second)
                (Cache.mkService true redis1) _ _ _ eq_refl Hget Htext Hparse) as Hhit.
  unfold getTokens.
  destruct (skipCache second) as [[]|]; [done| |];
    unfold Cache.bind at 1; by rewrite Hhit.
Qed.

Lemma getTokens_second_call_hits_witness :
  (getTokens keeping_get keeping_setex sample_parse sample_stringify
     [sample_token (Some "So11") 7 70 "DexScreener"] [] (λ tokens, tokens)
     sample_cached_query
     (getTokens keeping_get keeping_setex sample_parse sample_stringify
        [] [] (λ tokens, tokens) sample_fresh_query (Cache.mkService true ∅)).2).1
  = Cache.Returns
      (applyFiltersAndSort (mergeTokens (Some <$> []) (Some <$> []))
         sample_cached_query).
Proof.
  apply (getTokens_second_call_hits keeping_get keeping_setex sample_parse
           sample_stringify [] [] [sample_token (Some "So11") 7 70 "DexScreener"] []
           (λ tokens, tokens) (λ tokens, tokens)
           sample_fresh_query sample_cached_query (Cache.mkService true ∅)
           (<["tokens:all:default" := "[]"]> ∅)
           (<["tokens:all:default" := "[]"]> ∅));
    [reflexivity | reflexivity | reflexivity | reflexivity | discriminate
    | reflexivity | discriminate | reflexivity].
Defined.

(** ** The lists the pipeline hands on *)

Lemma submseteq_NoDup {A} (l k : list A) : l ⊆+ k → NoDup k → NoDup l.
Proof.
  intros [k' Hperm]%submseteq_Permutation Hnd. rewrite Hperm in Hnd.
  by apply NoDup_app in Hnd as (? & _ & _).
Qed.

Lemma mergeTokens_addresses_NoDup dex jup :
  NoDup (token_address <$> mergeTokens dex jup).
Proof.
  set (key_of := λ a : option string,
         toLowerCase <$> (a ≫= λ s, if decide (s = "") then None else Some s)).
  apply (NoDup_fmap_1 key_of).
  assert (key_of <$> (token_address <$> mergeTokens dex jup)
          = Some <$> (merge_map dex jup).*1) as ->.
  { unfold mergeTokens, map_values. rewrite <- !list_fmap_compose.
    apply list_fmap_ext. intros i [k t] Hi. simpl.
    apply list_elem_of_lookup_2, (merge_map_keyed dex jup) in Hi.
    unfold has_key, merge_key, valid_address in Hi. rewrite <- Hi.
    unfold key_of. by destruct (token_address t). }
  apply (NoDup_fmap_2 Some), merge_map_NoDup.
Qed.

Lemma applyFiltersAndSort_submseteq tokens options :
  applyFiltersAndSort tokens options ⊆+ tokens.
Proof.
  unfold applyFiltersAndSort, slice0.
  etrans; [apply sublist_submseteq, sublist_take|].
  destruct (truthy_string (sortBy options)); [|done].
  apply Permutation_submseteq. rewrite sortTokens_by_key.
  apply array_sort_Permutation.
Qed.

Lemma enrich7DayData_addresses mappings chart tokens :
  token_address <$> CoinGecko.enrich7DayData mappings chart tokens
  = token_address <$> tokens.
Proof.
  unfold CoinGecko.enrich7DayData.
  rewrite fmap_imap. etrans; [|apply imap_const]. by apply imap_ext.
Qed.

(** X22.  Fresh from the sources, what [getTokens] returns is a snapshot:
    no two of its records share an address, whatever the adapters
    delivered (duplicates included), whatever the enrichment found and
    however the query sorts and cuts. *)
Theorem getTokens_fresh_is_a_snapshot {Redis : Type}
    (client_get : string → Redis → Cache.Completion (option string) * Redis)
    (client_setex : string → num → string → Redis → Cache.Completion unit * Redis)
    (JSON_parse : string → Cache.Completion (option (list Token)))
    (JSON_stringify : list Token → string)
    (dexTokens jupiterTokens : list Token) mappings chart
    (options : FilterOptions) (this : Cache.Service (Redis := Redis)) tokens :
  skipCache options = Some true →
  (getTokens client_get client_setex JSON_parse JSON_stringify dexTokens jupiterTokens
     (CoinGecko.enrich7DayData mappings chart) options this).1
  = Cache.Returns tokens →
  NoDup (token_address <$> tokens).
Proof.
  intros Hskip. unfold getTokens. rewrite Hskip, fetch_live_result. simpl.
  intros [= <-].
  eapply submseteq_NoDup.
  - apply fmap_submseteq, applyFiltersAndSort_submseteq.
  - rewrite enrich7DayData_addresses. apply mergeTokens_addresses_NoDup.
Qed.

Lemma getTokens_fresh_is_a_snapshot_witness :
  NoDup (token_address <$>
           applyFiltersAndSort
             (CoinGecko.enrich7DayData CoinGecko.tokenMappings sample_chart
                (mergeTokens
                   (Some <$> [sample_token (Some "So11") 7 70 "DexScreener";
                              sample_token (Some "so11") 8 90 "DexScreener"])
                   (Some <$> [sample_token (Some "SO11") 9 10 "Jupiter"])))
             sample_fresh_query).
Proof.
  apply (getTokens_fresh_is_a_snapshot keeping_get keeping_setex sample_parse
           sample_stringify
           [sample_token (Some "So11") 7 70 "DexScreener";
            sample_token (Some "so11") 8 90 "DexScreener"]
           [sample_token (Some "SO11") 9 10 "Jupiter"]
           CoinGecko.tokenMappings sample_chart sample_fresh_query
           (Cache.mkService true ∅));
    reflexivity.
Defined.

(** ** routes/tokens.ts *)

Lemma applyFiltersAndSort_length tokens options :
  length (applyFiltersAndSort tokens options)
  = slice_end (length tokens) (effective_limit options).
Proof.
  unfold applyFiltersAndSort, slice0. rewrite length_take.
  assert (length (match truthy_string (sortBy options) with
                  | Some s => sortTokens tokens s
                  | None => tokens
                  end) = length tokens) as ->.
  { destruct (truthy_string (sortBy options)); [|done].
    rewrite sortTokens_by_key. apply Permutation_length, array_sort_Permutation. }
  unfold slice_end. destruct (effective_limit options) as [q| | |]; try lia.
  destruct (Qtrunc q <? 0)%Z eqn:E; [apply Z.ltb_lt in E|apply Z.ltb_ge in E]; lia.
Qed.

Section RouteFacts.
Context {Redis : Type}.
Variable client_get : string → Redis → Cache.Completion (option string) * Redis.
Variable client_setex :
  string → num → string → Redis → Cache.Completion unit * Redis.
Variable JSON_parse : string → Cache.Completion (option (list Token)).
Variable JSON_stringify : list Token → string.
Variable dexTokens jupiterTokens : list Token.
Variable enrich7DayData : list Token → list Token.
Variable parseInt : string → num.

Abbreviation handler :=
  (Routes.get_tokens parseInt
     (getTokens client_get client_setex JSON_parse JSON_stringify dexTokens
        jupiterTokens enrich7DayData)).

Lemma getTokens_returns_a_page options (this : Cache.Service (Redis := Redis)) :
  ∃ tokens all,
    (getTokens client_get client_setex JSON_parse JSON_stringify dexTokens
       jupiterTokens enrich7DayData options this).1
    = Cache.Returns tokens
    ∧ tokens = applyFiltersAndSort all options.
Proof.
  unfold getTokens.
  destruct (skipCache options) as [[]|];
    [rewrite fetch_live_result; by do 2 eexists| |];
    unfold Cache.bind at 1;
    destruct (cache_get_returns client_get JSON_parse (getCacheKey options) this)
      as [cached Hget];
    destruct (Cache.get _ _ _ this) as [r this']; simpl in Hget; subst r;
    (destruct cached; [by do 2 eexists|rewrite fetch_live_result; by do 2 eexists]).
Qed.

(** X23.  The route [GET /tokens] takes its [catch], and answers 500,
    exactly when [getTokens] rejects, whatever [getTokens] is; whenever it
    resolves, the route answers with a page whose [total] is the number of
    tokens on the page itself (not of those known), and whose [limit] is
    the one the request asked for.  With the [getTokens] of the aggregator,
    which does not reject when the cache is down: when the request names
    no limit the page carries at most twenty-five tokens, and when it asks
    for more than fifty the page still carries at most fifty while [limit]
    repeats the number asked for. *)
Theorem route_page (query : Routes.Query) (this : Cache.Service (Redis := Redis)) :
  (∀ aggregator_getTokens : FilterOptions → Cache.M (Redis := Redis) (list Token),
     ((Routes.get_tokens parseInt aggregator_getTokens query this).1 = Routes.Status500
      ↔ ∃ e, (aggregator_getTokens (Routes.options_of parseInt query) this).1
             = Cache.Throws e)
     ∧ ∀ tokens,
         (aggregator_getTokens (Routes.options_of parseInt query) this).1
         = Cache.Returns tokens →
         (Routes.get_tokens parseInt aggregator_getTokens query this).1
         = Routes.Json tokens (of_Z (Z.of_nat (length tokens)))
             (limit_or_default (Routes.options_of parseInt query)))
  ∧ (∀ tokens,
       (getTokens client_get client_setex JSON_parse JSON_stringify dexTokens
          jupiterTokens enrich7DayData (Routes.options_of parseInt query) this).1
       = Cache.Returns tokens →
       (handler query this).1
       = Routes.Json tokens (of_Z (Z.of_nat (length tokens)))
           (limit_or_default (Routes.options_of parseInt query))
       ∧ (Routes.q_limit query = None →
          limit_or_default (Routes.options_of parseInt query) = of_Z 25
          ∧ (length tokens ≤ 25)%nat)
       ∧ ∀ text q, Routes.q_limit query = Some text → text ≠ "" →
           parseInt text = Fin q → (50 < q)%Q →
           limit_or_default (Routes.options_of parseInt query) = Fin q
           ∧ (length tokens ≤ 50)%nat)
  ∧ (Cache.isConnected this = false →
     (handler query this).1
     = Routes.Json
         (applyFiltersAndSort
            (enrich7DayData (mergeTokens (Some <$> dexTokens) (Some <$> jupiterTokens)))
            (Routes.options_of parseInt query))
         (of_Z (Z.of_nat
                  (length
                     (applyFiltersAndSort
                        (enrich7DayData
                           (mergeTokens (Some <$> dexTokens) (Some <$> jupiterTokens)))
                        (Routes.options_of parseInt query)))))
         (limit_or_default (Routes.options_of parseInt query))).
Proof.
  assert (∀ aggregator_getTokens : FilterOptions → Cache.M (Redis := Redis) (list Token),
            ∀ tokens,
              (aggregator_getTokens (Routes.options_of parseInt query) this).1
              = Cache.Returns tokens →
              (Routes.get_tokens parseInt aggregator_getTokens query this).1
              = Routes.Json tokens (of_Z (Z.of_nat (length tokens)))
                  (limit_or_default (Routes.options_of parseInt query))) as Hpage.
  { intros aggregator_getTokens tokens Hresolves. unfold Routes.get_tokens.
    destruct (aggregator_getTokens _ this) as [r this']. simpl in Hresolves.
    by subst r. }
  split_and!.
  - intros aggregator_getTokens. split; [|apply Hpage].
    unfold Routes.get_tokens.
    destruct (aggregator_getTokens _ this) as [[tokens|e] this']; simpl.
    + split; [done|]. by intros (e & [=]).
    + split; [by eexists|done].
  - intros tokens Hresolves. split; [by apply Hpage|].
    destruct (getTokens_returns_a_page (Routes.options_of parseInt query) this)
      as (tokens' & all & Hrun & Htokens).
    rewrite Hresolves in Hrun. injection Hrun as <-.
    split.
    + intros Hnone. unfold limit_or_default, Routes.options_of. rewrite Hnone. simpl.
      split; [done|]. subst tokens. rewrite applyFiltersAndSort_length.
      unfold effective_limit, limit_or_default, Routes.options_of. rewrite Hnone.
      simpl. vm_compute Math_min. unfold slice_end. vm_compute Qtrunc.
      simpl. lia.
    + intros text q Hlimit Htext Hparse Hq.
      assert (limit_or_default (Routes.options_of parseInt query) = Fin q) as Hasked.
      { unfold limit_or_default, Routes.options_of. rewrite Hlimit. simpl.
        rewrite decide_False by done.
        rewrite Hparse. unfold truthy.
        destruct (Qis_zero q) eqn:E; [|done].
        apply Qis_zero_eq in E. lra. }
      split; [done|]. subst tokens. rewrite applyFiltersAndSort_length.
      unfold effective_limit. rewrite Hasked.
      unfold Math_min, config.pagination.maxLimit, of_Z, gt.
      rewrite (proj2 (Qltb_lt _ _)) by done.
      unfold slice_end. vm_compute Qtrunc. simpl. lia.
  - intros Hdown. unfold Routes.get_tokens.
    by rewrite (getTokens_when_down client_get client_setex JSON_parse JSON_stringify
                  dexTokens jupiterTokens enrich7DayData _ _ Hdown).
Qed.
End RouteFacts.

Lemma route_page_witness :
  (Routes.get_tokens sample_parseInt
     (getTokens keeping_get keeping_setex sample_parse sample_stringify
        sample_dex_tokens sample_jupiter_tokens (λ tokens, tokens))
     sample_request (Cache.mkService false ∅)).1
  = Routes.Json
      (applyFiltersAndSort
         (mergeTokens (Some <$> sample_dex_tokens) (Some <$> sample_jupiter_tokens))
         (Routes.options_of sample_parseInt sample_request))
      (of_Z (Z.of_nat
               (length
                  (applyFiltersAndSort
                     (mergeTokens (Some <$> sample_dex_tokens)
                        (Some <$> sample_jupiter_tokens))
                     (Routes.options_of sample_parseInt sample_request)))))
      (of_Z 200)
  ∧ (length
       (applyFiltersAndSort
          (mergeTokens (Some <$> sample_dex_tokens) (Some <$> sample_jupiter_tokens))
          (Routes.options_of sample_parseInt sample_request)) ≤ 50)%nat.
Proof.
  destruct (route_page keeping_get keeping_setex sample_parse sample_stringify
              sample_dex_tokens sample_jupiter_tokens (λ tokens, tokens)
              sample_parseInt sample_request (Cache.mkService false ∅))
    as (_ & Hresolved & Hdown).
  split; [exact (Hdown eq_refl)|].
  destruct (Hresolved
              (applyFiltersAndSort
                 (mergeTokens (Some <$> sample_dex_tokens)
                    (Some <$> sample_jupiter_tokens))
                 (Routes.options_of sample_parseInt sample_request)) eq_refl)
    as (_ & _ & Hasked).
  apply (Hasked "200" (inject_Z 200)); [reflexivity | discriminate | reflexivity
                                        | reflexivity].
Defined.

(** ** index.ts: the scheduled update *)

Lemma percent_of_same_price t p :
  price_sol p = price_sol t → gt (priceChangePercent t p) (of_Z 5) = false.
Proof.
  intros Hsame. unfold priceChangePercent. rewrite Hsame.
  exact (percent_of_itself_price t).
Qed.

Lemma percent_of_same_volume t p :
  volume_sol p = volume_sol t → gt (volumeIncrease t p) (of_Z 50) = false.
Proof.
  intros Hsame. unfold volumeIncrease. rewrite Hsame.
  exact (percent_of_itself_volume t).
Qed.

Lemma detect_quiet prev cur :
  NoDup (token_address <$> cur) →
  (∀ t, t ∈ cur →
     prev !! token_address t = None
     ∨ ∃ p, prev !! token_address t = Some p ∧ same_quote p t) →
  (detectChanges prev cur).2 = {| priceChanges := []; volumeSpikes := [] |}.
Proof.
  intros Hnd Hbase.
  destruct (detectChanges prev cur).2 as [lp lv] eqn:E.
  f_equal.
  - apply elem_of_nil_inv. intros t Ht.
    assert (t ∈ priceChanges (detectChanges prev cur).2) as Hin by by rewrite E.
    apply detect_price_flagged in Hin as [Hcur Hflag]; [|done].
    unfold price_flagged in Hflag.
    destruct (Hbase t Hcur) as [Hnone|(p & Hp & _ & Hprice & _)];
      [by rewrite Hnone in Hflag|].
    rewrite Hp in Hflag. by rewrite percent_of_same_price in Hflag.
  - apply elem_of_nil_inv. intros t Ht.
    assert (t ∈ volumeSpikes (detectChanges prev cur).2) as Hin by by rewrite E.
    apply detect_volume_flagged in Hin as [Hcur Hflag]; [|done].
    unfold volume_flagged in Hflag.
    destruct (Hbase t Hcur) as [Hnone|(p & Hp & _ & _ & Hvolume)];
      [by rewrite Hnone in Hflag|].
    rewrite Hp in Hflag. by rewrite percent_of_same_volume in Hflag.
Qed.

Lemma update_page_length tokens :
  (length (applyFiltersAndSort tokens Server.update_options) ≤ 30)%nat.
Proof.
  rewrite applyFiltersAndSort_length. vm_compute effective_limit.
  unfold slice_end. vm_compute Qtrunc. simpl. lia.
Qed.

Section UpdateFacts.
Context {Redis : Type}.
Variable client_get : string → Redis → Cache.Completion (option string) * Redis.
Variable client_setex :
  string → num → string → Redis → Cache.Completion unit * Redis.
Variable JSON_parse : string → Cache.Completion (option (list Token)).
Variable JSON_stringify : list Token → string.

Abbreviation page dexTokens jupiterTokens enrich :=
  (applyFiltersAndSort
     (enrich (mergeTokens (Some <$> dexTokens) (Some <$> jupiterTokens)))
     Server.update_options).
Abbreviation update dexTokens jupiterTokens enrich :=
  (Server.scheduled_update
     (getTokens client_get client_setex JSON_parse JSON_stringify dexTokens
        jupiterTokens enrich)).

Lemma scheduled_update_run dexTokens jupiterTokens enrich now
    (aggregator : Server.Aggregator Redis) :
  ∃ cache',
    update dexTokens jupiterTokens enrich now aggregator
    = (let changes := (detectChanges (Server.previousTokens aggregator)
                         (page dexTokens jupiterTokens enrich)).2 in
       (if decide (0 < length (priceChanges changes))%nat
        then WebSocket.sendPriceChanges (now "price_change") (priceChanges changes)
        else [])
       ++ (if decide (0 < length (volumeSpikes changes))%nat
           then WebSocket.sendVolumeSpikes (now "volume_spike") (volumeSpikes changes)
           else [])
       ++ WebSocket.broadcastUpdate (now "tokens_update")
            (page dexTokens jupiterTokens enrich),
       Server.mkAggregator cache'
         (detectChanges (Server.previousTokens aggregator)
            (page dexTokens jupiterTokens enrich)).1).
Proof.
  unfold Server.scheduled_update, getTokens. simpl. rewrite fetch_live_result.
  eexists. by destruct (detectChanges _ _).
Qed.

(** X24.  One scheduled update, whatever Redis and the sources do: it
    never takes its [catch]; it ends with one [tokens_update] that carries
    the page of at most 30 tokens; before it come at most a [price_change]
    and then a [volume_spike], each only with a list that is not empty and
    a sublist of the page; and [previousTokens] has taken in the page. *)
Theorem scheduled_update_emits dexTokens jupiterTokens enrich now
    (aggregator : Server.Aggregator Redis) :
  ∃ changes,
    (update dexTokens jupiterTokens enrich now aggregator).1
    = changes
      ++ [WebSocket.mkEmitted "tokens_update" None
            (page dexTokens jupiterTokens enrich) (now "tokens_update")]
    ∧ (length (page dexTokens jupiterTokens enrich) ≤ 30)%nat
    ∧ sublist (WebSocket.event <$> changes) ["price_change"; "volume_spike"]
    ∧ Forall (λ e, WebSocket.tokens e ≠ []
                   ∧ sublist (WebSocket.tokens e) (page dexTokens jupiterTokens enrich))
        changes
    ∧ Server.previousTokens (update dexTokens jupiterTokens enrich now aggregator).2
      = (detectChanges (Server.previousTokens aggregator)
           (page dexTokens jupiterTokens enrich)).1.
Proof.
  destruct (scheduled_update_run dexTokens jupiterTokens enrich now aggregator)
    as [cache' ->]. cbn [fst snd Server.previousTokens].
  pose proof (detect_fold_sublist (page dexTokens jupiterTokens enrich)
                (Server.previousTokens aggregator) (mkChanges [] []))
    as (lp & lv & Hp & Hv & Hsubp & Hsubv).
  fold (detectChanges (Server.previousTokens aggregator)
          (page dexTokens jupiterTokens enrich)) in Hp, Hv.
  simpl in Hp, Hv. rewrite Hp, Hv.
  eexists. split; [by rewrite app_assoc|].
  split; [apply update_page_length|]. split; [|split; [|done]].
  - unfold WebSocket.sendPriceChanges, WebSocket.sendVolumeSpikes.
    destruct lp, lv; simpl; repeat constructor.
  - unfold WebSocket.sendPriceChanges, WebSocket.sendVolumeSpikes.
    destruct lp, lv; simpl; repeat constructor; done.
Qed.

Abbreviation enriched mappings chart := (CoinGecko.enrich7DayData mappings chart).

Lemma page_NoDup dexTokens jupiterTokens mappings chart :
  NoDup (token_address <$> page dexTokens jupiterTokens (enriched mappings chart)).
Proof.
  eapply submseteq_NoDup.
  - apply fmap_submseteq, applyFiltersAndSort_submseteq.
  - rewrite enrich7DayData_addresses. apply mergeTokens_addresses_NoDup.
Qed.

Lemma scheduled_update_quiet dexTokens jupiterTokens mappings chart now
    (aggregator : Server.Aggregator Redis) :
  (∀ t, t ∈ page dexTokens jupiterTokens (enriched mappings chart) →
     Server.previousTokens aggregator !! token_address t = None
     ∨ ∃ p, Server.previousTokens aggregator !! token_address t = Some p
            ∧ same_quote p t) →
  (update dexTokens jupiterTokens (enriched mappings chart) now aggregator).1
  = [WebSocket.mkEmitted "tokens_update" None
       (page dexTokens jupiterTokens (enriched mappings chart)) (now "tokens_update")].
Proof.
  intros Hbase.
  destruct (scheduled_update_run dexTokens jupiterTokens (enriched mappings chart)
              now aggregator) as [cache' ->].
  cbn [fst]. by rewrite (detect_quiet _ _ (page_NoDup _ _ _ _) Hbase).
Qed.

(** X25.  The first update after a start is quiet: with nothing in
    [previousTokens] there is no baseline, and whatever the sources deliver
    the update emits the one [tokens_update] and neither a [price_change]
    nor a [volume_spike]. *)
Theorem first_update_is_quiet dexTokens jupiterTokens mappings chart now
    (aggregator : Server.Aggregator Redis) :
  Server.previousTokens aggregator = ∅ →
  (update dexTokens jupiterTokens (enriched mappings chart) now aggregator).1
  = [WebSocket.mkEmitted "tokens_update" None
       (page dexTokens jupiterTokens (enriched mappings chart)) (now "tokens_update")].
Proof.
  intros Hnone. apply scheduled_update_quiet. intros t _. left.
  by rewrite Hnone, lookup_empty.
Qed.

(** X26.  An update that finds every token of its page at the price and
    the volume that the page of the update before had for its address is
    quiet: it emits the one [tokens_update], whatever else of the records
    has changed ([last_updated], which the adapters stamp at every fetch,
    the other fields, the order, the tokens that have gone), whatever was
    in [previousTokens] before the first of the two, whatever Redis did in
    between and whatever the two clocks read. *)
Theorem steady_update_is_quiet dexTokens jupiterTokens dexTokens' jupiterTokens'
    mappings mappings' chart chart' now now' (aggregator : Server.Aggregator Redis) :
  (∀ t', t' ∈ page dexTokens' jupiterTokens' (enriched mappings' chart') →
     ∃ t, t ∈ page dexTokens jupiterTokens (enriched mappings chart)
          ∧ same_quote t t') →
  (update dexTokens' jupiterTokens' (enriched mappings' chart') now'
     (update dexTokens jupiterTokens (enriched mappings chart) now aggregator).2).1
  = [WebSocket.mkEmitted "tokens_update" None
       (page dexTokens' jupiterTokens' (enriched mappings' chart'))
       (now' "tokens_update")].
Proof.
  intros Hsteady. apply scheduled_update_quiet. intros t' Ht'. right.
  destruct (Hsteady t' Ht') as (t & Ht & Hquote). exists t. split; [|done].
  destruct (scheduled_update_run dexTokens jupiterTokens (enriched mappings chart)
              now aggregator) as [cache' ->].
  cbn [snd Server.previousTokens]. unfold detectChanges.
  rewrite detect_fold_state. destruct Hquote as (<- & _).
  by rewrite records_at_unique by (apply page_NoDup || done).
Qed.

(** X27.  Server to client: after the events of one scheduled update,
    handled in the order they were emitted, the hook shows the page of that
    update and its timestamp, whatever it showed before and whatever
    changes the update announced. *)
Theorem client_shows_the_page dexTokens jupiterTokens enrich now
    (aggregator : Server.Aggregator Redis) (state : Client.State) :
  Client.receive (update dexTokens jupiterTokens enrich now aggregator).1 state
  = Client.mkState (page dexTokens jupiterTokens enrich) (now "tokens_update").
Proof.
  destruct (scheduled_update_run dexTokens jupiterTokens enrich now aggregator)
    as [cache' ->]. cbn [fst].
  unfold Client.receive. rewrite !fold_left_app. done.
Qed.
End UpdateFacts.

Lemma first_update_is_quiet_witness :
  (Server.scheduled_update
     (getTokens keeping_get keeping_setex sample_parse sample_stringify
        sample_dex_tokens sample_jupiter_tokens
        (CoinGecko.enrich7DayData CoinGecko.tokenMappings sample_chart))
     sample_now sample_aggregator).1
  = [WebSocket.mkEmitted "tokens_update" None
       (applyFiltersAndSort
          (CoinGecko.enrich7DayData CoinGecko.tokenMappings sample_chart
             (mergeTokens (Some <$> sample_dex_tokens) (Some <$> sample_jupiter_tokens)))
          Server.update_options)
       (sample_now "tokens_update")].
Proof.
  apply (first_update_is_quiet keeping_get keeping_setex sample_parse sample_stringify
           sample_dex_tokens sample_jupiter_tokens CoinGecko.tokenMappings sample_chart
           sample_now sample_aggregator).
  reflexivity.
Defined.

Lemma steady_update_is_quiet_witness :
  (Server.scheduled_update
     (getTokens keeping_get keeping_setex sample_parse sample_stringify
        (stamped (of_Z 1700000030000) <$> sample_dex_tokens)
        (stamped (of_Z 1700000030000) <$> sample_jupiter_tokens)
        (CoinGecko.enrich7DayData CoinGecko.tokenMappings sample_chart))
     sample_now
     (Server.scheduled_update
        (getTokens keeping_get keeping_setex sample_parse sample_stringify
           sample_dex_tokens sample_jupiter_tokens
           (CoinGecko.enrich7DayData CoinGecko.tokenMappings sample_chart))
        sample_now sample_aggregator).2).1
  = [WebSocket.mkEmitted "tokens_update" None
       (applyFiltersAndSort
          (CoinGecko.enrich7DayData CoinGecko.tokenMappings sample_chart
             (mergeTokens (Some <$> (stamped (of_Z 1700000030000) <$> sample_dex_tokens))
                (Some <$> (stamped (of_Z 1700000030000) <$> sample_jupiter_tokens))))
          Server.update_options)
       (sample_now "tokens_update")].
Proof.
  apply (steady_update_is_quiet keeping_get keeping_setex sample_parse sample_stringify
           sample_dex_tokens sample_jupiter_tokens
           (stamped (of_Z 1700000030000) <$> sample_dex_tokens)
           (stamped (of_Z 1700000030000) <$> sample_jupiter_tokens)
           CoinGecko.tokenMappings CoinGecko.tokenMappings sample_chart sample_chart
           sample_now sample_now sample_aggregator).
  intros t' Ht'. vm_compute in Ht'.
  apply elem_of_cons in Ht' as [->|Ht'];
    [eexists; split; [apply elem_of_cons; left; reflexivity|by vm_compute]|].
  apply elem_of_cons in Ht' as [->|Ht'];
    [eexists; split; [apply elem_of_cons; right; apply elem_of_cons; left; reflexivity
                     |by vm_compute]|].
  by apply elem_of_nil in Ht'.
Defined.

(** ** The client: useWebSocket *)

Lemma entries_set_fresh {K V} `{EqDecision K} (k : K) (v : V) m :
  k ∉ m.*1 → entries_set k v m = m ++ [(k, v)].
Proof.
  induction m as [|[k' v'] m IH]; csimpl; [done|].
  rewrite not_elem_of_cons. intros [Hne Hout].
  rewrite decide_False by done. by rewrite IH.
Qed.

Lemma entries_set_all_fresh {K V} `{EqDecision K} (es m : list (K * V)) :
  NoDup (m.*1 ++ es.*1) → entries_set_all es m = m ++ es.
Proof.
  unfold entries_set_all. revert m.
  induction es as [|[k v] es IH]; intros m Hnd; simpl; [by rewrite app_nil_r|].
  csimpl in Hnd.
  assert (k ∉ m.*1) as Hk.
  { apply NoDup_app in Hnd as (_ & Hdis & _). intros Hin.
    apply (Hdis k Hin), elem_of_cons. by left. }
  rewrite entries_set_fresh by done. rewrite IH; [by rewrite <- app_assoc|].
  rewrite fmap_app, <- app_assoc. done.
Qed.

Lemma entries_get_lookup {K V} `{EqDecision K} (m : list (K * V)) i k v :
  NoDup m.*1 → m !! i = Some (k, v) → entries_get k m = Some v.
Proof.
  revert i. induction m as [|[k' v'] m IH]; intros i; csimpl; [done|].
  rewrite NoDup_cons. intros [Hk Hnd]. destruct i as [|i]; simpl.
  - intros [= -> ->]. by rewrite decide_True.
  - intros Hi. destruct (decide (k = k')) as [->|Hne]; [|by apply (IH i)].
    exfalso. apply Hk. apply list_elem_of_fmap. exists (k', v). split; [done|].
    by apply list_elem_of_lookup_2 in Hi.
Qed.

Lemma last_keyed_records a (update : list Token) :
  last (filter (λ kv : option string * Token, kv.1 = a)
          ((λ t, (token_address t, t)) <$> update))
  = (λ t, (token_address t, t)) <$> last (records_at a update).
Proof.
  unfold records_at. rewrite <- fmap_last. f_equal.
  induction update as [|t update IH]; [done|].
  csimpl. rewrite !filter_cons. simpl.
  destruct (decide (token_address t = a)); csimpl; by rewrite IH.
Qed.

Lemma updated_addresses prevTokens update :
  token_address <$> Client.updated prevTokens update
  = (entries_set_all ((λ t, (token_address t, t)) <$> update)
       (Map_of ((λ t, (token_address t, t)) <$> prevTokens))).*1.
Proof.
  unfold Client.updated. rewrite <- list_fmap_compose.
  apply list_fmap_ext. intros i [k t] Hi. simpl.
  apply list_elem_of_lookup_2, entries_set_all_elem_of in Hi as [Hin|Hin].
  - apply list_elem_of_fmap in Hin as (t' & [= -> ->] & _). done.
  - apply entries_set_all_elem_of in Hin as [Hin|Hin]; [|by apply elem_of_nil in Hin].
    apply list_elem_of_fmap in Hin as (t' & [= -> ->] & _). done.
Qed.

(** X28.  What the hook does with a [price_change] or a [volume_spike].
    The list it shows afterwards has one token per address, each of them
    from the update or from the list before.  When the list before had one
    token per address and the update only names addresses that are shown,
    every token stays in its row: the row shows the last record the update
    has for its address, and the token as it was if the update has none. *)
Theorem client_updated prevTokens update :
  NoDup (token_address <$> Client.updated prevTokens update)
  ∧ (∀ t, t ∈ Client.updated prevTokens update → t ∈ update ∨ t ∈ prevTokens)
  ∧ (NoDup (token_address <$> prevTokens) →
     (∀ u, u ∈ update → token_address u ∈ token_address <$> prevTokens) →
     length (Client.updated prevTokens update) = length prevTokens
     ∧ ∀ i t, prevTokens !! i = Some t →
         Client.updated prevTokens update !! i
         = Some (default t (last (records_at (token_address t) update)))).
Proof.
  split_and!.
  - rewrite updated_addresses. apply entries_set_all_NoDup, entries_set_all_NoDup.
    constructor.
  - intros t Ht. unfold Client.updated in Ht.
    apply list_elem_of_fmap in Ht as ([k t'] & -> & Hin). simpl.
    apply entries_set_all_elem_of in Hin as [Hin|Hin].
    + left. by apply list_elem_of_fmap in Hin as (u & [= -> ->] & Hu).
    + right. apply entries_set_all_elem_of in Hin as [Hin|Hin];
        [|by apply elem_of_nil in Hin].
      by apply list_elem_of_fmap in Hin as (u & [= -> ->] & Hu).
  - intros Hnd Hshown.
    assert (Map_of ((λ t, (token_address t, t)) <$> prevTokens)
            = (λ t, (token_address t, t)) <$> prevTokens) as Hmap.
    { unfold Map_of. rewrite entries_set_all_fresh; [done|].
      csimpl. by rewrite <- list_fmap_compose. }
    set (m := entries_set_all ((λ t, (token_address t, t)) <$> update)
                (Map_of ((λ t, (token_address t, t)) <$> prevTokens))).
    assert (m.*1 = token_address <$> prevTokens) as Hkeys.
    { unfold m. rewrite entries_set_all_keys_in.
      - rewrite Hmap. by rewrite <- list_fmap_compose.
      - intros kv Hkv. apply list_elem_of_fmap in Hkv as (u & -> & Hu). simpl.
        rewrite Hmap, <- list_fmap_compose. by apply Hshown. }
    split.
    + unfold Client.updated. fold m.
      rewrite length_fmap, <- (length_fmap fst), Hkeys. by rewrite length_fmap.
    + intros i t Hi. unfold Client.updated. fold m. rewrite list_lookup_fmap.
      assert ((m.*1) !! i = Some (token_address t)) as Hki
        by by rewrite Hkeys, list_lookup_fmap, Hi.
      rewrite list_lookup_fmap in Hki.
      destruct (m !! i) as [[k v]|] eqn:Hmi; [|done].
      simpl in Hki. injection Hki as ->. simpl. f_equal.
      assert (entries_get (token_address t) m = Some v) as Hget.
      { apply (entries_get_lookup m i); [|done]. by rewrite Hkeys. }
      unfold m in Hget. rewrite entries_set_all_get, last_keyed_records in Hget.
      destruct (last (records_at (token_address t) update)) as [u|]; simpl in *;
        [congruence|].
      rewrite Hmap in Hget.
      assert (((λ t, (token_address t, t)) <$> prevTokens) !! i
              = Some (token_address t, t)) as Hpi by by rewrite list_lookup_fmap, Hi.
      apply entries_get_lookup in Hpi; [congruence|].
      by rewrite <- list_fmap_compose.
Qed.

Lemma client_updated_witness :
  length (Client.updated sample_snapshot [sample_token (Some "So11") 9 990 "Jupiter"])
  = length sample_snapshot
  ∧ Client.updated sample_snapshot [sample_token (Some "So11") 9 990 "Jupiter"] !! 1%nat
    = Some (sample_token (Some "So11") 9 990 "Jupiter").
Proof.
  destruct (proj2 (proj2 (client_updated sample_snapshot
                            [sample_token (Some "So11") 9 990 "Jupiter"])))
    as [Hlength Hrows].
  - apply NoDup_ListNoDup. vm_compute.
    repeat (constructor; [simpl; intuition congruence|]). constructor.
  - intros u ->%list_elem_of_singleton. vm_compute.
    apply elem_of_cons. right. apply elem_of_cons. by left.
  - split; [exact Hlength|].
    apply (Hrows 1%nat (sample_token (Some "So11") 7 900 "DexScreener")).
    reflexivity.
Defined.
